(** * Region detection: a shallow embedding of [region_detector.cpp]

    The development follows the source file
    [region_detection_core/src/region_detector.cpp] function by function.
    Vectors ([std::vector], [pcl::PointCloud]) are lists, [int] pixel
    coordinates are integers, [float] and [double] values are taken from an
    arithmetic interface that is instantiated twice: with IEEE-754 binary32 and
    binary64 (round to nearest even), and with the real numbers.  Calls into
    OpenCV, PCL and FLANN are fields of an interface as well.  A computation
    that leaves defined behaviour ([front()] of an empty vector, [erase(end())],
    an uncaught [std::out_of_range]) has no result: its model returns [None]. *)

From Stdlib Require Import String.
From Stdlib Require Import ZArith List Bool Arith Lia Permutation.
From Stdlib Require Import SpecFloat.
From Stdlib Require Import Reals Lra.
From Stdlib Require Import QArith Qabs.
Import ListNotations.
Close Scope Q_scope.

Set Implicit Arguments.

(** ** A small option monad for partial computations *)

Definition bind {A B : Type} (c : option A) (k : A -> option B) : option B :=
  match c with
  | Some a => k a
  | None => None
  end.

Notation "x <- c ;; k" := (bind c (fun x => k))
  (at level 61, c at next level, right associativity).
Notation "' pat <- c ;; k" := (bind c (fun x => match x with pat => k end))
  (at level 61, pat pattern, c at next level, right associativity).

(** [front()] and [back()] of a vector; undefined on an empty one. *)
Definition front {A : Type} (l : list A) : option A := hd_error l.

Fixpoint back {A : Type} (l : list A) : option A :=
  match l with
  | [] => None
  | [a] => Some a
  | _ :: r => back r
  end.

(** ** Pixel contours and their densification *)

(** [cv::Point]: integer pixel coordinates.  The source computes on [int];
    the model uses unbounded integers, since overflow of a signed [int] is
    undefined and coordinates are bounded by the image size. *)
Record CvPoint : Type := mkCvPoint { cv_x : Z; cv_y : Z }.

Definition MIN_PIXEL_DISTANCE : Z := 1.

(** The loop of [linspace]: [for (x = xs.begin(), val = a; x != xs.end(); ++x, val += h) *x = val;] *)
Fixpoint linspace_fill (val h : Z) (n : nat) : list Z :=
  match n with
  | O => []
  | S n' => val :: linspace_fill (val + h) h n'
  end.

(** [linspace<int>(a, b, N)]: the step [h = (b - a) / static_cast<int>(N-1)]
    is an [int] division, which truncates toward zero. *)
Definition linspace (a b : Z) (N : nat) : list Z :=
  let h := Z.quot (b - a) (Z.of_nat N - 1) in
  linspace_fill a h N.

(** [linspace<int>] on the values of a 32-bit [int].  An overflow of a signed
    [int] is undefined behaviour: [linspace_int] has no result when [b - a]
    or a value of [val] leaves the range of an [int] (the loop computes
    [val += h] after the last element as well), when [N - 1] is zero (a
    division by zero) or does not fit an [int], or when the division is
    [INT_MIN / -1].  Where it has a result, the result is the one of
    [linspace] (lemma [linspace_int_agrees] below); [a] and [b] are taken to
    be in range. *)
Definition in_int (z : Z) : bool := Z.leb (- 2 ^ 31) z && Z.ltb z (2 ^ 31).

Fixpoint linspace_fill_int (val h : Z) (n : nat) : option (list Z) :=
  match n with
  | O => Some []
  | S n' =>
      if in_int (val + h)
      then rest <- linspace_fill_int (val + h) h n' ;; Some (val :: rest)
      else None
  end.

Definition linspace_int (a b : Z) (N : nat) : option (list Z) :=
  let d := (Z.of_nat N - 1)%Z in
  if negb (in_int (b - a)) || negb (in_int d) then None
  else if Z.eqb d 0 then None
  else if Z.eqb (b - a) (- 2 ^ 31) && Z.eqb d (-1) then None
  else linspace_fill_int a (Z.quot (b - a) d) N.

(** The body of the loop over [j] in [compute]: what is pushed for the pair
    [(p1, p2)] of consecutive contour vertices. *)
Definition interpolate_pair (p1 p2 : CvPoint) : list CvPoint :=
  let x_coord_dist := Z.abs (cv_x p2 - cv_x p1) in
  let y_coord_dist := Z.abs (cv_y p2 - cv_y p1) in
  let max_coord_dist :=
    if Z.gtb x_coord_dist y_coord_dist then x_coord_dist else y_coord_dist in
  if Z.leb max_coord_dist MIN_PIXEL_DISTANCE then [p2]
  else
    let num_elements := Z.to_nat (max_coord_dist + 1) in
    let x_coord := linspace (cv_x p1) (cv_x p2) num_elements in
    let y_coord := linspace (cv_y p1) (cv_y p2) num_elements in
    map (fun k => mkCvPoint (nth k x_coord 0%Z) (nth k y_coord 0%Z))
        (seq 0 num_elements).

(** The loop [for (j = 1; j < indices.size(); j++)], with [p1 = indices[j-1]]. *)
Fixpoint interpolate_from (p1 : CvPoint) (rest : list CvPoint) : list CvPoint :=
  match rest with
  | [] => []
  | p2 :: rest' => interpolate_pair p1 p2 ++ interpolate_from p2 rest'
  end.

(** One contour of the loop "interpolating to fill gaps":
    [interpolated_indices.push_back(indices.front())] and then the pairs. *)
Definition interpolate_contour (indices : list CvPoint) : option (list CvPoint) :=
  match indices with
  | [] => None
  | p0 :: rest => Some (p0 :: interpolate_from p0 rest)
  end.

(** Chebyshev distance of two pixels and 8-connectedness of a polyline. *)
Definition chebyshev (p q : CvPoint) : Z :=
  Z.max (Z.abs (cv_x q - cv_x p)) (Z.abs (cv_y q - cv_y p)).

Fixpoint eight_connected (l : list CvPoint) : bool :=
  match l with
  | p :: ((q :: _) as r) => Z.leb (chebyshev p q) 1 && eight_connected r
  | _ => true
  end.

Definition point_eqb (p q : CvPoint) : bool := Z.eqb (cv_x p) (cv_x q) && Z.eqb (cv_y p) (cv_y q).

Definition count_point (p : CvPoint) (l : list CvPoint) : nat :=
  length (filter (point_eqb p) l).

(** ** Floating-point arithmetic as an interface

    [flt] is the type of a C++ [float], [dbl] of a [double].  [a > b] is
    written [dltb b a]. *)

Class Arith : Type := {
  flt : Type;
  dbl : Type;
  f_of_int : Z -> flt;             (* int -> float conversion *)
  f_to_int : flt -> option Z;      (* float -> int conversion: truncation, undefined out of range *)
  fadd : flt -> flt -> flt;
  fsub : flt -> flt -> flt;
  fmul : flt -> flt -> flt;
  fdiv : flt -> flt -> flt;
  fsqrt : flt -> flt;
  fltb : flt -> flt -> bool;
  cast : flt -> dbl;               (* float -> double promotion *)
  d_of_int : Z -> dbl;
  dadd : dbl -> dbl -> dbl;
  dsub : dbl -> dbl -> dbl;
  dmul : dbl -> dbl -> dbl;
  ddiv : dbl -> dbl -> dbl;
  dsqrt : dbl -> dbl;
  dltb : dbl -> dbl -> bool
}.

(** *** IEEE-754 instance: binary32 for [float], binary64 for [double] *)

Definition b32_add := SFadd 24 128.
Definition b32_sub := SFsub 24 128.
Definition b32_mul := SFmul 24 128.
Definition b32_div := SFdiv 24 128.
Definition b32_sqrt := SFsqrt 24 128.
Definition b32_of_int (n : Z) : spec_float := binary_normalize 24 128 n 0 false.

Definition b64_add := SFadd 53 1024.
Definition b64_sub := SFsub 53 1024.
Definition b64_mul := SFmul 53 1024.
Definition b64_div := SFdiv 53 1024.
Definition b64_sqrt := SFsqrt 53 1024.
Definition b64_of_int (n : Z) : spec_float := binary_normalize 53 1024 n 0 false.

(** Promotion of a binary32 value to binary64 is exact. *)
Definition b32_to_b64 (f : spec_float) : spec_float :=
  match f with
  | S754_finite s m e => binary_normalize 53 1024 (cond_Zopp s (Zpos m)) e s
  | _ => f
  end.

(** Conversion to [int] truncates toward zero; it is undefined for a NaN, an
    infinity or a value outside the range of a 32-bit [int]. *)
Definition b32_to_int (f : spec_float) : option Z :=
  match f with
  | S754_zero _ => Some 0%Z
  | S754_finite s m e =>
      let v := cond_Zopp s (Z.shiftl (Zpos m) e) in
      if Z.leb (- 2 ^ 31) v && Z.ltb v (2 ^ 31) then Some v else None
  | _ => None
  end.

Definition IEEE : Arith := {|
  flt := spec_float;
  dbl := spec_float;
  f_of_int := b32_of_int;
  f_to_int := b32_to_int;
  fadd := b32_add;
  fsub := b32_sub;
  fmul := b32_mul;
  fdiv := b32_div;
  fsqrt := b32_sqrt;
  fltb := SFltb;
  cast := b32_to_b64;
  d_of_int := b64_of_int;
  dadd := b64_add;
  dsub := b64_sub;
  dmul := b64_mul;
  ddiv := b64_div;
  dsqrt := b64_sqrt;
  dltb := SFltb
|}.

(** *** Exact instance: both types are the real numbers *)

Definition Rltb (a b : R) : bool := if Rlt_dec a b then true else false.

Definition R_to_int (r : R) : option Z :=
  Some (if Rlt_dec r 0 then (- Int_part (- r))%Z else Int_part r).

Definition Exact : Arith := {|
  flt := R;
  dbl := R;
  f_of_int := IZR;
  f_to_int := R_to_int;
  fadd := Rplus;
  fsub := Rminus;
  fmul := Rmult;
  fdiv := Rdiv;
  fsqrt := sqrt;
  fltb := Rltb;
  cast := fun r => r;
  d_of_int := IZR;
  dadd := Rplus;
  dsub := Rminus;
  dmul := Rmult;
  ddiv := Rdiv;
  dsqrt := sqrt;
  dltb := Rltb
|}.

(** ** Points and Eigen vectors *)

(** The data types are parameterised by the number types they contain; the
    notations below fix them to [flt] and [dbl] of the arithmetic at hand. *)

Record Vec3 (T : Type) : Type := mkVec3 { vx : T; vy : T; vz : T }.

(** [pcl::PointXYZ], [pcl::Normal] and [pcl::PointNormal]. *)
Record PointXYZ_ (T : Type) : Type := mkPointXYZ { x : T; y : T; z : T }.
Record Normal_ (T : Type) : Type := mkNormal { normal_x : T; normal_y : T; normal_z : T }.
Record PointNormal_ (T : Type) : Type :=
  mkPointNormal { pn_point : PointXYZ_ T; pn_normal : Normal_ T }.

(** A 3x3 matrix, kept as its three rows, and [Eigen::Isometry3d]: a
    translation and the 3x3 block of the rotation. *)
Record Matrix3d_ (T : Type) : Type :=
  mkMatrix3d { row0 : Vec3 T; row1 : Vec3 T; row2 : Vec3 T }.
Record Pose_ (T : Type) : Type := mkPose { translation : Vec3 T; rotation : Matrix3d_ T }.

(** [pcl::PointCloud<pcl::PointXYZ>] with its grid dimensions. *)
Record PointCloud_ (T : Type) : Type := mkPointCloud {
  width : Z;
  height : Z;
  points : list (PointXYZ_ T)
}.

Abbreviation PointXYZ := (PointXYZ_ flt).
Abbreviation Normal := (Normal_ flt).
Abbreviation PointNormal := (PointNormal_ flt).
Abbreviation Matrix3d := (Matrix3d_ dbl).
Abbreviation Pose := (Pose_ dbl).
Abbreviation PointCloud := (PointCloud_ flt).

Section Geometry.
Context {A : Arith}.

Definition getArray3fMap (p : PointXYZ) : Vec3 flt := mkVec3 (x p) (y p) (z p).

Definition sub3f (a b : Vec3 flt) : Vec3 flt :=
  mkVec3 (fsub (vx a) (vx b)) (fsub (vy a) (vy b)) (fsub (vz a) (vz b)).

Definition cast3 (v : Vec3 flt) : Vec3 dbl :=
  mkVec3 (cast (vx v)) (cast (vy v)) (cast (vz v)).

(** [squaredNorm()] and [norm()]: Eigen's unrolled reduction of a fixed-size
    vector of three coefficients adds [c0 + (c1 + c2)]. *)
Definition squaredNorm3f (v : Vec3 flt) : flt :=
  fadd (fmul (vx v) (vx v)) (fadd (fmul (vy v) (vy v)) (fmul (vz v) (vz v))).
Definition norm3f (v : Vec3 flt) : flt := fsqrt (squaredNorm3f v).

Definition squaredNorm3d (v : Vec3 dbl) : dbl :=
  dadd (dmul (vx v) (vx v)) (dadd (dmul (vy v) (vy v)) (dmul (vz v) (vz v))).
Definition norm3d (v : Vec3 dbl) : dbl := dsqrt (squaredNorm3d v).

(** [normalized()] (Eigen 3.3): divides by the norm when the squared norm is
    positive and returns the vector unchanged otherwise. *)
Definition normalized3f (v : Vec3 flt) : Vec3 flt :=
  let n2 := squaredNorm3f v in
  if fltb (f_of_int 0) n2
  then mkVec3 (fdiv (vx v) (fsqrt n2)) (fdiv (vy v) (fsqrt n2)) (fdiv (vz v) (fsqrt n2))
  else v.

Definition normalized3d (v : Vec3 dbl) : Vec3 dbl :=
  let n2 := squaredNorm3d v in
  if dltb (d_of_int 0) n2
  then mkVec3 (ddiv (vx v) (dsqrt n2)) (ddiv (vy v) (dsqrt n2)) (ddiv (vz v) (dsqrt n2))
  else v.

Definition scale3d (s : dbl) (v : Vec3 dbl) : Vec3 dbl :=
  mkVec3 (dmul s (vx v)) (dmul s (vy v)) (dmul s (vz v)).

(** [a.cross(b)] *)
Definition cross3d (a b : Vec3 dbl) : Vec3 dbl :=
  mkVec3 (dsub (dmul (vy a) (vz b)) (dmul (vz a) (vy b)))
         (dsub (dmul (vz a) (vx b)) (dmul (vx a) (vz b)))
         (dsub (dmul (vx a) (vy b)) (dmul (vy a) (vx b))).

(** The idiom [(a.getArray3fMap() - b.getArray3fMap()).cast<double>()] followed
    by [.norm()]. *)
Definition diff_norm (a b : PointXYZ) : dbl :=
  norm3d (cast3 (sub3f (getArray3fMap a) (getArray3fMap b))).

(** [MIN_POINT_DIST = 1e-8] *)
Definition MIN_POINT_DIST : dbl := ddiv (d_of_int 1) (d_of_int 100000000).

(** [toRotationMatrix]: the three vectors become the columns; the matrix is
    kept as its three rows. *)
Definition toRotationMatrix (v_x v_y v_z : Vec3 dbl) : Matrix3d :=
  mkMatrix3d (mkVec3 (vx v_x) (vx v_y) (vx v_z))
             (mkVec3 (vy v_x) (vy v_y) (vy v_z))
             (mkVec3 (vz v_x) (vz v_y) (vz v_z)).

Definition col (m : Matrix3d) (j : nat) : Vec3 dbl :=
  match j with
  | 0 => mkVec3 (vx (row0 m)) (vx (row1 m)) (vx (row2 m))
  | 1 => mkVec3 (vy (row0 m)) (vy (row1 m)) (vy (row2 m))
  | _ => mkVec3 (vz (row0 m)) (vz (row1 m)) (vz (row2 m))
  end.

End Geometry.

(** ** Nearest-neighbour search (PCL's [KdTreeFLANN])

    [nearestKSearch epsilon cloud indices p] is the call
    [nearestKSearch(p, 1, k_indices, k_sqr_distances)] on a tree built with
    [setEpsilon(epsilon)] and [setInputCloud(cloud, indices)]: [None] when no
    point was found, otherwise the index into [cloud] of the point found and
    its squared distance to [p]. *)
Class KdTree {A : Arith} : Type := {
  nearestKSearch : dbl -> list PointXYZ -> list nat -> PointXYZ -> option (nat * flt)
}.

(** The outcome of running a loop with a bound on the number of unfoldings. *)
Inductive Run (T : Type) : Type :=
| Finished (t : T)
| Undefined
| OutOfFuel.
Arguments Finished {T} t.
Arguments Undefined {T}.
Arguments OutOfFuel {T}.

Inductive Flow (T : Type) : Type :=
| Continue (t : T)
| Break (t : T).
Arguments Continue {T} t.
Arguments Break {T} t.

(** ** [RegionDetector::sequence] *)

(** The variables of the loop. *)
Record SeqState_ (T : Type) : Type := mkSeqState {
  iter_count : nat;
  unsequenced_indices : list nat;
  sequenced_indices : list nat;
  sequenced_points : list (PointXYZ_ T);
  search_point_idx : nat;
  search_point : PointXYZ_ T
}.
Abbreviation SeqState := (SeqState_ flt).

Section Sequence.
Context {A : Arith} {K : KdTree}.

(** [v.erase(std::remove(v.begin(), v.end(), value))], with the one-argument
    [erase]: [std::remove] moves the elements different from [value] to the
    front and returns the new logical end; the elements from there on keep
    their old values (libstdc++); [erase] then deletes the single element at
    that position.  When [value] does not occur the position is [end()] and
    the call is undefined. *)
Definition erase_remove (value : nat) (v : list nat) : option (list nat) :=
  let kept := filter (fun i => negb (Nat.eqb i value)) v in
  if Nat.eqb (length kept) (length v) then None
  else Some (kept ++ skipn (S (length kept)) v).

(** The state before the loop; [cloud[0]] is read. *)
Definition sequence_init (cloud : list PointXYZ) : option SeqState :=
  p <- nth_error cloud 0 ;;
  Some (mkSeqState 0 (seq 0 (length cloud)) [] [] 0 p).

(** One execution of the body of [while (iter_count <= max_iters)]. *)
Definition sequence_body (epsilon : dbl) (cloud : list PointXYZ) (st : SeqState)
  : option (Flow SeqState) :=
  let iter := S (iter_count st) in
  (* remove from active *)
  unseq <- erase_remove (search_point_idx st) (unsequenced_indices st) ;;
  match unseq with
  | [] =>
      Some (Break (mkSeqState iter unseq (sequenced_indices st) (sequenced_points st)
                              (search_point_idx st) (search_point st)))
  | _ :: _ =>
      (* find next point *)
      match nearestKSearch epsilon cloud unseq (search_point st) with
      | None =>
          Some (Break (mkSeqState iter unseq (sequenced_indices st) (sequenced_points st)
                                  (search_point_idx st) (search_point st)))
      | Some (k_index, k_sqr_distance) =>
          (* saving search point *)
          let '(s_idx, s_pts) :=
            match sequenced_indices st with
            | [] => ([search_point_idx st], [search_point st])
            | _ :: _ => (sequenced_indices st, sequenced_points st)
            end in
          (* insert new point if it has not been visited *)
          if existsb (Nat.eqb k_index) s_idx
          then Some (Continue (mkSeqState iter unseq s_idx s_pts
                                          (search_point_idx st) (search_point st)))
          else
            (* check if found point is further away than the start point *)
            closest_point <- nth_error cloud k_index ;;
            start_idx <- nth_error s_idx 0 ;;
            start_point <- nth_error cloud start_idx ;;
            let '(s_idx', s_pts') :=
              if dltb (diff_norm start_point closest_point) (cast (fsqrt k_sqr_distance))
              then (rev s_idx, rev s_pts)
              else (s_idx, s_pts) in
            Some (Continue (mkSeqState iter unseq (s_idx' ++ [k_index])
                                       (s_pts' ++ [closest_point]) k_index closest_point))
      end
  end.

(** The loop; the second component counts the executions of the body. *)
Fixpoint sequence_loop (fuel : nat) (epsilon : dbl) (cloud : list PointXYZ)
         (max_iters : nat) (st : SeqState) (iters : nat) : Run (SeqState * nat) :=
  if Nat.leb (iter_count st) max_iters then
    match fuel with
    | O => OutOfFuel
    | S fuel' =>
        match sequence_body epsilon cloud st with
        | None => Undefined
        | Some (Break st') => Finished (st', S iters)
        | Some (Continue st') => sequence_loop fuel' epsilon cloud max_iters st' (S iters)
        end
    end
  else Finished (st, iters).

Definition sequence_run (fuel : nat) (cloud : list PointXYZ) (epsilon : dbl)
  : Run (SeqState * nat) :=
  match sequence_init cloud with
  | None => Undefined
  | Some st => sequence_loop fuel epsilon cloud (length cloud) st 0
  end.

(** [sequence(points, epsilon)]; [max_iters + 1] unfoldings of the loop are
    enough (lemma [sequence_loop_fuel] below). *)
Definition sequence (cloud : list PointXYZ) (epsilon : dbl) : option (list PointXYZ) :=
  match sequence_run (S (length cloud)) cloud epsilon with
  | Finished (st, _) => Some (sequenced_points st)
  | _ => None
  end.

End Sequence.

(** A reference search for concrete runs: the exact nearest neighbour by a
    linear scan of [indices] in their order, the first one winning a tie;
    squared distances are computed in [float]; indices whose point has a
    non-finite distance never win against a found one. *)
Section LinearScan.
Context {A : Arith}.

Definition sqr_dist (p q : PointXYZ) : flt :=
  squaredNorm3f (sub3f (getArray3fMap p) (getArray3fMap q)).

Fixpoint scan_nearest (cloud : list PointXYZ) (indices : list nat) (p : PointXYZ)
         (best : option (nat * flt)) : option (nat * flt) :=
  match indices with
  | [] => best
  | i :: rest =>
      match nth_error cloud i with
      | None => scan_nearest cloud rest p best
      | Some q =>
          let d := sqr_dist p q in
          match best with
          | None => scan_nearest cloud rest p (Some (i, d))
          | Some (_, bd) =>
              if fltb d bd then scan_nearest cloud rest p (Some (i, d))
              else scan_nearest cloud rest p best
          end
      end
  end.

Definition LinearScan : KdTree :=
  {| nearestKSearch := fun _ cloud indices p => scan_nearest cloud indices p None |}.

End LinearScan.

(** ** [RegionDetector::split], [findClosedCurves], [simplifyByMinimunLength] *)

Section Curves.
Context {A : Arith}.

Definition Curve : Type := list PointXYZ.

(** The inner loop of [split] that saves a segment: a point closer than
    [MIN_POINT_DIST] to the last point kept ([segment_points->back()]) is not
    added. *)
Fixpoint drop_close (p_prev : PointXYZ) (l : list PointXYZ) : list PointXYZ :=
  match l with
  | [] => []
  | p_current :: rest =>
      if dltb (diff_norm p_current p_prev) MIN_POINT_DIST
      then drop_close p_prev rest
      else p_current :: drop_close p_current rest
  end.

Definition save_segment (l : list PointXYZ) : list PointXYZ :=
  match l with
  | [] => []
  | p :: rest => p :: drop_close p rest
  end.

(** The points [start_idx .. end_idx] of the sequenced cloud. *)
Definition range (l : list PointXYZ) (start_idx end_idx : nat) : list PointXYZ :=
  firstn (S end_idx - start_idx) (skipn start_idx l).

(** One iteration of [for (i = 0; i < sequenced_points.size(); i++)]; the
    state is [start_idx] and the segments pushed so far. *)
Definition split_step (sequenced_points : list PointXYZ) (split_dist : dbl)
           (st : nat * list Curve) (i : nat) : nat * list Curve :=
  let '(start_idx, vec) := st in
  let end_idx := i in
  let near_next :=
    match nth_error sequenced_points i, nth_error sequenced_points (S i) with
    | Some p_current, Some p_next => dltb (diff_norm p_next p_current) split_dist
    | _, _ => false
    end in
  if near_next then (start_idx, vec)
  else if Nat.eqb end_idx start_idx then (S i, vec)      (* single point, discard *)
  else
    let segment_points := save_segment (range sequenced_points start_idx end_idx) in
    if Nat.leb (length segment_points) 1 then (start_idx, vec)
    else (S i, vec ++ [segment_points]).

Definition split (sequenced_points : list PointXYZ) (split_dist : dbl) : list Curve :=
  snd (fold_left (split_step sequenced_points split_dist)
                 (seq 0 (length sequenced_points)) (0, [])).

(** [findClosedCurves]: the closed and the open curves that are pushed. *)
Fixpoint findClosedCurves (sequenced_curves_vec : list Curve) (max_dist : dbl)
  : option (list Curve * list Curve) :=
  match sequenced_curves_vec with
  | [] => Some ([], [])
  | curve_points :: rest =>
      f <- front curve_points ;;
      b <- back curve_points ;;
      '(closed, open) <- findClosedCurves rest max_dist ;;
      if dltb (diff_norm f b) max_dist
      then Some ((curve_points ++ [f]) :: closed, open)
      else Some (closed, curve_points :: open)
  end.

(** [simplifyByMinimunLength]: the loop over the interior points
    [1 .. size-2]; [p0] is [simplified_segment->back()]. *)
Fixpoint simplify_walk (min_length : dbl) (p0 : PointXYZ) (interior : list PointXYZ)
  : list PointXYZ :=
  match interior with
  | [] => []
  | p1 :: rest =>
      if dltb min_length (cast (norm3f (sub3f (getArray3fMap p0) (getArray3fMap p1))))
      then p1 :: simplify_walk min_length p1 rest
      else simplify_walk min_length p0 rest
  end.

Definition simplify_segment (min_length : dbl) (segment : Curve) : option Curve :=
  f <- front segment ;;
  b <- back segment ;;
  Some (f :: simplify_walk min_length f (removelast (tl segment)) ++ [b]).

Fixpoint simplifyByMinimunLength (segments : list Curve) (min_length : dbl)
  : option (list Curve) :=
  match segments with
  | [] => Some []
  | segment :: rest =>
      s <- simplify_segment min_length segment ;;
      r <- simplifyByMinimunLength rest min_length ;;
      Some (s :: r)
  end.

(** ** [RegionDetector::mergeCurves] *)

(** [std::min_element]: position of the first smallest element. *)
Fixpoint min_element_from (best_pos : nat) (best : dbl) (pos : nat) (l : list dbl)
  : nat * dbl :=
  match l with
  | [] => (best_pos, best)
  | d :: rest =>
      if dltb d best then min_element_from pos d (S pos) rest
      else min_element_from best_pos best (S pos) rest
  end.

Definition end_points_distances (f1 b1 f2 b2 : PointXYZ) : list dbl :=
  [diff_norm f1 f2; diff_norm f1 b2; diff_norm b1 f2; diff_norm b1 b2].

(** The result is [None] when an end point of an empty curve is read,
    [Some None] when the function returns [false] and [Some (Some merged)]
    when it returns [true]. *)
Definition mergeCurves (max_merge_dist : dbl) (c1 c2 : Curve) : option (option Curve) :=
  f1 <- front c1 ;;
  f2 <- front c2 ;;
  b1 <- back c1 ;;
  b2 <- back c2 ;;
  let '(merge_method, min_dist) :=
    min_element_from 0 (diff_norm f1 f2) 1
                     [diff_norm f1 b2; diff_norm b1 f2; diff_norm b1 b2] in
  if dltb max_merge_dist min_dist
  then Some None                                  (* curves are too far, not merging *)
  else
    Some (Some (match merge_method with
                | 0 => rev c2 ++ c1                (* front2 to front1 *)
                | 1 => c2 ++ c1                    (* back2 to front1 *)
                | 2 => c1 ++ c2                    (* back1 to front2 *)
                | _ => c1 ++ rev c2                (* back1 to back2 *)
                end)).

End Curves.

(** ** Configuration and results

    The header that declares the configuration is not part of the sources at
    hand; the records list the fields that [region_detector.cpp] reads.
    [min_num_points] is compared with a [size_t] and is kept as a natural
    number. *)


Record Result : Type := mkResult { succeeded : bool; msg : String.string }.

Record DilationCfg : Type := mkDilationCfg {
  dil_enable : bool; kernel_size : Z; elem : Z }.
Record ThresholdCfg : Type := mkThresholdCfg {
  thr_enable : bool; thr_value : Z; thr_type : Z; MAX_BINARY_VALUE : Z }.
Record CannyCfg : Type := mkCannyCfg {
  canny_enable : bool; lower_threshold : Z; upper_threshold : Z; aperture_size : Z }.
Record ContourCfg : Type := mkContourCfg { mode : Z; method : Z }.
Record OpenCVCfg : Type := mkOpenCVCfg {
  invert_image : bool;
  dilation : DilationCfg;
  threshold : ThresholdCfg;
  canny : CannyCfg;
  contour : ContourCfg }.

Record PCL2DCfg_ (T : Type) : Type := mkPCL2DCfg {
  downsampling_radius : T;
  split_dist : T;
  closed_curve_max_dist_2d : T;
  simplification_min_points : Z;
  simplification_alpha : T }.

Record StatRemovalCfg_ (T : Type) : Type := mkStatRemovalCfg {
  sr_enable : bool; kmeans : Z; stddev : T }.
Record NormalEstimationCfg_ (T : Type) : Type := mkNormalEstimationCfg {
  ne_downsampling_radius : T;
  search_radius : T;
  viewpoint_xyz : Vec3 T;
  kdtree_epsilon : T }.
Record PCLCfg_ (T : Type) : Type := mkPCLCfg {
  max_merge_dist : T;
  closed_curve_max_dist : T;
  simplification_min_dist : T;
  min_num_points : nat;
  stat_removal : StatRemovalCfg_ T;
  normal_est : NormalEstimationCfg_ T }.

Record RegionDetectionConfig_ (T : Type) : Type := mkRegionDetectionConfig {
  opencv_cfg : OpenCVCfg;
  pcl_2d_cfg : PCL2DCfg_ T;
  pcl_cfg : PCLCfg_ T }.

Abbreviation PCL2DCfg := (PCL2DCfg_ dbl).
Abbreviation PCLCfg := (PCLCfg_ dbl).
Abbreviation RegionDetectionConfig := (RegionDetectionConfig_ dbl).

(** ** [RegionDetector::combineIntoClosedRegions] *)

Section Combine.
Context {A : Arith}.
Variable cfg : RegionDetectionConfig.

(** [std::find(merged_curves_indices.begin(), merged_curves_indices.end(), i) != end()] *)
Definition is_merged (i : nat) (merged_curves_indices : list nat) : bool :=
  existsb (Nat.eqb i) merged_curves_indices.

(** [std::sort] followed by [std::unique] and [resize] on a vector of indices. *)
Fixpoint insert_unique (n : nat) (l : list nat) : list nat :=
  match l with
  | [] => [n]
  | m :: rest =>
      if Nat.ltb n m then n :: l
      else if Nat.eqb n m then l
      else m :: insert_unique n rest
  end.

Definition sort_unique (l : list nat) : list nat := fold_right insert_unique [] l.

(** The loop [for (int idx : merge_candidate_indices)]; the state is the
    curve being grown, the merged indices and the flag [merged_curves]. *)
Fixpoint merge_pass (contours : list Curve) (i : nat) (candidates : list nat)
         (st : Curve * list nat * bool) : option (Curve * list nat * bool) :=
  match candidates with
  | [] => Some st
  | idx :: rest =>
      let '(curve_points, merged, flag) := st in
      if is_merged idx merged then merge_pass contours i rest st
      else
        next_curve_points <- nth_error contours idx ;;
        r <- mergeCurves (max_merge_dist (pcl_cfg cfg)) curve_points next_curve_points ;;
        let '(curve_points', merged', flag') :=
          match r with
          | Some merged_points => (merged_points, merged ++ [i; idx], true)
          | None => (curve_points, merged, flag)
          end in
        (* removing repeated *)
        merge_pass contours i rest (curve_points', sort_unique merged', flag')
  end.

(** [do { merged_curves = false; ... } while (merged_curves);] *)
Fixpoint merge_loop (fuel : nat) (contours : list Curve) (i : nat) (candidates : list nat)
         (curve_points : Curve) (merged : list nat) : Run (Curve * list nat) :=
  match fuel with
  | O => OutOfFuel
  | S fuel' =>
      match merge_pass contours i candidates (curve_points, merged, false) with
      | None => Undefined
      | Some (curve_points', merged', true) =>
          merge_loop fuel' contours i candidates curve_points' merged'
      | Some (curve_points', merged', false) => Finished (curve_points', merged')
      end
  end.

(** [merge_candidate_indices]: [iota] from 0 with position [i] erased. *)
Definition merge_candidates (n i : nat) : list nat := seq 0 i ++ seq (S i) (n - S i).

(** The body of the loop over [i]; the state is the merged indices, the
    closed and the open curves. *)
Definition combine_step (contours : list Curve)
           (st : list nat * list Curve * list Curve) (i : nat)
  : option (list nat * list Curve * list Curve) :=
  let '(merged, closed_curves, open_curves) := st in
  if is_merged i merged then Some st                    (* already merged *)
  else
    curve_points <- nth_error contours i ;;
    match merge_loop (S (length contours)) contours i
                     (merge_candidates (length contours) i) curve_points merged with
    | Finished (curve_points', merged') =>
        (* check if closed *)
        f <- front curve_points' ;;
        b <- back curve_points' ;;
        if dltb (diff_norm f b) (closed_curve_max_dist (pcl_cfg cfg))
        then Some (merged' ++ [i], closed_curves ++ [curve_points' ++ [f]], open_curves)
        else Some (merged' ++ [i], closed_curves, open_curves ++ [curve_points'])
    | _ => None
    end.

Fixpoint combine_loop (contours : list Curve) (todo : list nat)
         (st : list nat * list Curve * list Curve)
  : option (list nat * list Curve * list Curve) :=
  match todo with
  | [] => Some st
  | i :: rest =>
      st' <- combine_step contours st i ;;
      combine_loop contours rest st'
  end.

(** The last loop: copying open curves that were not merged. *)
Definition unmerged_curves (contours : list Curve) (merged : list nat) : list Curve :=
  flat_map (fun i => if is_merged i merged then []
                     else match nth_error contours i with
                          | Some c => [c]
                          | None => []
                          end)
           (seq 0 (length contours)).

(** The curves appended to [closed_curves] and [open_curves], and the result. *)
Definition combineIntoClosedRegions (contours_points : list Curve)
  : option (Result * list Curve * list Curve) :=
  '(merged, closed_curves, open_curves) <-
     combine_loop contours_points (seq 0 (length contours_points)) ([], [], []) ;;
  let open_curves' := open_curves ++ unmerged_curves contours_points merged in
  match closed_curves with
  | [] => Some (mkResult false "Found no closed curves"%string, closed_curves, open_curves')
  | _ :: _ => Some (mkResult true String.EmptyString, closed_curves, open_curves')
  end.

End Combine.

(** ** Library calls

    OpenCV's image operations and PCL's filters are not part of the sources;
    they are fields of an interface.  [Image] is [cv::Mat], [CloudBlob] is
    [pcl::PCLPointCloud2] and [Transform] is the [Eigen] transform of a data
    bundle. *)

Class OpenCV : Type := {
  Image : Type;
  cvtColor_RGB2GRAY : Image -> Image;
  invert : Image -> Image;                               (* Scalar(255) - image *)
  dilate : Z -> Z -> Image -> Image;                     (* element type, kernel size *)
  cv_threshold : Z -> Z -> Z -> Image -> Image;          (* value, max value, type *)
  Canny : Z -> Z -> Z -> Image -> Image;                 (* lower, upper, aperture *)
  findContours : Z -> Z -> Image -> list (list CvPoint); (* mode, method *)
  drawContours : Image -> list (list CvPoint) -> Image
}.

Class PCL {A : Arith} : Type := {
  CloudBlob : Type;
  Transform : Type;
  fromPCLPointCloud2 : CloudBlob -> PointCloud;
  transformPointCloud : Transform -> PointCloud -> PointCloud;
  (* VoxelGrid with a cubic leaf, as used by dowsampleCloud *)
  voxelGrid : dbl -> list PointXYZ -> list PointXYZ;
  (* ConcaveHull with setAlpha, as used by concaveHullSimplification *)
  concaveHull : dbl -> list PointXYZ -> list PointXYZ;
  removeNaNFromPointCloud : list PointXYZ -> list PointXYZ;
  (* StatisticalOutlierRemoval with setMeanK and setStddevMulThresh *)
  statisticalOutlierRemoval : Z -> dbl -> list PointXYZ -> list PointXYZ;
  (* NormalEstimation with setViewPoint and setRadiusSearch *)
  normalEstimation : Vec3 dbl -> dbl -> list PointXYZ -> list PointNormal;
  (* the default value of the parameter epsilon of sequence, set in the header *)
  sequence_default_epsilon : dbl
}.

(** ** [extractContoursFromCloud], [computeNormals], [computePoses] *)

Section Lift.
Context {A : Arith} {K : KdTree} {P : PCL}.
Variable cfg : RegionDetectionConfig.

Definition isOrganized (c : PointCloud) : bool := Z.gtb (height c) 1.

(** An [int] converted to [uint32_t] for a comparison with a dimension. *)
Definition to_uint32 (n : Z) : Z := Z.modulo n (2 ^ 32).

(** [input->at(column, row)] of an organized cloud, a checked access. *)
Definition cloud_at (c : PointCloud) (column row : Z) : option PointXYZ :=
  nth_error (points c) (Z.to_nat (to_uint32 (to_uint32 row * width c + to_uint32 column))).

(** The points of one contour: [inl] a failure message, [inr] the points. *)
Fixpoint extract_points (input : PointCloud) (indices : list CvPoint)
  : option (string + list PointXYZ) :=
  match indices with
  | [] => Some (inr [])
  | idx :: rest =>
      if Z.geb (to_uint32 (cv_x idx)) (width input)
         || Z.geb (to_uint32 (cv_y idx)) (height input)
      then Some (inl "2D indices exceed point cloud size"%string)
      else
        p <- cloud_at input (cv_x idx) (cv_y idx) ;;
        r <- extract_points input rest ;;
        match r with
        | inl e => Some (inl e)
        | inr ps => Some (inr (p :: ps))
        end
  end.

(** The loop over the contours: the message of the failure that ended the
    loop, if one did, and the contours pushed to [contours_points] until
    then.  The points gathered for the contour at which the loop returns are
    in [temp_contour_points] only and are lost. *)
Fixpoint extract_contours (input : PointCloud) (contour_indices : list (list CvPoint))
  : option (option string * list Curve) :=
  match contour_indices with
  | [] => Some (None, [])
  | indices :: rest =>
      match indices with
      | [] => Some (Some "Empty indices vector was passed"%string, [])
      | _ :: _ =>
          r <- extract_points input indices ;;
          match r with
          | inl e => Some (Some e, [])
          | inr ps =>
              '(e, cs) <- extract_contours input rest ;;
              Some (e, ps :: cs)
          end
      end
  end.

(** The result and the contours that the call pushes to [contours_points],
    which [compute] passes empty.  A failure inside the loop leaves the
    contours pushed before it in the vector. *)
Definition extractContoursFromCloud (contour_indices : list (list CvPoint))
           (input : PointCloud) : option (Result * list Curve) :=
  if negb (isOrganized input)
  then Some (mkResult false "Point Cloud not organized", [])
  else
    '(e, cs) <- extract_contours input contour_indices ;;
    match e with
    | Some err_msg => Some (mkResult false err_msg, cs)
    | None => Some (mkResult (negb (Nat.eqb (length cs) 0)) "", cs)
    end.

(** The inner loop of [computeNormals] over the points of one curve:
    [None] is an uncaught exception of [at], [Some None] the failure
    "Found no points near curve". *)
Fixpoint curve_point_normals (epsilon : dbl) (source_cloud_downsampled : list PointXYZ)
         (source_cloud_normals : list PointNormal) (curve : Curve)
  : option (option (list PointNormal)) :=
  match curve with
  | [] => Some (Some [])
  | search_p :: rest =>
      match nearestKSearch epsilon source_cloud_downsampled
                           (seq 0 (length source_cloud_downsampled)) search_p with
      | None => Some None
      | Some (nearest_index, _) =>
          src <- nth_error source_cloud_normals nearest_index ;;
          r <- curve_point_normals epsilon source_cloud_downsampled source_cloud_normals rest ;;
          match r with
          | None => Some None
          | Some pns => Some (Some (mkPointNormal search_p (pn_normal src) :: pns))
          end
      end
  end.

(** The loop over the curves: whether every search found a point, and the
    curves pushed to [curves_normals].  When a search finds nothing the
    function returns at once; the normals of the curves completed before stay
    in the vector, those gathered for the curve at hand are lost. *)
Fixpoint curves_point_normals (epsilon : dbl) (source_cloud_downsampled : list PointXYZ)
         (source_cloud_normals : list PointNormal) (curves_points : list Curve)
  : option (bool * list (list PointNormal)) :=
  match curves_points with
  | [] => Some (true, [])
  | curve :: rest =>
      r <- curve_point_normals epsilon source_cloud_downsampled source_cloud_normals curve ;;
      match r with
      | None => Some (false, [])
      | Some pns =>
          '(found, all) <-
             curves_point_normals epsilon source_cloud_downsampled source_cloud_normals rest ;;
          Some (found, pns :: all)
      end
  end.

(** The result and the curves that the call pushes to [curves_normals], which
    [compute] passes empty. *)
Definition computeNormals (source_cloud : PointCloud) (curves_points : list Curve)
  : option (Result * list (list PointNormal)) :=
  let ne := normal_est (pcl_cfg cfg) in
  (* downsample first *)
  let source_cloud_downsampled := voxelGrid (ne_downsampling_radius ne) (points source_cloud) in
  (* first compute normals *)
  let source_cloud_normals :=
    normalEstimation (viewpoint_xyz ne) (search_radius ne) source_cloud_downsampled in
  '(found, curves_normals) <-
     curves_point_normals (kdtree_epsilon ne) source_cloud_downsampled
                          source_cloud_normals curves_points ;;
  if found
  then Some (mkResult true "", curves_normals)
  else Some (mkResult false "Found no points near curve, can not get normal vector",
             curves_normals).

(** The normals looked up for the points of one curve in [computePoses]. *)
Fixpoint lookup_normals (epsilon : dbl) (source_normal_cloud : list PointNormal)
         (curve : Curve) : option (option (list Normal)) :=
  match curve with
  | [] => Some (Some [])
  | search_p :: rest =>
      let source_points := map (fun pn => pn_point pn) source_normal_cloud in
      match nearestKSearch epsilon source_points (seq 0 (length source_points)) search_p with
      | None => Some None
      | Some (nearest_index, _) =>
          src <- nth_error source_normal_cloud nearest_index ;;
          r <- lookup_normals epsilon source_normal_cloud rest ;;
          match r with
          | None => Some None
          | Some ns => Some (Some (pn_normal src :: ns))
          end
      end
  end.

Definition normal_vector (n : Normal) : Vec3 dbl :=
  mkVec3 (cast (normal_x n)) (cast (normal_y n)) (cast (normal_z n)).

(** The orientation vectors of the pose loop, from the points [p1], [p2], the
    normal at [p1] and the scalar [dir]. *)
Definition pose_frame (dir : dbl) (p1 p2 : PointXYZ) (n1 : Normal) : Matrix3d :=
  let x_dir :=
    scale3d dir (cast3 (normalized3f (sub3f (getArray3fMap p2) (getArray3fMap p1)))) in
  let z_dir := normalized3d (normal_vector n1) in
  let y_dir := normalized3d (cross3d z_dir x_dir) in
  let z_dir := normalized3d (cross3d x_dir y_dir) in
  toRotationMatrix x_dir y_dir z_dir.

(** The body of [for (i = 0; i < curve->size(); i++)].  For the last point
    [idx_next = i - 1] and [dir = -1.0]; on a curve of one point [i - 1] wraps
    around and the checked access [at] throws. *)
Definition pose_at (curve : Curve) (curve_normals : list Normal) (i : nat) : option Pose :=
  let last := Nat.leb (length curve) (S i) in
  idx_next <- (if last then (if Nat.eqb i 0 then None else Some (i - 1)) else Some (S i)) ;;
  let dir := if last then d_of_int (-1) else d_of_int 1 in
  p1 <- nth_error curve i ;;
  n1 <- nth_error curve_normals i ;;
  p2 <- nth_error curve idx_next ;;
  _ <- nth_error curve_normals idx_next ;;
  Some (mkPose (cast3 (getArray3fMap p1)) (pose_frame dir p1 p2 n1)).

Fixpoint pose_loop (curve : Curve) (curve_normals : list Normal) (indices : list nat)
  : option (list Pose) :=
  match indices with
  | [] => Some []
  | i :: rest =>
      p <- pose_at curve curve_normals i ;;
      ps <- pose_loop curve curve_normals rest ;;
      Some (p :: ps)
  end.

Definition curve_poses (curve : Curve) (curve_normals : list Normal) : option (list Pose) :=
  pose_loop curve curve_normals (seq 0 (length curve)).

(** [computePoses]: the result and the vector [curves_poses] after the call;
    when a search finds nothing the function returns at once and the poses of
    the curves before stay in the vector. *)
Fixpoint computePoses (source_normal_cloud : list PointNormal) (curves_points : list Curve)
         (curves_poses : list (list Pose)) : option (Result * list (list Pose)) :=
  match curves_points with
  | [] => Some (mkResult true "", curves_poses)
  | curve :: rest =>
      r <- lookup_normals (kdtree_epsilon (normal_est (pcl_cfg cfg))) source_normal_cloud curve ;;
      match r with
      | None =>
          Some (mkResult false "Kdtree found no nearby points during pose computation",
                curves_poses)
      | Some curve_normals =>
          ps <- curve_poses curve curve_normals ;;
          computePoses source_normal_cloud rest (curves_poses ++ [ps])
      end
  end.

End Lift.

(** ** [RegionDetector::compute2dContours] and [RegionDetector::compute] *)

(** [RegionDetector::RegionResults] *)
Record RegionResults_ (T I : Type) : Type := mkRegionResults {
  closed_regions_poses : list (list (Pose_ T));
  open_regions_poses : list (list (Pose_ T));
  images : list I
}.

(** [DataBundle] *)
Record DataBundle_ (I B X : Type) : Type := mkDataBundle {
  image : I;
  cloud_blob : B;
  transform : X
}.

(** The curves and normals gathered over the bundles. *)
Record Gathered_ (T : Type) : Type := mkGathered {
  closed_contours_points : list (list (PointXYZ_ T));
  open_contours_points : list (list (PointXYZ_ T));
  normals : list (PointNormal_ T)
}.

Abbreviation RegionResults := (RegionResults_ dbl Image).
Abbreviation DataBundle := (DataBundle_ Image CloudBlob Transform).
Abbreviation Gathered := (Gathered_ flt).

Section Compute.
Context {A : Arith} {K : KdTree} {P : PCL} {O : OpenCV}.
Variable cfg : RegionDetectionConfig.

(** [DILATION_TYPES.count(elem)] of the map with the keys 0, 1 and 2. *)
Definition DILATION_TYPES_count (elem : Z) : nat :=
  if Z.eqb elem 0 || Z.eqb elem 1 || Z.eqb elem 2 then 1 else 0.

(** The result, the contours found and the image left in [output]. *)
Definition compute2dContours (input : Image) : Result * list (list CvPoint) * Image :=
  let config := opencv_cfg cfg in
  let output := cvtColor_RGB2GRAY input in
  let output := if invert_image config then invert output else output in
  if dil_enable (dilation config) && Z.leb (kernel_size (dilation config)) 0
  then (mkResult false "invalid dilation size", [], output)
  else if dil_enable (dilation config)
          && Nat.eqb (DILATION_TYPES_count (elem (dilation config))) 0
  then (mkResult false "invalid dilation element", [], output)
  else
    let output :=
      if dil_enable (dilation config)
      then dilate (elem (dilation config)) (kernel_size (dilation config)) output
      else output in
    let output :=
      if thr_enable (threshold config)
      then cv_threshold (thr_value (threshold config)) (MAX_BINARY_VALUE (threshold config))
                        (thr_type (threshold config)) output
      else output in
    let output :=
      if canny_enable (canny config)
      then
        let aperture := (2 * aperture_size (canny config) + 1)%Z in
        let aperture := if Z.ltb aperture 3 then 3%Z else aperture in
        Canny (lower_threshold (canny config)) (upper_threshold (canny config)) aperture output
      else output in
    let contours_indices :=
      findContours (mode (contour config)) (method (contour config)) output in
    (mkResult true "", contours_indices, drawContours output contours_indices).

Definition add_image (regions : RegionResults) (im : Image) : RegionResults :=
  mkRegionResults (closed_regions_poses regions) (open_regions_poses regions)
                  (images regions ++ [im]).

Fixpoint mapM {X Y : Type} (f : X -> option Y) (l : list X) : option (list Y) :=
  match l with
  | [] => Some []
  | a :: rest =>
      b <- f a ;;
      bs <- mapM f rest ;;
      Some (b :: bs)
  end.

Definition convert2DContourToCloud (contour_2d : list CvPoint) : list PointXYZ :=
  map (fun p_2d => mkPointXYZ (f_of_int (cv_x p_2d)) (f_of_int (cv_y p_2d)) (f_of_int 0))
      contour_2d.

Definition convertCloudTo2DContour (contour_3d : list PointXYZ) : option (list CvPoint) :=
  mapM (fun p_3d =>
          px <- f_to_int (x p_3d) ;;
          py <- f_to_int (y p_3d) ;;
          Some (mkCvPoint px py))
       contour_3d.

(** The loop "simplification of closed curves" for one closed curve. *)
Definition simplify_closed (pcl2d_cfg : PCL2DCfg) (curve : Curve) : option Curve :=
  let pre_simplified_size := Z.of_nat (length curve) in
  if Z.ltb pre_simplified_size (simplification_min_points pcl2d_cfg) then Some curve
  else
    let hull := concaveHull (simplification_alpha pcl2d_cfg) curve in
    sequenced <- sequence hull sequence_default_epsilon ;;
    f <- front sequenced ;;
    Some (sequenced ++ [f]).

(** The cleaning of one extracted contour. *)
Definition clean_contour (c : Curve) : Curve :=
  let c := removeNaNFromPointCloud c in
  if sr_enable (stat_removal (pcl_cfg cfg))
  then statisticalOutlierRemoval (kmeans (stat_removal (pcl_cfg cfg)))
                                 (stddev (stat_removal (pcl_cfg cfg))) c
  else c.

(** The body of [for (const DataBundle& data : input)], after the image has
    been processed: [inl tt] is [return false], [inr g] the next iteration. *)
Definition bundle_curves (data : DataBundle) (contours_indices : list (list CvPoint))
           (g : Gathered) : option (unit + Gathered) :=
  (* interpolating to fill gaps *)
  contours_indices <- mapM interpolate_contour contours_indices ;;
  (* converting to cloud type for further analysis *)
  let clouds := map convert2DContourToCloud contours_indices in
  (* downsampling *)
  let pcl2d_cfg := pcl_2d_cfg cfg in
  let clouds :=
    if dltb (d_of_int 0) (downsampling_radius pcl2d_cfg)
    then map (voxelGrid (downsampling_radius pcl2d_cfg)) clouds
    else clouds in
  (* sequence *)
  clouds <- mapM (fun c => sequence c sequence_default_epsilon) clouds ;;
  (* split *)
  let contours_indices_cloud_vec :=
    flat_map (fun c => split c (split_dist pcl2d_cfg)) clouds in
  (* find closed curves *)
  '(closed_indices_curves_vec, open_indices_curves_vec) <-
     findClosedCurves contours_indices_cloud_vec (closed_curve_max_dist_2d pcl2d_cfg) ;;
  (* simplification of closed curves *)
  closed_indices_curves_vec <- mapM (simplify_closed pcl2d_cfg) closed_indices_curves_vec ;;
  (* combining closed and open back into single vec, converting to cv points *)
  contours_indices <-
    mapM convertCloudTo2DContour (closed_indices_curves_vec ++ open_indices_curves_vec) ;;
  (* transform cloud *)
  let input_cloud := transformPointCloud (transform data) (fromPCLPointCloud2 (cloud_blob data)) in
  (* extract contours 3d points from 2d pixel locations *)
  '(res, contours_points) <- extractContoursFromCloud contours_indices input_cloud ;;
  if negb (succeeded res) then Some (inl tt)
  else
    (* cleaning data *)
    let contours_points := map clean_contour contours_points in
    '(res, contours_point_normals) <- computeNormals cfg input_cloud contours_points ;;
    if negb (succeeded res) then Some (inl tt)
    else
      (* adding found curves *)
      let n_closed := length closed_indices_curves_vec in
      let closed' :=
        match closed_indices_curves_vec with
        | [] => closed_contours_points g
        | _ :: _ => closed_contours_points g ++ firstn n_closed contours_points
        end in
      let open' :=
        match open_indices_curves_vec with
        | [] => open_contours_points g
        | _ :: _ => open_contours_points g ++ skipn n_closed contours_points
        end in
      (* adding point normals *)
      Some (inr (mkGathered closed' open' (normals g ++ concat contours_point_normals))).

(** The loop over the bundles: [inl regions] is [return false] from inside
    the loop. *)
Fixpoint bundles_loop (input : list DataBundle) (regions : RegionResults) (g : Gathered)
  : option (RegionResults + (RegionResults * Gathered)) :=
  match input with
  | [] => Some (inr (regions, g))
  | data :: rest =>
      let '(res, contours_indices, output) := compute2dContours (image data) in
      let regions := add_image regions output in
      if negb (succeeded res) then Some (inl regions)
      else
        r <- bundle_curves data contours_indices g ;;
        match r with
        | inl _ => Some (inl regions)
        | inr g' => bundles_loop rest regions g'
        end
  end.

(** The filter [erase(remove_if(... c->size() < min_num_points ...))]. *)
Definition enough_points (c : Curve) : bool :=
  negb (Nat.ltb (length c) (min_num_points (pcl_cfg cfg))).

(** The part of [compute] after the loop. *)
Definition assemble (regions : RegionResults) (g : Gathered) : option (bool * RegionResults) :=
  (* combining open curves to form closed ones *)
  '(_, closed_curves_points, open_curves_points) <-
     combineIntoClosedRegions cfg (open_contours_points g) ;;
  (* adding to existing vector of closed and open curves *)
  let closed := closed_contours_points g ++ closed_curves_points in
  let open := open_curves_points in
  (* simplifying by length *)
  closed <- simplifyByMinimunLength closed (simplification_min_dist (pcl_cfg cfg)) ;;
  open <- simplifyByMinimunLength open (simplification_min_dist (pcl_cfg cfg)) ;;
  (* filter out those with too few points *)
  let closed := filter enough_points closed in
  let open := filter enough_points open in
  '(_, open_poses) <- computePoses cfg (normals g) open (open_regions_poses regions) ;;
  '(_, closed_poses) <- computePoses cfg (normals g) closed (closed_regions_poses regions) ;;
  let regions := mkRegionResults closed_poses open_poses (images regions) in
  Some (negb (Nat.eqb (length (closed_regions_poses regions)) 0), regions).

(** [compute(input, regions)]: the value returned and [regions] after the call. *)
Definition compute (input : list DataBundle) (regions : RegionResults)
  : option (bool * RegionResults) :=
  r <- bundles_loop input regions (mkGathered [] [] []) ;;
  match r with
  | inl regions' => Some (false, regions')
  | inr (regions', g) => assemble regions' g
  end.

End Compute.

(** ** A concrete environment for runs

    Binary32/binary64 arithmetic, the linear-scan search, and library calls
    reduced to what a run on a small planar scene needs: an image is given by
    the contours that [findContours] reports for it, the cloud blob is the
    cloud itself, the transform is the identity, the voxel grid keeps every
    finite point, the hull keeps every point, and the estimated normal of every
    point is [normal_up].
    [removeNaNFromPointCloud] is a parameter of the environment. *)

Definition F (n : Z) : spec_float := b32_of_int n.
Definition D (n : Z) : spec_float := b64_of_int n.
(** The [double] value [n / d]. *)
Definition Dq (n d : Z) : spec_float := b64_div (b64_of_int n) (b64_of_int d).

Definition pt (a b c : Z) : PointXYZ_ spec_float := mkPointXYZ (F a) (F b) (F c).
Definition NaN_point : PointXYZ_ spec_float := mkPointXYZ S754_nan S754_nan S754_nan.

Definition is_finite (f : spec_float) : bool :=
  match f with
  | S754_zero _ | S754_finite _ _ _ => true
  | _ => false
  end.

(** Modelled from the spec: "Remove NaN points in place (compacting
    order-preservingly)", for PCL's [removeNaNFromPointCloud], which is not
    part of the sources. *)
Definition drop_non_finite (c : list (PointXYZ_ spec_float)) : list (PointXYZ_ spec_float) :=
  filter (fun p => is_finite (x p) && is_finite (y p) && is_finite (z p)) c.

Definition TestCV : OpenCV := {|
  Image := list (list CvPoint);
  cvtColor_RGB2GRAY := fun im => im;
  invert := fun im => im;
  dilate := fun _ _ im => im;
  cv_threshold := fun _ _ _ im => im;
  Canny := fun _ _ _ im => im;
  findContours := fun _ _ im => im;
  drawContours := fun im _ => im
|}.

Definition TestPCL (remove_nan : list (PointXYZ_ spec_float) -> list (PointXYZ_ spec_float))
           (normal_up : Normal_ spec_float) : @PCL IEEE :=
  @Build_PCL IEEE
    (PointCloud_ spec_float)                               (* CloudBlob *)
    unit                                                   (* Transform *)
    (fun c => c)                                           (* fromPCLPointCloud2 *)
    (fun _ c => c)                                         (* transformPointCloud *)
    (fun _ l => drop_non_finite l)                         (* voxelGrid *)
    (fun _ l => l)                                         (* concaveHull *)
    remove_nan                                             (* removeNaNFromPointCloud *)
    (fun _ _ l => l)                                       (* statisticalOutlierRemoval *)
    (fun _ _ l => map (fun p => mkPointNormal p normal_up) l)  (* normalEstimation *)
    (D 0).                                                 (* sequence_default_epsilon *)

Definition up : Normal_ spec_float := mkNormal (F 0) (F 0) (F 1).

(** Thresholds of the test configuration, as [double]s. *)
Definition test_cfg (split_d closed_2d merge_d closed_3d min_d : spec_float) (min_pts : nat)
  : RegionDetectionConfig_ spec_float :=
  mkRegionDetectionConfig
    (mkOpenCVCfg false (mkDilationCfg false 1 0) (mkThresholdCfg false 0 0 255)
                 (mkCannyCfg false 0 0 1) (mkContourCfg 0 0))
    (mkPCL2DCfg (D 0) split_d closed_2d 1000 (D 1))
    (mkPCLCfg merge_d closed_3d min_d min_pts
              (mkStatRemovalCfg false 0 (D 1))
              (mkNormalEstimationCfg (D 1) (D 1) (mkVec3 (D 0) (D 0) (D 1)) (D 0))).

(** [compute] in the test environment. *)
Definition test_compute remove_nan cfg input regions :=
  @compute IEEE LinearScan (TestPCL remove_nan up) TestCV cfg input regions.
Arguments test_compute remove_nan cfg input regions : clear implicits.

Definition test_bundle (contours : list (list CvPoint)) (cloud : PointCloud_ spec_float)
  : DataBundle_ (list (list CvPoint)) (PointCloud_ spec_float) unit :=
  mkDataBundle contours cloud tt.

(** The planar organized cloud of [w] by [h] points with [z = 0]. *)
Definition plane (w h : nat) : PointCloud_ spec_float :=
  mkPointCloud (Z.of_nat w) (Z.of_nat h)
    (flat_map (fun r => map (fun c => pt (Z.of_nat c) (Z.of_nat r) 0) (seq 0 w)) (seq 0 h)).

Definition px (a b : Z) : CvPoint := mkCvPoint a b.

Definition no_regions : RegionResults_ spec_float (list (list CvPoint)) :=
  mkRegionResults [] [] [].

(** ** Notions used in the statements *)

Section Notions.
Context {A : Arith}.

(** The smallest of the four end point distances of two curves, as
    [mergeCurves] determines it. *)
Definition min_end_point_distance (c1 c2 : Curve) : option dbl :=
  f1 <- front c1 ;;
  f2 <- front c2 ;;
  b1 <- back c1 ;;
  b2 <- back c2 ;;
  Some (snd (min_element_from 0 (diff_norm f1 f2) 1
                              [diff_norm f1 b2; diff_norm b1 f2; diff_norm b1 b2])).

(** A search is sound when the index found is one of the indices given, and
    complete when it finds a point among a non-empty set of valid indices. *)
Definition kd_sound (K : KdTree) : Prop :=
  forall epsilon cloud indices p i d,
    nearestKSearch epsilon cloud indices p = Some (i, d) -> In i indices.

Definition kd_complete (K : KdTree) : Prop :=
  forall epsilon cloud indices p,
    indices <> [] -> (forall i, In i indices -> i < length cloud) ->
    nearestKSearch epsilon cloud indices p <> None.

(** First and last vertex of a curve are the same point. *)
Definition first_is_last (c : Curve) : Prop :=
  exists p, front c = Some p /\ back c = Some p.

(** Every pair of consecutive vertices satisfies [R]. *)
Fixpoint consecutive (R : PointXYZ -> PointXYZ -> Prop) (c : Curve) : Prop :=
  match c with
  | a :: ((b :: _) as rest) => R a b /\ consecutive R rest
  | _ => True
  end.

(** [b] is not closer than [MIN_POINT_DIST] to [a]: the test
    [diff.norm() < MIN_POINT_DIST] on [b - a] fails. *)
Definition not_close (a b : PointXYZ) : Prop :=
  dltb (diff_norm b a) MIN_POINT_DIST = false.

(** [b] is more than [min_length] away from [a], as [simplifyByMinimunLength]
    tests it. *)
Definition farther_than (min_length : dbl) (a b : PointXYZ) : Prop :=
  dltb min_length (cast (norm3f (sub3f (getArray3fMap a) (getArray3fMap b)))) = true.

End Notions.

(** The states that the loop of [sequence] reaches at its head. *)
Inductive seq_reachable {A : Arith} {K : KdTree} (epsilon : dbl) (cloud : list PointXYZ)
  : SeqState -> Prop :=
| reach_init st : sequence_init cloud = Some st -> seq_reachable epsilon cloud st
| reach_step st st' :
    seq_reachable epsilon cloud st ->
    iter_count st <= length cloud ->
    sequence_body epsilon cloud st = Some (Continue st') ->
    seq_reachable epsilon cloud st'.

(** A merged curve is one of the four concatenations. *)
Definition concatenation_of {A : Arith} (c1 c2 m : Curve) : Prop :=
  m = rev c2 ++ c1 \/ m = c2 ++ c1 \/ m = c1 ++ c2 \/ m = c1 ++ rev c2.

(** Two open curves whose closest end points are at distance 1. *)
Definition left_curve : list (PointXYZ_ spec_float) := [pt 0 0 0; pt 1 0 0].
Definition right_curve : list (PointXYZ_ spec_float) := [pt 2 0 0; pt 3 0 0].

(** The invariant of the loop of [sequence] at its head, on a cloud of [n]
    points: the current index is still among the unsequenced ones, the
    sequenced indices without their last one and the unsequenced ones make up
    [0 .. n-1], the last sequenced index is the current one, the sequenced
    points are the points of the sequenced indices, and the counter plus the
    number of unsequenced indices is [n]. *)
Definition seq_inv {A : Arith} (cloud : list PointXYZ) (st : SeqState) : Prop :=
  In (search_point_idx st) (unsequenced_indices st)
  /\ Permutation (seq 0 (length cloud))
                 (removelast (sequenced_indices st) ++ unsequenced_indices st)
  /\ (sequenced_indices st = []
      \/ sequenced_indices st = removelast (sequenced_indices st) ++ [search_point_idx st])
  /\ Forall2 (fun i p => nth_error cloud i = Some p)
             (sequenced_indices st) (sequenced_points st)
  /\ nth_error cloud (search_point_idx st) = Some (search_point st)
  /\ iter_count st + length (unsequenced_indices st) = length cloud.

(** [u'] is [u] with exactly the index [i] dropped. *)
Definition drops_exactly (i : nat) (u u' : list nat) : Prop :=
  Permutation u (i :: u') /\ ~ In i u'.

Section OutputNotions.
Context {A : Arith} {K : KdTree} {P : PCL} {O : OpenCV}.

(** The position of a curve vertex as it appears in its pose. *)
Definition position (p : PointXYZ) : Vec3 dbl := cast3 (getArray3fMap p).

(** The positions of a sequence of poses. *)
Definition positions (poses : list Pose) : list (Vec3 dbl) :=
  map (fun p => translation p) poses.

(** First and last position of a pose sequence are the same. *)
Definition poses_first_is_last (poses : list Pose) : Prop :=
  exists t, front (positions poses) = Some t /\ back (positions poses) = Some t.

(** The image that [compute] adds to [regions.images] for a bundle. *)
Definition diagnostic_image (cfg : RegionDetectionConfig) (data : DataBundle) : Image :=
  snd (compute2dContours cfg (image data)).



End OutputNotions.

(** ** Scenes for concrete runs *)

(** The eight border pixels of a 3x3 square, and thresholds under which they
    form one closed curve: neighbouring pixels are 1 apart. *)
Definition ring : list CvPoint :=
  [px 0 0; px 1 0; px 2 0; px 2 1; px 2 2; px 1 2; px 0 2; px 0 1].

Definition scene_cfg : RegionDetectionConfig_ spec_float :=
  test_cfg (D 2) (Dq 3 2) (Dq 1 2) (Dq 1 2) (Dq 1 2) 3.

(** The same configuration with dilation enabled and a kernel size of 0. *)
Definition bad_dilation_cfg : RegionDetectionConfig_ spec_float :=
  mkRegionDetectionConfig
    (mkOpenCVCfg false (mkDilationCfg true 0 0) (mkThresholdCfg false 0 0 255)
                 (mkCannyCfg false 0 0 1) (mkContourCfg 0 0))
    (pcl_2d_cfg scene_cfg) (pcl_cfg scene_cfg).

(** The 3x3 plane whose sample at pixel (0,0) is missing. *)
Definition plane_nan_corner : PointCloud_ spec_float :=
  mkPointCloud 3 3 (NaN_point :: tl (points (plane 3 3))).

(** The 3x3 plane whose sample at pixel (2,2) is missing. *)
Definition plane_nan_far_corner : PointCloud_ spec_float :=
  mkPointCloud 3 3 (removelast (points (plane 3 3)) ++ [NaN_point]).


(** Three pixels in a row: an open contour. *)
Definition row : list CvPoint := [px 0 0; px 1 0; px 2 0].

(** A configuration with wider merge thresholds, a 2D configuration that
    sends every closed curve through the hull, and two open curves, the two long
    sides of a 2x1 rectangle, whose end points are 1 apart. *)
Definition merge_cfg : RegionDetectionConfig_ spec_float :=
  test_cfg (D 2) (Dq 3 2) (D 1) (Dq 3 2) (Dq 1 2) 3.

Definition hull_cfg : PCL2DCfg_ spec_float := mkPCL2DCfg (D 0) (D 2) (Dq 3 2) 0 (D 1).

Definition lower_side : list (PointXYZ_ spec_float) := [pt 0 0 0; pt 1 0 0; pt 2 0 0].
Definition upper_side : list (PointXYZ_ spec_float) := [pt 2 1 0; pt 1 1 0; pt 0 1 0].

(** A closed triangle and the curves and normals gathered for it. *)
Definition triangle : list (PointXYZ_ spec_float) := [pt 0 0 0; pt 1 0 0; pt 0 1 0; pt 0 0 0].

Definition gathered_triangle : Gathered_ spec_float :=
  mkGathered [triangle] [] (map (fun p => mkPointNormal p up) triangle).

Definition vec (a b c : Z) : Vec3 spec_float := mkVec3 (D a) (D b) (D c).

(** The merge configuration with a given 2D configuration. *)
Definition test_env_cfg (pcl2d : PCL2DCfg_ spec_float) : RegionDetectionConfig_ spec_float :=
  mkRegionDetectionConfig (opencv_cfg merge_cfg) pcl2d (pcl_cfg merge_cfg).

(** ** Notions for rotation matrices *)

Section MatrixNotions.
Context {A : Arith}.

Definition dot3d (a b : Vec3 dbl) : dbl :=
  dadd (dmul (vx a) (vx b)) (dadd (dmul (vy a) (vy b)) (dmul (vz a) (vz b))).



(** The forward tangent and the unit normal that [pose_frame] starts from. *)
Definition tangent (dir : dbl) (p1 p2 : PointXYZ) : Vec3 dbl :=
  scale3d dir (cast3 (normalized3f (sub3f (getArray3fMap p2) (getArray3fMap p1)))).

Definition unit_normal (n : Normal) : Vec3 dbl := normalized3d (normal_vector n).

End MatrixNotions.

(** ** Data for pose frames *)

(** A unit normal tilted toward the x axis, as [float]s: about (0.6, 0, 0.8). *)
Definition tilted : Normal_ spec_float :=
  mkNormal (b32_div (F 3) (F 5)) (F 0) (b32_div (F 4) (F 5)).

(** A curve of two vertices along the x axis, and its vertices with the
    tilted normal attached. *)
Definition x_curve : list (PointXYZ_ spec_float) := [pt 0 0 0; pt 1 0 0].

Definition x_curve_normals : list (PointNormal_ spec_float) :=
  [mkPointNormal (pt 0 0 0) tilted; mkPointNormal (pt 1 0 0) tilted].


(** ** The stages of the loop over the bundles

    The body of the loop in [compute] runs, for one bundle, the detection of
    the 2D contours, the pipeline on the pixel curves, the extraction of the
    contours from the cloud and the computation of the normals, and returns
    [false] when a [Result] is a failure.  The definitions below name these
    parts of the body. *)

Section Stages.
Context {A : Arith} {K : KdTree} {P : PCL} {O : OpenCV}.
Variable cfg : RegionDetectionConfig.

(** The pipeline on the pixel curves, from "interpolating to fill gaps" to
    "converting to cv points": the closed curves, the open curves, and the
    contours that are handed to [extractContoursFromCloud]. *)
Definition pixel_curves (contours_indices : list (list CvPoint))
  : option (list Curve * list Curve * list (list CvPoint)) :=
  contours_indices <- mapM interpolate_contour contours_indices ;;
  let clouds := map convert2DContourToCloud contours_indices in
  let pcl2d_cfg := pcl_2d_cfg cfg in
  let clouds :=
    if dltb (d_of_int 0) (downsampling_radius pcl2d_cfg)
    then map (voxelGrid (downsampling_radius pcl2d_cfg)) clouds
    else clouds in
  clouds <- mapM (fun c => sequence c sequence_default_epsilon) clouds ;;
  let contours_indices_cloud_vec :=
    flat_map (fun c => split c (split_dist pcl2d_cfg)) clouds in
  '(closed_indices_curves_vec, open_indices_curves_vec) <-
     findClosedCurves contours_indices_cloud_vec (closed_curve_max_dist_2d pcl2d_cfg) ;;
  closed_indices_curves_vec <- mapM (simplify_closed pcl2d_cfg) closed_indices_curves_vec ;;
  contours_indices <-
    mapM convertCloudTo2DContour (closed_indices_curves_vec ++ open_indices_curves_vec) ;;
  Some (closed_indices_curves_vec, open_indices_curves_vec, contours_indices).

(** [input_cloud]: the cloud of the bundle after [transformPointCloud]. *)
Definition bundle_cloud (data : DataBundle) : PointCloud :=
  transformPointCloud (transform data) (fromPCLPointCloud2 (cloud_blob data)).

(** A stage fails for the bundle: [compute2dContours],
    [extractContoursFromCloud] or [computeNormals] is reached and returns a
    [Result] that is a failure. *)
Definition stage_fails (data : DataBundle) : bool :=
  let '(res, contours_indices, _) := compute2dContours cfg (image data) in
  negb (succeeded res)
  || match pixel_curves contours_indices with
     | Some (_, _, indices) =>
         match extractContoursFromCloud indices (bundle_cloud data) with
         | Some (res, contours_points) =>
             negb (succeeded res)
             || match computeNormals cfg (bundle_cloud data)
                                     (map (clean_contour cfg) contours_points) with
                | Some (res, _) => negb (succeeded res)
                | None => false
                end
         | None => false
         end
     | None => false
     end.

(** Every stage of the bundle is reached and returns a success. *)
Definition stages_pass (data : DataBundle) : bool :=
  let '(res, contours_indices, _) := compute2dContours cfg (image data) in
  succeeded res
  && match pixel_curves contours_indices with
     | Some (_, _, indices) =>
         match extractContoursFromCloud indices (bundle_cloud data) with
         | Some (res, contours_points) =>
             succeeded res
             && match computeNormals cfg (bundle_cloud data)
                                     (map (clean_contour cfg) contours_points) with
                | Some (res, _) => succeeded res
                | None => false
                end
         | None => false
         end
     | None => false
     end.

(** The closed curves of a bundle as they come out of the cloud, before the
    cleaning: the first [closed_indices_curves_vec.size()] contours that a
    successful extraction returns. *)
Definition closed_curves_lifted (data : DataBundle) (contours_indices : list (list CvPoint))
  : option (list Curve) :=
  '(closed_indices_curves_vec, _, indices) <- pixel_curves contours_indices ;;
  '(res, contours_points) <- extractContoursFromCloud indices (bundle_cloud data) ;;
  Some (if succeeded res
        then firstn (length closed_indices_curves_vec) contours_points
        else []).

(** The cleaning keeps the first and the last vertex of the curve. *)
Definition keeps_ends (c : Curve) : Prop :=
  front (clean_contour cfg c) = front c /\ back (clean_contour cfg c) = back c.

(** In the run of [compute] on [input], the cleaning keeps the first and the
    last vertex of every closed curve that is lifted from a cloud. *)
Definition run_keeps_ends (input : list DataBundle) : Prop :=
  forall data cs,
    In data input ->
    closed_curves_lifted data (snd (fst (compute2dContours cfg (image data)))) = Some cs ->
    Forall keeps_ends cs.

End Stages.

(** ** Notions for the densified contours *)

(** Two pixels on a common row, column or diagonal. *)
Definition aligned (p q : CvPoint) : bool :=
  Z.eqb (cv_x q - cv_x p) 0 || Z.eqb (cv_y q - cv_y p) 0
  || Z.eqb (Z.abs (cv_x q - cv_x p)) (Z.abs (cv_y q - cv_y p)).

(** Every pair of consecutive vertices of a contour is aligned. *)
Fixpoint aligned_contour (l : list CvPoint) : bool :=
  match l with
  | p :: ((q :: _) as r) => aligned p q && aligned_contour r
  | _ => true
  end.

(** ** Pixel coordinates that a [float] holds exactly *)

Definition exact_pixel (p : CvPoint) : Prop :=
  (Z.abs (cv_x p) < 2 ^ 24)%Z /\ (Z.abs (cv_y p) < 2 ^ 24)%Z.

(** ** Subsequences

    [subsequence s l]: [s] is [l] with some elements left out, the others in
    their order. *)
Inductive subsequence {X : Type} : list X -> list X -> Prop :=
| sub_nil : forall l, subsequence [] l
| sub_skip : forall a s l, subsequence s l -> subsequence s (a :: l)
| sub_keep : forall a s l, subsequence s l -> subsequence (a :: s) (a :: l).

(** [b] is closer than [split_dist] to [a]: the test of [split] on the pair
    ([p_current], [p_next]) succeeds. *)
Definition within_split_dist {A : Arith} (split_dist : dbl) (a b : PointXYZ) : Prop :=
  dltb (diff_norm b a) split_dist = true.

(** The test of [findClosedCurves] on a curve: its first and its last point
    are closer than [max_dist]. *)
Definition closes {A : Arith} (max_dist : dbl) (c : Curve) : bool :=
  match front c, back c with
  | Some f, Some b => dltb (diff_norm f b) max_dist
  | _, _ => false
  end.

(** ** Notions for the extraction of contours from an organized cloud *)

(** A pixel whose coordinates are values of an [int]. *)
Definition int_pixel (p : CvPoint) : Prop :=
  (- 2 ^ 31 <= cv_x p < 2 ^ 31)%Z /\ (- 2 ^ 31 <= cv_y p < 2 ^ 31)%Z.

(** An organized cloud that holds a point for every cell of its grid, with
    dimensions that fit an [int]. *)
Definition filled_grid {A : Arith} (c : PointCloud) : Prop :=
  (0 <= width c < 2 ^ 31)%Z /\ (1 < height c < 2 ^ 31)%Z
  /\ Z.of_nat (length (points c)) = (width c * height c)%Z
  /\ (width c * height c <= 2 ^ 32)%Z.

(** A pixel inside the grid of a cloud, and the point stored for it (row
    after row). *)
Definition in_grid {A : Arith} (c : PointCloud) (p : CvPoint) : Prop :=
  (0 <= cv_x p < width c)%Z /\ (0 <= cv_y p < height c)%Z.

Definition grid_point {A : Arith} (c : PointCloud) (p : CvPoint) : option PointXYZ :=
  nth_error (points c) (Z.to_nat (cv_y p * width c + cv_x p)).

(** A contour that [extractContoursFromCloud] accepts. *)
Definition contour_in_grid {A : Arith} (c : PointCloud) (indices : list CvPoint) : Prop :=
  indices <> [] /\ Forall (in_grid c) indices.

(** A pose sequence that [compute] may add: at least two poses, and at least
    [min_num_points] of them. *)
Definition region_size_ok {A : Arith} (cfg : RegionDetectionConfig) (poses : list Pose) : Prop :=
  2 <= length poses /\ min_num_points (pcl_cfg cfg) <= length poses.

(** The result of [compute] on the ring over the 3x3 plane. *)
Definition ring_scene_result : RegionResults_ spec_float (list (list CvPoint)) :=
  Eval vm_compute in
    match test_compute (fun c => c) scene_cfg [test_bundle [ring] (plane 3 3)] no_regions with
    | Some (_, r) => r
    | None => no_regions
    end.

(** The points of the curves with the given indices, in their order. *)
Definition points_of_curves {A : Arith} (contours : list Curve) (used : list nat)
  : list PointXYZ :=
  flat_map (fun i => nth i contours []) used.

(** The invariant of the merge loops of [combineIntoClosedRegions] for the
    curve [i]: [extra] lists the curves merged into it so far, [c0] is the
    curve itself and [m0] the merged indices before the loops. *)
Definition merge_inv {A : Arith} (contours : list Curve) (i : nat) (c0 : Curve)
           (m0 : list nat) (curve : Curve) (m extra : list nat) : Prop :=
  NoDup extra
  /\ (forall x, In x extra -> ~ In x m0 /\ x <> i /\ x < length contours)
  /\ (forall x, In x m0 \/ In x extra -> In x m)
  /\ (forall x, In x m -> In x m0 \/ In x extra \/ x = i)
  /\ Permutation curve (c0 ++ points_of_curves contours extra).

(** The invariant of the loop over the curves: [used] lists the curves that
    have gone into the closed and open curves pushed so far. *)
Definition combine_inv {A : Arith} (contours : list Curve)
           (st : list nat * list Curve * list Curve) : Prop :=
  let '(merged, closed, open) := st in
  exists used,
    NoDup used
    /\ (forall x, In x used <-> In x merged)
    /\ (forall x, In x used -> x < length contours)
    /\ Permutation (concat (map (fun c => removelast c) closed) ++ concat open)
                   (points_of_curves contours used).

(** [m] joins [c1] and [c2] at the end point [e1] of [c1] and the end point
    [e2] of [c2]: [c1] keeps its direction, [c2] is put before or after it,
    reversed when needed, so that [e1] and [e2] become neighbours. *)
Definition joined_at {A : Arith} (e1 e2 : PointXYZ) (c1 c2 m : Curve) : Prop :=
  exists c2',
    (c2' = c2 \/ c2' = rev c2)
    /\ ((m = c2' ++ c1 /\ back c2' = Some e2 /\ front c1 = Some e1)
        \/ (m = c1 ++ c2' /\ back c1 = Some e1 /\ front c2' = Some e2)).

(** The dilation settings that [compute2dContours] rejects. *)
Definition bad_dilation (config : OpenCVCfg) : Prop :=
  dil_enable (dilation config) = true
  /\ ((kernel_size (dilation config) <= 0)%Z
      \/ ~ (0 <= elem (dilation config) <= 2)%Z).

(** The 3x3 cloud without a single sample, and the curves gathered from the
    bundles of a run. *)
Definition blind_plane : PointCloud_ spec_float :=
  mkPointCloud 3 3 (map (fun _ => NaN_point) (seq 0 9)).

(** The normal estimation returns one point normal per point of the cloud
    it is given. *)
Definition estimates_every_point {A : Arith} (P : PCL) : Prop :=
  forall viewpoint radius cloud,
    length (normalEstimation viewpoint radius cloud) = length cloud.

(** ** Notions for IEEE values *)

Definition is_zero (f : spec_float) : bool :=
  match f with S754_zero _ => true | _ => false end.

(** Two values that are the same up to the sign of a zero; [+0] and [-0]
    compare equal. *)
Definition same_value (a b : spec_float) : Prop :=
  a = b \/ (is_zero a = true /\ is_zero b = true).

Definition same_vec (a b : Vec3 spec_float) : Prop :=
  same_value (vx a) (vx b) /\ same_value (vy a) (vy b) /\ same_value (vz a) (vz b).

(** [a] is [-b], up to the sign of a zero. *)
Definition opposite (a b : spec_float) : Prop :=
  a = SFopp b \/ (is_zero a = true /\ is_zero b = true).

Definition finite_point (p : PointXYZ_ spec_float) : bool :=
  is_finite (x p) && is_finite (y p) && is_finite (z p).
Definition finite_vec (v : Vec3 spec_float) : bool :=
  is_finite (vx v) && is_finite (vy v) && is_finite (vz v).
Definition zero_vec (v : Vec3 spec_float) : bool :=
  is_zero (vx v) && is_zero (vy v) && is_zero (vz v).
(** Every entry of the matrix is [+0] or [-0]. *)
Definition zero_entries (m : Matrix3d_ spec_float) : bool :=
  zero_vec (row0 m) && zero_vec (row1 m) && zero_vec (row2 m).

(** ** IEEE values read as rational numbers, and the tolerance 1e-6 *)

(** The rational number that a finite IEEE value stands for. *)
Definition SF2Q (f : spec_float) : option Q :=
  match f with
  | S754_zero _ => Some (Qmake 0 1)
  | S754_finite s m e =>
      Some (match e with
            | Zneg p => Qmake (cond_Zopp s (Zpos m)) (2 ^ p)
            | _ => inject_Z (cond_Zopp s (Zpos m) * 2 ^ e)
            end)
  | _ => None
  end.

Definition qvec (v : Vec3 spec_float) : option (Vec3 Q) :=
  match SF2Q (vx v), SF2Q (vy v), SF2Q (vz v) with
  | Some a, Some b, Some c => Some (mkVec3 a b c)
  | _, _, _ => None
  end.

Definition qdot (a b : Vec3 Q) : Q :=
  Qred (vx a * vx b + vy a * vy b + vz a * vz b)%Q.

Definition qcross (a b : Vec3 Q) : Vec3 Q :=
  mkVec3 (Qred (vy a * vz b - vz a * vy b)%Q)
         (Qred (vz a * vx b - vx a * vz b)%Q)
         (Qred (vx a * vy b - vy a * vx b)%Q).

(** The tolerance 1e-6. *)
Definition tolerance : Q := (1 # 1000000)%Q.

Definition near (a b : Q) : bool := Qle_bool (Qabs (a - b)) tolerance.

(** [R^T R = I] and [det R = 1], entry by entry within the tolerance; false
    for a matrix that holds a NaN or an infinity. *)
Definition rotation_within_tolerance (m : Matrix3d_ spec_float) : bool :=
  match qvec (@col IEEE m 0), qvec (@col IEEE m 1), qvec (@col IEEE m 2) with
  | Some cx, Some cy, Some cz =>
      near (qdot cx cx) (Qmake 1 1) && near (qdot cy cy) (Qmake 1 1) && near (qdot cz cz) (Qmake 1 1)
      && near (qdot cx cy) (Qmake 0 1) && near (qdot cx cz) (Qmake 0 1) && near (qdot cy cz) (Qmake 0 1)
      && near (qdot (qcross cx cy) cz) (Qmake 1 1)
  | _, _, _ => false
  end.







(** * Properties *)

Unset Implicit Arguments.

(** ** Vectors *)

Lemma bind_Some {X Y : Type} (c : option X) (k : X -> option Y) (b : Y) :
  bind c k = Some b -> exists a, c = Some a /\ k a = Some b.
Proof.
  destruct c as [a|]; simpl; intros E; [exists a; auto | discriminate].
Qed.

Lemma back_app_one {X : Type} (l : list X) (a : X) : back (l ++ [a]) = Some a.
Proof.
  induction l as [|b l IH]; simpl; [reflexivity|].
  destruct (l ++ [a]) eqn:E; [destruct l; discriminate | exact IH].
Qed.

Lemma back_cons {X : Type} (a b : X) (l : list X) : back (a :: b :: l) = back (b :: l).
Proof. reflexivity. Qed.

Lemma back_rev {X : Type} (l : list X) : back (rev l) = front l.
Proof. destruct l as [|a l]; simpl; [reflexivity | apply back_app_one]. Qed.

Lemma front_rev {X : Type} (l : list X) : front (rev l) = back l.
Proof. rewrite <- (rev_involutive l) at 2. symmetry. apply back_rev. Qed.

Lemma back_app {X : Type} (l r : list X) : r <> [] -> back (l ++ r) = back r.
Proof.
  intros Hr. induction l as [|a l IH]; simpl; [reflexivity|].
  destruct (l ++ r) eqn:E; [|exact IH].
  apply app_eq_nil in E. destruct E; contradiction.
Qed.

Lemma front_app {X : Type} (l r : list X) : l <> [] -> front (l ++ r) = front l.
Proof. destruct l; [contradiction | reflexivity]. Qed.

Lemma back_None {X : Type} (l : list X) : back l = None -> l = [].
Proof.
  induction l as [|a l IH]; [reflexivity|].
  destruct l as [|b l]; [discriminate|]. rewrite back_cons. intros E.
  apply IH in E. discriminate.
Qed.

(** ** Contour densification *)

(** C6 (the code departs from it): densification is meant to leave no pixel
    gaps, yet on the contour (0,0), (3,2), (3,3) the [int] step of [linspace]
    for the y coordinate is 2/3 = 0, the interpolated points stop at (3,0),
    and the next point pushed is (3,3): the polyline is not 8-connected. *)
Theorem densify_leaves_gap :
  interpolate_contour [px 0 0; px 3 2; px 3 3]
  = Some [px 0 0; px 0 0; px 1 0; px 2 0; px 3 0; px 3 3]
  /\ chebyshev (px 3 0) (px 3 3) = 3%Z
  /\ eight_connected [px 0 0; px 0 0; px 1 0; px 2 0; px 3 0; px 3 3] = false.
Proof. repeat split; reflexivity. Qed.

(** C7 (the code departs from it): densifying the contour (0,0), (0,10) gives
    twelve points, not eleven: the first vertex is pushed once before the loop
    and once more as the first interpolated point. *)
Theorem densify_two_vertices :
  interpolate_contour [px 0 0; px 0 10]
  = Some [px 0 0; px 0 0; px 0 1; px 0 2; px 0 3; px 0 4; px 0 5;
          px 0 6; px 0 7; px 0 8; px 0 9; px 0 10]
  /\ (forall l, interpolate_contour [px 0 0; px 0 10] = Some l ->
                length l = 12 /\ count_point (px 0 0) l = 2).
Proof.
  split; [reflexivity|].
  intros l E. vm_compute in E. injection E as <-. split; reflexivity.
Qed.

(** ** Merging two curves *)

Section MergeFacts.
Context {A : Arith}.

Lemma mergeCurves_cases (max_dist : dbl) (c1 c2 : Curve) (dmin : dbl) :
  min_end_point_distance c1 c2 = Some dmin ->
  mergeCurves max_dist c1 c2
  = if dltb max_dist dmin then Some None
    else Some (Some (match fst (match front c1, front c2, back c1, back c2 with
                                | Some f1, Some f2, Some b1, Some b2 =>
                                    min_element_from 0 (diff_norm f1 f2) 1
                                      [diff_norm f1 b2; diff_norm b1 f2; diff_norm b1 b2]
                                | _, _, _, _ => (0, dmin)
                                end) with
                     | 0 => rev c2 ++ c1
                     | 1 => c2 ++ c1
                     | 2 => c1 ++ c2
                     | _ => c1 ++ rev c2
                     end)).
Proof.
  unfold min_end_point_distance, mergeCurves.
  destruct (front c1) as [f1|]; [|discriminate].
  destruct (front c2) as [f2|]; [|discriminate].
  destruct (back c1) as [b1|]; [|discriminate].
  destruct (back c2) as [b2|]; [|discriminate].
  cbn [bind].
  destruct (min_element_from 0 (diff_norm f1 f2) 1
              [diff_norm f1 b2; diff_norm b1 f2; diff_norm b1 b2]) as [m d] eqn:E.
  cbn [snd fst]. intros H. injection H as <-. reflexivity.
Qed.

End MergeFacts.

(** C5, as amended: [mergeCurves] refuses to merge exactly when the smallest
    end point distance is strictly greater than [max_merge_dist]; in every
    other case, so also when the two are equal, it merges the curves into one
    of the four concatenations. *)
Theorem mergeCurves_threshold {A : Arith} (max_dist : dbl) (c1 c2 : Curve) (dmin : dbl) :
  min_end_point_distance c1 c2 = Some dmin ->
  (mergeCurves max_dist c1 c2 = Some None <-> dltb max_dist dmin = true)
  /\ (dltb max_dist dmin = false ->
      exists m, mergeCurves max_dist c1 c2 = Some (Some m) /\ concatenation_of c1 c2 m).
Proof.
  intros H. rewrite (mergeCurves_cases max_dist c1 c2 dmin H).
  destruct (dltb max_dist dmin); split.
  - split; reflexivity.
  - discriminate.
  - split; discriminate.
  - intros _. eexists. split; [reflexivity|].
    unfold concatenation_of.
    destruct (fst _) as [|[|[|k]]]; auto.
Qed.

Lemma mergeCurves_threshold_witness :
  @min_end_point_distance IEEE left_curve right_curve = Some (D 1)
  /\ (@mergeCurves IEEE (D 1) left_curve right_curve = Some None <-> SFltb (D 1) (D 1) = true)
  /\ (SFltb (D 1) (D 1) = false ->
      exists m, @mergeCurves IEEE (D 1) left_curve right_curve = Some (Some m)
                /\ @concatenation_of IEEE left_curve right_curve m).
Proof.
  split; [vm_compute; reflexivity|].
  apply (@mergeCurves_threshold IEEE (D 1) left_curve right_curve (D 1)).
  vm_compute; reflexivity.
Defined.

(** C5 fails as stated: the end points (1,0,0) and (2,0,0) are at distance 1,
    the smallest of the four distances, [max_merge_dist] is 1, and the curves
    are merged. *)
Lemma mergeCurves_merges_at_max_merge_dist :
  @min_end_point_distance IEEE left_curve right_curve = Some (D 1)
  /\ @mergeCurves IEEE (D 1) left_curve right_curve = Some (Some (left_curve ++ right_curve))
  /\ @mergeCurves IEEE (D 1) left_curve right_curve <> Some None.
Proof.
  split; [vm_compute; reflexivity|].
  split; [vm_compute; reflexivity|].
  vm_compute. discriminate.
Qed.

(** ** The loop of [sequence] *)

Section SequenceFacts.
Context {A : Arith} {K : KdTree}.
Variable epsilon : dbl.
Variable cloud : list PointXYZ.

Lemma sequence_body_iter (st : SeqState) (f : Flow SeqState) :
  sequence_body epsilon cloud st = Some f ->
  match f with
  | Continue st' | Break st' => iter_count st' = S (iter_count st)
  end.
Proof.
  unfold sequence_body. intros H.
  apply bind_Some in H. destruct H as [u [_ H]].
  destruct u as [|u0 u]; [injection H as <-; reflexivity|].
  destruct (nearestKSearch _ _ _ _) as [[k d]|]; [|injection H as <-; reflexivity].
  destruct (sequenced_indices st) as [|s0 s].
  - destruct (existsb _ _); [injection H as <-; reflexivity|].
    apply bind_Some in H. destruct H as [cp [_ H]].
    apply bind_Some in H. destruct H as [si [_ H]].
    apply bind_Some in H. destruct H as [sp [_ H]].
    destruct (dltb _ _); injection H as <-; reflexivity.
  - destruct (existsb _ _); [injection H as <-; reflexivity|].
    apply bind_Some in H. destruct H as [cp [_ H]].
    apply bind_Some in H. destruct H as [si [_ H]].
    apply bind_Some in H. destruct H as [sp [_ H]].
    destruct (dltb _ _); injection H as <-; reflexivity.
Qed.

(** The counter alone bounds the loop: with [max_iters + 1] unfoldings left
    over the counter the loop does not run out, and the body is executed at
    most [max_iters + 1 - iter_count] times. *)
Lemma sequence_loop_bound (max_iters fuel : nat) :
  forall (st : SeqState) (iters : nat),
    max_iters + 1 <= iter_count st + fuel ->
    match sequence_loop fuel epsilon cloud max_iters st iters with
    | OutOfFuel => False
    | Undefined => True
    | Finished (_, k) => k <= iters + (max_iters + 1 - iter_count st)
    end.
Proof.
  induction fuel as [|fuel IH]; intros st iters Hf; simpl.
  - destruct (Nat.leb_spec (iter_count st) max_iters); [lia|]. lia.
  - destruct (Nat.leb_spec (iter_count st) max_iters) as [Hle|Hgt]; [|lia].
    destruct (sequence_body epsilon cloud st) as [[st'|st']|] eqn:Eb; [| |exact I].
    + pose proof (sequence_body_iter st _ Eb) as Hi. simpl in Hi.
      specialize (IH st' (S iters)).
      destruct (sequence_loop fuel epsilon cloud max_iters st' (S iters)) as [[st2 k]| |].
      * assert (k <= S iters + (max_iters + 1 - iter_count st')) by (apply IH; lia). lia.
      * exact I.
      * apply IH. lia.
    + lia.
Qed.

(** More fuel does not change a run that has ended. *)
Lemma sequence_loop_fuel (max_iters fuel : nat) :
  forall (st : SeqState) (iters : nat) (fuel' : nat),
    fuel <= fuel' ->
    sequence_loop fuel epsilon cloud max_iters st iters <> OutOfFuel ->
    sequence_loop fuel' epsilon cloud max_iters st iters
    = sequence_loop fuel epsilon cloud max_iters st iters.
Proof.
  induction fuel as [|fuel IH]; intros st iters fuel' Hle Hne.
  - simpl in Hne. destruct (Nat.leb (iter_count st) max_iters) eqn:E; [contradiction|].
    destruct fuel'; simpl; rewrite E; reflexivity.
  - destruct fuel' as [|fuel']; [lia|]. simpl in *.
    destruct (Nat.leb (iter_count st) max_iters); [|reflexivity].
    destruct (sequence_body epsilon cloud st) as [[st'|st']|]; try reflexivity.
    apply IH; [lia | exact Hne].
Qed.


(** *** Dropping the current index *)

Lemma filter_neq_length (a : nat) (v : list nat) :
  NoDup v -> In a v ->
  S (length (filter (fun i => negb (Nat.eqb i a)) v)) = length v.
Proof.
  induction v as [|b v IH]; intros Hnd Hin; [destruct Hin|].
  apply NoDup_cons_iff in Hnd. destruct Hnd as [Hb Hnd]. simpl.
  destruct (Nat.eqb_spec b a) as [->|Hne]; simpl.
  - f_equal. clear IH Hin Hnd. induction v as [|c v IH]; [reflexivity|]. simpl.
    destruct (Nat.eqb_spec c a) as [->|Hc]; simpl.
    + exfalso. apply Hb. left. reflexivity.
    + f_equal. apply IH. intros H. apply Hb. right. exact H.
  - f_equal. apply IH; [exact Hnd|]. destruct Hin as [->|Hin]; [contradiction|exact Hin].
Qed.

Lemma filter_neq_perm (a : nat) (v : list nat) :
  NoDup v -> In a v ->
  Permutation v (a :: filter (fun i => negb (Nat.eqb i a)) v).
Proof.
  induction v as [|b v IH]; intros Hnd Hin; [destruct Hin|].
  apply NoDup_cons_iff in Hnd. destruct Hnd as [Hb Hnd]. simpl.
  destruct (Nat.eqb_spec b a) as [->|Hne]; simpl.
  - constructor. clear IH Hin Hnd. induction v as [|c v IH]; [constructor|]. simpl.
    destruct (Nat.eqb_spec c a) as [->|Hc]; simpl.
    + exfalso. apply Hb. left. reflexivity.
    + constructor. apply IH. intros H. apply Hb. right. exact H.
  - destruct Hin as [->|Hin]; [contradiction|].
    eapply perm_trans; [apply perm_skip, IH; assumption|]. apply perm_swap.
Qed.

Lemma filter_neq_not_in (a : nat) (v : list nat) :
  ~ In a (filter (fun i => negb (Nat.eqb i a)) v).
Proof.
  intros H. apply filter_In in H. destruct H as [_ H].
  rewrite Nat.eqb_refl in H. discriminate.
Qed.

Lemma erase_remove_drops (a : nat) (v : list nat) :
  NoDup v -> In a v ->
  erase_remove a v = Some (filter (fun i => negb (Nat.eqb i a)) v)
  /\ drops_exactly a v (filter (fun i => negb (Nat.eqb i a)) v).
Proof.
  intros Hnd Hin. pose proof (filter_neq_length a v Hnd Hin) as Hlen.
  split.
  - unfold erase_remove.
    destruct (Nat.eqb_spec (length (filter (fun i => negb (Nat.eqb i a)) v)) (length v)) as [E|E];
      [lia|].
    rewrite Hlen, skipn_all, app_nil_r. reflexivity.
  - split; [apply filter_neq_perm; assumption | apply filter_neq_not_in].
Qed.

Lemma NoDup_app_disjoint {X : Type} (l1 l2 : list X) (k : X) :
  NoDup (l1 ++ l2) -> In k l1 -> In k l2 -> False.
Proof.
  induction l1 as [|a l1 IH]; intros Hnd H1 H2; [destruct H1|].
  simpl in Hnd. apply NoDup_cons_iff in Hnd. destruct Hnd as [Ha Hnd].
  destruct H1 as [->|H1].
  - apply Ha. apply in_or_app. right. exact H2.
  - exact (IH Hnd H1 H2).
Qed.

Lemma Forall2_rev {X Y : Type} (R : X -> Y -> Prop) (l : list X) (l' : list Y) :
  Forall2 R l l' -> Forall2 R (rev l) (rev l').
Proof.
  induction 1; simpl; [constructor|].
  apply Forall2_app; [assumption | constructor; [assumption | constructor]].
Qed.

(** *** The invariant *)

Lemma seq_inv_init (st : SeqState) :
  sequence_init cloud = Some st -> seq_inv cloud st.
Proof.
  unfold sequence_init. intros H. apply bind_Some in H. destruct H as [p [Hp H]].
  injection H as <-. unfold seq_inv. simpl.
  assert (Hn : 0 < length cloud) by (apply nth_error_Some; rewrite Hp; discriminate).
  repeat split.
  - apply in_seq. lia.
  - apply Permutation_refl.
  - left. reflexivity.
  - constructor.
  - exact Hp.
  - apply length_seq.
Qed.

Lemma seq_inv_NoDup (st : SeqState) :
  seq_inv cloud st ->
  NoDup (removelast (sequenced_indices st) ++ unsequenced_indices st).
Proof.
  intros (_ & Hperm & _). eapply Permutation_NoDup; [exact Hperm | apply seq_NoDup].
Qed.

Lemma seq_inv_bound (st : SeqState) (i : nat) :
  seq_inv cloud st ->
  In i (removelast (sequenced_indices st) ++ unsequenced_indices st) ->
  i < length cloud.
Proof.
  intros (_ & Hperm & _) Hi.
  apply (Permutation_in _ (Permutation_sym Hperm)) in Hi. apply in_seq in Hi. lia.
Qed.

(** One execution of the body from a state that satisfies the invariant,
    with a sound search: the current index is dropped, and either nothing is
    left and the loop ends, or the search finds nothing and the loop ends, or
    a new point is appended and the invariant holds again. *)
Lemma seq_body_step (st : SeqState) :
  kd_sound K -> seq_inv cloud st ->
  let u' := filter (fun i => negb (Nat.eqb i (search_point_idx st))) (unsequenced_indices st) in
  erase_remove (search_point_idx st) (unsequenced_indices st) = Some u'
  /\ drops_exactly (search_point_idx st) (unsequenced_indices st) u'
  /\ ((u' = []
       /\ exists st', sequence_body epsilon cloud st = Some (Break st')
                      /\ sequenced_indices st' = sequenced_indices st
                      /\ sequenced_points st' = sequenced_points st)
      \/ (u' <> []
          /\ nearestKSearch epsilon cloud u' (search_point st) = None
          /\ exists st', sequence_body epsilon cloud st = Some (Break st'))
      \/ (u' <> []
          /\ exists st', sequence_body epsilon cloud st = Some (Continue st')
                         /\ seq_inv cloud st'
                         /\ unsequenced_indices st' = u'
                         /\ sequenced_indices st' <> [])).
Proof.
  intros Hs Hinv. cbv zeta.
  pose proof (seq_inv_NoDup st Hinv) as Hnd.
  pose proof (fun i => seq_inv_bound st i Hinv) as Hbound.
  destruct Hinv as (Hin & Hperm & Hlast & Hpts & Hsp & Hcnt).
  assert (Hndu : NoDup (unsequenced_indices st)) by (eapply NoDup_app_remove_l; exact Hnd).
  destruct (erase_remove_drops _ _ Hndu Hin) as [Eer Hdrop].
  pose proof (filter_neq_length _ _ Hndu Hin) as Hlen.
  remember (filter (fun i => negb (Nat.eqb i (search_point_idx st))) (unsequenced_indices st))
    as u' eqn:Eu'.
  split; [exact Eer|]. split; [exact Hdrop|].
  unfold sequence_body. rewrite Eer. cbn [bind].
  destruct u' as [|u0 u1] eqn:Eu.
  { left. split; [reflexivity|]. eexists. split; [reflexivity|]. split; reflexivity. }
  rewrite <- Eu in *.
  assert (Hne : u' <> []) by (rewrite Eu; discriminate).
  rewrite Eu at 1.
  destruct (nearestKSearch epsilon cloud u' (search_point st)) as [[k d]|] eqn:Ek.
  2:{ right. left. split; [exact Hne|]. split; [reflexivity|]. eexists. reflexivity. }
  right. right. split; [exact Hne|].
  (* the point found is unsequenced and is not the current one *)
  assert (Hk : In k u') by (eapply Hs; exact Ek).
  assert (Hku : In k (unsequenced_indices st) /\ k <> search_point_idx st).
  { rewrite Eu' in Hk. apply filter_In in Hk. destruct Hk as [Hk1 Hk2]. split; [exact Hk1|].
    intros ->. rewrite Nat.eqb_refl in Hk2. discriminate. }
  destruct Hku as [Hku Hkne].
  (* the sequenced indices once the search point is saved *)
  assert (HS : exists s_idx s_pts,
             match sequenced_indices st with
             | [] => ([search_point_idx st], [search_point st])
             | _ :: _ => (sequenced_indices st, sequenced_points st)
             end = (s_idx, s_pts)
             /\ s_idx = removelast (sequenced_indices st) ++ [search_point_idx st]
             /\ Forall2 (fun i p => nth_error cloud i = Some p) s_idx s_pts).
  { destruct (sequenced_indices st) as [|s0 s] eqn:Es.
    - eexists. eexists. split; [reflexivity|]. split; [reflexivity|].
      constructor; [exact Hsp | constructor].
    - eexists. eexists. split; [reflexivity|]. split; [|exact Hpts].
      destruct Hlast as [Hl|Hl]; [discriminate | exact Hl]. }
  destruct HS as (s_idx & s_pts & EM & Hsidx & Hspts). rewrite EM.
  assert (Hnotin : existsb (Nat.eqb k) s_idx = false).
  { apply not_true_is_false. intros H. apply existsb_exists in H.
    destruct H as [j [Hj Hjk]]. apply Nat.eqb_eq in Hjk. subst j.
    rewrite Hsidx in Hj. apply in_app_or in Hj. destruct Hj as [Hj|[Hj|[]]].
    - exact (NoDup_app_disjoint _ _ k Hnd Hj Hku).
    - apply Hkne. symmetry. exact Hj. }
  rewrite Hnotin.
  assert (Hkn : k < length cloud) by (apply Hbound; apply in_or_app; right; exact Hku).
  destruct (nth_error cloud k) as [cp|] eqn:Ecp;
    [|apply nth_error_None in Ecp; lia].
  cbn [bind].
  assert (Hs0 : exists s0, nth_error s_idx 0 = Some s0 /\ In s0 s_idx).
  { rewrite Hsidx. destruct (removelast (sequenced_indices st)) as [|r0 r]; simpl;
      eexists; split; try reflexivity; left; reflexivity. }
  destruct Hs0 as (s0 & Es0 & Hs0in). rewrite Es0. cbn [bind].
  assert (Hs0n : s0 < length cloud).
  { apply Hbound. rewrite Hsidx in Hs0in. apply in_app_or in Hs0in.
    apply in_or_app. destruct Hs0in as [H|[H|[]]]; [left; exact H|right; subst s0; exact Hin]. }
  destruct (nth_error cloud s0) as [spt|] eqn:Espt;
    [|apply nth_error_None in Espt; lia].
  cbn [bind].
  assert (HS' : exists s_idx' s_pts',
             (if dltb (diff_norm spt cp) (cast (fsqrt d))
              then (rev s_idx, rev s_pts) else (s_idx, s_pts)) = (s_idx', s_pts')
             /\ Permutation s_idx s_idx'
             /\ Forall2 (fun i p => nth_error cloud i = Some p) s_idx' s_pts').
  { destruct (dltb (diff_norm spt cp) (cast (fsqrt d))).
    - eexists. eexists. split; [reflexivity|]. split; [apply Permutation_rev|].
      apply Forall2_rev. exact Hspts.
    - eexists. eexists. split; [reflexivity|]. split; [apply Permutation_refl|exact Hspts]. }
  destruct HS' as (s_idx' & s_pts' & EM' & Hperm' & Hspts'). rewrite EM'.
  eexists. split; [reflexivity|]. cbn [unsequenced_indices sequenced_indices].
  split; [|split; [reflexivity | destruct s_idx'; discriminate]].
  unfold seq_inv. cbn [unsequenced_indices sequenced_indices sequenced_points
                       search_point_idx search_point iter_count].
  rewrite removelast_last.
  split; [exact Hk|]. split.
  { eapply perm_trans; [exact Hperm|].
    eapply perm_trans; [|apply Permutation_app_tail; exact Hperm'].
    rewrite Hsidx, <- app_assoc. apply Permutation_app_head. simpl.
    destruct Hdrop as [Hd _]. exact Hd. }
  split; [right; reflexivity|].
  split; [apply Forall2_app; [exact Hspts'|constructor; [exact Ecp|constructor]]|].
  split; [exact Ecp|]. lia.
Qed.


Lemma seq_reachable_inv (st : SeqState) :
  kd_sound K -> seq_reachable epsilon cloud st -> seq_inv cloud st.
Proof.
  intros Hs Hr. induction Hr as [st Hi | st st' Hr IH Hle Hb].
  - apply seq_inv_init. exact Hi.
  - destruct (seq_body_step st Hs IH) as (_ & _ & [H|[H|H]]).
    + destruct H as (_ & st2 & E & _). rewrite Hb in E. discriminate.
    + destruct H as (_ & _ & st2 & E). rewrite Hb in E. discriminate.
    + destruct H as (_ & st2 & E & Hinv & _). rewrite Hb in E.
      injection E as <-. exact Hinv.
Qed.

(** With a sound search the loop never leaves defined behaviour. *)
Lemma sequence_loop_defined (max_iters fuel : nat) :
  kd_sound K ->
  forall (st : SeqState) (iters : nat),
    seq_inv cloud st ->
    sequence_loop fuel epsilon cloud max_iters st iters <> Undefined.
Proof.
  intros Hs. induction fuel as [|fuel IH]; intros st iters Hinv; simpl.
  - destruct (Nat.leb (iter_count st) max_iters); discriminate.
  - destruct (Nat.leb (iter_count st) max_iters); [|discriminate].
    destruct (seq_body_step st Hs Hinv) as (_ & _ & [H|[H|H]]).
    + destruct H as (_ & st2 & E & _). rewrite E. discriminate.
    + destruct H as (_ & _ & st2 & E). rewrite E. discriminate.
    + destruct H as (_ & st2 & E & Hinv2 & _). rewrite E. apply IH. exact Hinv2.
Qed.

(** The points of a permutation of all indices are a permutation of the cloud. *)
Lemma map_nth_error_seq {X : Type} (l : list X) :
  map (nth_error l) (seq 0 (length l)) = map Some l.
Proof.
  induction l as [|a l IH]; [reflexivity|].
  cbn [length seq map nth_error]. f_equal.
  rewrite <- seq_shift, map_map. cbn [nth_error]. exact IH.
Qed.

Lemma map_Some_inj {X : Type} (l l' : list X) : map Some l = map Some l' -> l = l'.
Proof.
  revert l'. induction l as [|a l IH]; intros [|b l'] H; try discriminate; [reflexivity|].
  simpl in H. injection H as -> H. f_equal. apply IH. exact H.
Qed.

Lemma points_of_indices (s : list nat) (pts : list PointXYZ) :
  Forall2 (fun i p => nth_error cloud i = Some p) s pts ->
  Permutation (seq 0 (length cloud)) s ->
  Permutation pts cloud.
Proof.
  intros HF.
  assert (E : map Some pts = map (nth_error cloud) s).
  { induction HF as [|i p s pts Hip HF IH]; [reflexivity|]. simpl. rewrite Hip, IH. reflexivity. }
  intros HP.
  apply (Permutation_map (nth_error cloud)) in HP.
  rewrite map_nth_error_seq, <- E in HP.
  apply Permutation_map_inv in HP. destruct HP as (l3 & E3 & HP).
  apply map_Some_inj in E3. subst l3. exact HP.
Qed.

(** With a sound and complete search the loop runs until nothing is left:
    from a state with [m + 1] unsequenced indices it ends after [m + 1] more
    executions of the body, and every index has been sequenced. *)
Lemma sequence_loop_complete :
  kd_sound K -> kd_complete K ->
  forall (m : nat) (st : SeqState) (iters fuel : nat),
    seq_inv cloud st ->
    length (unsequenced_indices st) = S m ->
    m < fuel ->
    sequenced_indices st <> [] \/ 1 <= m ->
    exists st',
      sequence_loop fuel epsilon cloud (length cloud) st iters = Finished (st', iters + S m)
      /\ Permutation (seq 0 (length cloud)) (sequenced_indices st')
      /\ Forall2 (fun i p => nth_error cloud i = Some p)
                 (sequenced_indices st') (sequenced_points st').
Proof.
  intros Hs Hc. induction m as [|m IH]; intros st iters fuel Hinv Hlen Hfuel Hseq.
  - destruct fuel as [|fuel]; [lia|]. simpl.
    pose proof Hinv as (Hin & Hperm & Hlast & Hpts & Hsp & Hcnt).
    destruct (Nat.leb_spec (iter_count st) (length cloud)) as [_|Hgt]; [|lia].
    destruct (seq_body_step st Hs Hinv) as (_ & [Hd _] & [H|[H|H]]).
    + destruct H as (_ & st2 & E & Es & Ep). rewrite E.
      exists st2. split; [f_equal; f_equal; lia|]. rewrite Es, Ep. split; [|exact Hpts].
      destruct Hseq as [Hne|Hm]; [|lia].
      destruct Hlast as [Hl|Hl]; [contradiction|].
      destruct (unsequenced_indices st) as [|a [|b u]]; try discriminate.
      destruct Hin as [->|[]]. rewrite Hl. exact Hperm.
    + destruct H as (Hne & _). apply Permutation_length in Hd. simpl in Hd.
      destruct (filter _ _); [contradiction | simpl in Hd; lia].
    + destruct H as (Hne & _). apply Permutation_length in Hd. simpl in Hd.
      destruct (filter _ _); [contradiction | simpl in Hd; lia].
  - destruct fuel as [|fuel]; [lia|]. simpl.
    pose proof Hinv as (Hin & Hperm & Hlast & Hpts & Hsp & Hcnt).
    destruct (Nat.leb_spec (iter_count st) (length cloud)) as [_|Hgt]; [|lia].
    pose proof (fun i => seq_inv_bound st i Hinv) as Hbound.
    destruct (seq_body_step st Hs Hinv) as (_ & [Hd _] & [H|[H|H]]).
    + destruct H as (E0 & _). apply Permutation_length in Hd. rewrite E0 in Hd.
      simpl in Hd. lia.
    + destruct H as (Hne & Ek & _). exfalso.
      apply (Hc epsilon cloud _ (search_point st) Hne); [|exact Ek].
      intros i Hi. apply Hbound. apply in_or_app. right.
      apply filter_In in Hi. tauto.
    + destruct H as (Hne & st2 & E & Hinv2 & Eu & Hs2). rewrite E.
      apply Permutation_length in Hd. simpl in Hd.
      destruct (IH st2 (S iters) fuel Hinv2) as (st3 & E3 & HP & HF).
      * rewrite Eu. lia.
      * lia.
      * left. exact Hs2.
      * exists st3. split; [|split; assumption].
        rewrite E3. f_equal. f_equal. lia.
Qed.

End SequenceFacts.

(** *** The linear scan is a sound and complete search *)

Lemma scan_nearest_sound {A : Arith} (cloud : list PointXYZ) (p : PointXYZ)
      (indices : list nat) :
  forall (best : option (nat * flt)) (i : nat) (d : flt),
    scan_nearest cloud indices p best = Some (i, d) ->
    In i indices \/ (exists d', best = Some (i, d')).
Proof.
  induction indices as [|j rest IH]; intros best i d H; simpl in H.
  - right. exists d. exact H.
  - destruct (nth_error cloud j) as [q|].
    + destruct best as [[b bd]|].
      * destruct (fltb (sqr_dist p q) bd).
        -- apply IH in H. destruct H as [H|[d' H]]; [left; right; exact H|].
           injection H as <- _. left. left. reflexivity.
        -- apply IH in H. destruct H as [H|H]; [left; right; exact H | right; exact H].
      * apply IH in H. destruct H as [H|[d' H]]; [left; right; exact H|].
        injection H as <- _. left. left. reflexivity.
    + apply IH in H. destruct H as [H|H]; [left; right; exact H | right; exact H].
Qed.

Lemma scan_nearest_some {A : Arith} (cloud : list PointXYZ) (p : PointXYZ)
      (indices : list nat) :
  forall (b : nat * flt), scan_nearest cloud indices p (Some b) <> None.
Proof.
  induction indices as [|j rest IH]; intros [b bd]; simpl; [discriminate|].
  destruct (nth_error cloud j) as [q|]; [|apply IH].
  destruct (fltb (sqr_dist p q) bd); apply IH.
Qed.

Lemma LinearScan_sound {A : Arith} : kd_sound LinearScan.
Proof.
  intros epsilon cloud indices p i d H. simpl in H.
  apply scan_nearest_sound in H. destruct H as [H|[d' H]]; [exact H | discriminate].
Qed.

Lemma LinearScan_complete {A : Arith} : kd_complete LinearScan.
Proof.
  intros epsilon cloud indices p Hne Hb. simpl.
  destruct indices as [|j rest]; [contradiction|]. simpl.
  destruct (nth_error cloud j) as [q|] eqn:E.
  - apply scan_nearest_some.
  - apply nth_error_None in E. specialize (Hb j (or_introl eq_refl)). lia.
Qed.

(** *** Termination and coverage *)

(** C10: on every cloud and with whatever the search returns, the loop of
    [sequence] ends within the [|S| + 1] executions of its body that the
    counter allows: [|S| + 1] unfoldings never run out.  When the search is
    sound and the cloud is not empty, the run ends in a result. *)
Theorem sequence_terminates {A : Arith} {K : KdTree}
        (cloud : list PointXYZ) (epsilon : dbl) (fuel : nat) :
  length cloud + 1 <= fuel ->
  sequence_run fuel cloud epsilon <> OutOfFuel
  /\ (forall st k, sequence_run fuel cloud epsilon = Finished (st, k) ->
                   k <= length cloud + 1)
  /\ (kd_sound K -> cloud <> [] ->
      exists st k, sequence_run fuel cloud epsilon = Finished (st, k)
                   /\ k <= length cloud + 1).
Proof.
  intros Hfuel. unfold sequence_run.
  destruct (sequence_init cloud) as [st0|] eqn:E0.
  - assert (Hi : iter_count st0 = 0).
    { unfold sequence_init in E0. apply bind_Some in E0. destruct E0 as (p & _ & E0).
      injection E0 as <-. reflexivity. }
    pose proof (sequence_loop_bound epsilon cloud (length cloud) fuel st0 0) as Hb.
    rewrite Hi in Hb. specialize (Hb ltac:(lia)).
    destruct (sequence_loop fuel epsilon cloud (length cloud) st0 0) as [[st k]| |] eqn:El.
    + split; [discriminate|]. split.
      * intros st' k' H. injection H as _ <-. lia.
      * intros _ _. exists st, k. split; [reflexivity | lia].
    + split; [discriminate|]. split; [discriminate|].
      intros Hs _. exfalso.
      apply (sequence_loop_defined epsilon cloud (length cloud) fuel Hs st0 0);
        [apply seq_inv_init; exact E0 | exact El].
    + contradiction.
  - split; [discriminate|]. split; [discriminate|].
    intros _ Hne. destruct cloud; [contradiction | discriminate].
Qed.

Lemma sequence_terminates_witness :
  @sequence_run IEEE LinearScan 4 [pt 0 0 0; pt 1 0 0; pt 2 0 0] (D 0) <> OutOfFuel
  /\ (forall st k,
         @sequence_run IEEE LinearScan 4 [pt 0 0 0; pt 1 0 0; pt 2 0 0] (D 0) = Finished (st, k) ->
         k <= 3 + 1)
  /\ (exists st k,
         @sequence_run IEEE LinearScan 4 [pt 0 0 0; pt 1 0 0; pt 2 0 0] (D 0) = Finished (st, k)
         /\ k <= 3 + 1).
Proof.
  destruct (@sequence_terminates IEEE LinearScan [pt 0 0 0; pt 1 0 0; pt 2 0 0] (D 0) 4
              (Nat.le_refl 4)) as (H1 & H2 & H3).
  split; [exact H1|]. split; [exact H2|].
  apply H3; [apply LinearScan_sound | discriminate].
Defined.

(** C9, as amended: on a cloud of at least two points, with a search that is
    sound and complete, [sequence] returns one path that holds every point of
    the input exactly once; and in every iteration the [erase]/[remove] call
    drops exactly the current index from the unsequenced indices. *)
Theorem sequence_covers_input {A : Arith} {K : KdTree}
        (cloud : list PointXYZ) (epsilon : dbl) :
  kd_sound K -> kd_complete K -> 2 <= length cloud ->
  (exists out, sequence cloud epsilon = Some out /\ Permutation out cloud)
  /\ (forall st, seq_reachable epsilon cloud st ->
                 exists u', erase_remove (search_point_idx st) (unsequenced_indices st) = Some u'
                            /\ drops_exactly (search_point_idx st) (unsequenced_indices st) u').
Proof.
  intros Hs Hc Hlen. split.
  - unfold sequence, sequence_run.
    destruct (sequence_init cloud) as [st0|] eqn:E0;
      [|destruct cloud; [simpl in Hlen; lia | discriminate]].
    pose proof (seq_inv_init cloud st0 E0) as Hinv.
    assert (Hu : length (unsequenced_indices st0) = S (length cloud - 1)).
    { unfold sequence_init in E0. apply bind_Some in E0. destruct E0 as (p & _ & E0).
      injection E0 as <-. simpl. rewrite length_seq. lia. }
    destruct (sequence_loop_complete epsilon cloud Hs Hc (length cloud - 1) st0 0
                (S (length cloud)) Hinv Hu ltac:(lia) ltac:(right; lia))
      as (st' & E & HP & HF).
    rewrite E. exists (sequenced_points st'). split; [reflexivity|].
    exact (points_of_indices cloud _ _ HF HP).
  - intros st Hr. pose proof (seq_reachable_inv epsilon cloud st Hs Hr) as Hinv.
    destruct (seq_body_step epsilon cloud st Hs Hinv) as (E & Hd & _).
    eexists. split; [exact E | exact Hd].
Qed.

Lemma sequence_covers_input_witness :
  (exists out, @sequence IEEE LinearScan [pt 0 0 0; pt 2 0 0; pt 1 0 0] (D 0) = Some out
               /\ Permutation out [pt 0 0 0; pt 2 0 0; pt 1 0 0])
  /\ (forall st, @seq_reachable IEEE LinearScan (D 0) [pt 0 0 0; pt 2 0 0; pt 1 0 0] st ->
                 exists u', erase_remove (search_point_idx st) (unsequenced_indices st) = Some u'
                            /\ drops_exactly (search_point_idx st) (unsequenced_indices st) u').
Proof.
  apply (@sequence_covers_input IEEE LinearScan [pt 0 0 0; pt 2 0 0; pt 1 0 0] (D 0)).
  - apply LinearScan_sound.
  - apply LinearScan_complete.
  - simpl. lia.
Defined.

(** A cloud of one point is sequenced into the empty path: the loop ends
    before the search point is saved. *)
Lemma sequence_single_point {A : Arith} {K : KdTree} (p : PointXYZ) (epsilon : dbl) :
  sequence [p] epsilon = Some [].
Proof. reflexivity. Qed.

(** C9 fails as stated: the path returned for a cloud of one point is empty. *)
Lemma sequence_loses_single_point :
  @sequence IEEE LinearScan [pt 5 7 0] (D 0) = Some []
  /\ ~ Permutation (@nil (PointXYZ_ spec_float)) [pt 5 7 0].
Proof.
  split; [reflexivity|]. intros H. apply Permutation_nil in H. discriminate.
Qed.

(** ** Splitting, classification and simplification of curves *)

Section CurveFacts.
Context {A : Arith}.

Lemma first_is_last_close (c : Curve) (f : PointXYZ) :
  front c = Some f -> first_is_last (c ++ [f]).
Proof.
  intros Hf. exists f. split; [|apply back_app_one].
  destruct c; [discriminate | exact Hf].
Qed.





(** Every segment that [split] returns has at least two points. *)
Lemma split_step_two_points (pts : list PointXYZ) (d : dbl) (st : nat * list Curve) (i : nat) :
  Forall (fun c => 2 <= length c) (snd st) ->
  Forall (fun c => 2 <= length c) (snd (split_step pts d st i)).
Proof.
  destruct st as [start_idx vec]. intros H. unfold split_step.
  destruct (match nth_error pts i with Some _ => _ | None => _ end); [exact H|].
  destruct (Nat.eqb i start_idx); [exact H|].
  destruct (Nat.leb_spec (length (save_segment (range pts start_idx i))) 1); [exact H|].
  cbn [snd] in *. apply Forall_app. split; [exact H|].
  constructor; [lia | constructor].
Qed.

Lemma split_two_points (pts : list PointXYZ) (d : dbl) :
  Forall (fun c => 2 <= length c) (split pts d).
Proof.
  unfold split.
  assert (G : forall idxs st, Forall (fun c => 2 <= length c) (snd st) ->
                Forall (fun c => 2 <= length c) (snd (fold_left (split_step pts d) idxs st))).
  { induction idxs as [|i idxs IH]; intros st H; [exact H|].
    simpl. apply IH. apply split_step_two_points. exact H. }
  apply G. constructor.
Qed.

Lemma findClosedCurves_closed (curves : list Curve) (max_dist : dbl) :
  forall closed open,
    findClosedCurves curves max_dist = Some (closed, open) ->
    Forall first_is_last closed.
Proof.
  induction curves as [|c curves IH]; intros closed open H; simpl in H.
  - injection H as <- <-. constructor.
  - apply bind_Some in H. destruct H as (f & Hf & H).
    apply bind_Some in H. destruct H as (b & Hb & H).
    apply bind_Some in H. destruct H as ([cl op] & Hr & H).
    specialize (IH cl op Hr).
    destruct (dltb (diff_norm f b) max_dist); injection H as <- <-; [|exact IH].
    constructor; [apply first_is_last_close; exact Hf | exact IH].
Qed.

(** [findClosedCurves] is defined on curves that have a point each. *)
Lemma findClosedCurves_defined (curves : list Curve) (max_dist : dbl) :
  Forall (fun c => 1 <= length c) curves ->
  exists closed open, findClosedCurves curves max_dist = Some (closed, open).
Proof.
  induction 1 as [|c curves Hc _ IH]; simpl; [eexists; eexists; reflexivity|].
  destruct IH as (cl & op & E). rewrite E.
  destruct c as [|p c]; [simpl in Hc; lia|]. cbn [front hd_error bind].
  destruct (back (p :: c)) as [b|] eqn:Eb; [|apply back_None in Eb; discriminate].
  cbn [bind]. destruct (dltb (diff_norm p b) max_dist); eexists; eexists; reflexivity.
Qed.

Lemma simplify_walk_apart (min_length : dbl) (interior : list PointXYZ) :
  forall p0, consecutive (farther_than min_length)
                         (p0 :: simplify_walk min_length p0 interior).
Proof.
  induction interior as [|p1 rest IH]; intros p0; [exact I|]. cbn [simplify_walk].
  destruct (dltb min_length (cast (norm3f (sub3f (getArray3fMap p0) (getArray3fMap p1)))))
           eqn:E; [|apply IH].
  split; [exact E | apply IH].
Qed.

Lemma simplify_segment_ends (min_length : dbl) (segment s : Curve) :
  simplify_segment min_length segment = Some s ->
  front s = front segment /\ back s = back segment
  /\ consecutive (farther_than min_length) (removelast s).
Proof.
  unfold simplify_segment. intros H.
  apply bind_Some in H. destruct H as (f & Hf & H).
  apply bind_Some in H. destruct H as (b & Hb & H).
  injection H as <-. split; [symmetry; exact Hf|]. split.
  - rewrite Hb. change (f :: ?l ++ [b]) with ((f :: l) ++ [b]). apply back_app_one.
  - change (f :: ?l ++ [b]) with ((f :: l) ++ [b]). rewrite removelast_last.
    apply simplify_walk_apart.
Qed.

Lemma simplify_segment_closed (min_length : dbl) (segment s : Curve) :
  simplify_segment min_length segment = Some s ->
  first_is_last segment -> first_is_last s.
Proof.
  intros H (p & Hf & Hb). destruct (simplify_segment_ends _ _ _ H) as (E1 & E2 & _).
  exists p. rewrite E1, E2. split; assumption.
Qed.

End CurveFacts.

(** ** Combining open curves *)

Section CombineFacts.
Context {A : Arith}.
Variable cfg : RegionDetectionConfig.

Lemma is_merged_In (i : nat) (l : list nat) : is_merged i l = true <-> In i l.
Proof.
  unfold is_merged. rewrite existsb_exists. split.
  - intros (x & Hx & E). apply Nat.eqb_eq in E. subst x. exact Hx.
  - intros H. exists i. split; [exact H | apply Nat.eqb_refl].
Qed.

Lemma insert_unique_In (x n : nat) (l : list nat) :
  In x (insert_unique n l) <-> x = n \/ In x l.
Proof.
  induction l as [|m l IH]; simpl; [intuition congruence|].
  destruct (Nat.ltb n m); [simpl; intuition congruence|].
  destruct (Nat.eqb_spec n m) as [->|Hne]; simpl; [intuition congruence|].
  rewrite IH. intuition congruence.
Qed.

Lemma sort_unique_In (x : nat) (l : list nat) : In x (sort_unique l) <-> In x l.
Proof.
  induction l as [|n l IH]; simpl; [reflexivity|].
  rewrite insert_unique_In, IH. intuition congruence.
Qed.

(** A pass over the candidates only adds merged indices, and when it sets the
    flag it has merged a candidate that was not merged before. *)
Lemma merge_pass_grows (contours : list Curve) (i : nat) (candidates : list nat) :
  forall c merged flag c' merged' flag',
    merge_pass cfg contours i candidates (c, merged, flag) = Some (c', merged', flag') ->
    (forall x, In x merged -> In x merged')
    /\ (flag' = true ->
        flag = true \/ exists idx, In idx candidates /\ ~ In idx merged /\ In idx merged').
Proof.
  induction candidates as [|idx rest IH]; intros c merged flag c' merged' flag' H.
  - simpl in H. injection H as <- <- <-. split; [auto | intros ->; left; reflexivity].
  - cbn [merge_pass] in H.
    destruct (is_merged idx merged) eqn:Em.
    + destruct (IH _ _ _ _ _ _ H) as [H1 H2]. split; [exact H1|].
      intros Hf. destruct (H2 Hf) as [Hl|(j & Hj & Hr)]; [left; exact Hl|].
      right. exists j. split; [right; exact Hj | exact Hr].
    + apply bind_Some in H. destruct H as (next & _ & H).
      apply bind_Some in H. destruct H as (r & _ & H).
      assert (Hnot : ~ In idx merged).
      { intros Hin. apply is_merged_In in Hin. rewrite Hin in Em. discriminate. }
      destruct r as [m|].
      * destruct (IH _ _ _ _ _ _ H) as [H1 _].
        assert (Hsub : forall x, In x (merged ++ [i; idx]) -> In x merged').
        { intros x Hx. apply H1. apply sort_unique_In. exact Hx. }
        split.
        -- intros x Hx. apply Hsub. apply in_or_app. left. exact Hx.
        -- intros _. right. exists idx. split; [left; reflexivity|]. split; [exact Hnot|].
           apply Hsub. apply in_or_app. right. right. left. reflexivity.
      * destruct (IH _ _ _ _ _ _ H) as [H1 H2]. split.
        -- intros x Hx. apply H1. apply sort_unique_In. exact Hx.
        -- intros Hf. destruct (H2 Hf) as [Hl|(j & Hj & Hn & Hr)]; [left; exact Hl|].
           right. exists j. split; [right; exact Hj|]. split; [|exact Hr].
           intros Hin. apply Hn. apply sort_unique_In. exact Hin.
Qed.

(** The candidates that are not merged yet. *)
Lemma filter_length_le {X : Type} (f g : X -> bool) (l : list X) :
  (forall x, In x l -> g x = true -> f x = true) ->
  length (filter g l) <= length (filter f l).
Proof.
  induction l as [|a l IH]; intros H; [apply Nat.le_refl|]. simpl.
  assert (IH' : length (filter g l) <= length (filter f l))
    by (apply IH; intros x Hx; apply H; right; exact Hx).
  destruct (g a) eqn:Eg.
  - rewrite (H a (or_introl eq_refl) Eg). simpl. lia.
  - destruct (f a); simpl; lia.
Qed.

Lemma filter_length_lt {X : Type} (f g : X -> bool) (l : list X) (a : X) :
  (forall x, In x l -> g x = true -> f x = true) ->
  In a l -> f a = true -> g a = false ->
  length (filter g l) < length (filter f l).
Proof.
  induction l as [|b l IH]; intros H Hin Hf Hg; [destruct Hin|]. simpl.
  assert (Hle : length (filter g l) <= length (filter f l))
    by (apply filter_length_le; intros x Hx; apply H; right; exact Hx).
  destruct Hin as [->|Hin].
  - rewrite Hf, Hg. simpl. lia.
  - assert (IH' : length (filter g l) < length (filter f l))
      by (apply IH; try assumption; intros x Hx; apply H; right; exact Hx).
    destruct (g b) eqn:Eg.
    + rewrite (H b (or_introl eq_refl) Eg). simpl. lia.
    + destruct (f b); simpl; lia.
Qed.

(** The [do ... while] loop makes at most one pass per candidate left
    unmerged, and one more. *)
Lemma merge_loop_total (contours : list Curve) (i : nat) (candidates : list nat)
      (fuel : nat) :
  forall c merged,
    length (filter (fun idx => negb (is_merged idx merged)) candidates) < fuel ->
    merge_loop cfg fuel contours i candidates c merged <> OutOfFuel.
Proof.
  induction fuel as [|fuel IH]; intros c merged Hlt; [lia|]. simpl.
  destruct (merge_pass cfg contours i candidates (c, merged, false))
    as [[[c' merged'] flag']|] eqn:E; [|discriminate].
  destruct flag'; [|discriminate].
  destruct (merge_pass_grows _ _ _ _ _ _ _ _ _ E) as [H1 H2].
  destruct (H2 eq_refl) as [Hf|(idx & Hin & Hn & Hm)]; [discriminate|].
  apply IH.
  assert (length (filter (fun j => negb (is_merged j merged')) candidates)
          < length (filter (fun j => negb (is_merged j merged)) candidates)); [|lia].
  apply (filter_length_lt _ _ _ idx).
  - intros x _ Hx. apply negb_true_iff in Hx. apply negb_true_iff.
    apply not_true_is_false. intros Hm'. apply is_merged_In in Hm'.
    apply H1 in Hm'. apply is_merged_In in Hm'. rewrite Hm' in Hx. discriminate.
  - exact Hin.
  - apply negb_true_iff. apply not_true_is_false. intros Hm'.
    apply is_merged_In in Hm'. contradiction.
  - apply negb_false_iff. apply is_merged_In. exact Hm.
Qed.

Lemma merge_candidates_length (n i : nat) : i < n -> length (merge_candidates n i) = n - 1.
Proof. intros H. unfold merge_candidates. rewrite length_app, !length_seq. lia. Qed.

(** The bound on the passes that [combine_step] uses is never reached. *)
Lemma combine_step_fuel (contours : list Curve) (i : nat) (c : Curve) (merged : list nat) :
  i < length contours ->
  merge_loop cfg (S (length contours)) contours i
             (merge_candidates (length contours) i) c merged <> OutOfFuel.
Proof.
  intros Hi. apply merge_loop_total.
  pose proof (filter_length_le (fun _ => true)
                (fun idx => negb (is_merged idx merged))
                (merge_candidates (length contours) i) (fun _ _ _ => eq_refl)) as H.
  assert (E : filter (fun _ : nat => true) (merge_candidates (length contours) i)
              = merge_candidates (length contours) i).
  { clear. induction (merge_candidates (length contours) i) as [|a l IH];
      [reflexivity | simpl; f_equal; exact IH]. }
  rewrite E, merge_candidates_length in H by exact Hi. lia.
Qed.

Lemma combine_step_closed (contours : list Curve) (i : nat) :
  forall merged closed open merged' closed' open',
    combine_step cfg contours (merged, closed, open) i = Some (merged', closed', open') ->
    Forall first_is_last closed -> Forall first_is_last closed'.
Proof.
  intros merged closed open merged' closed' open' H Hc. unfold combine_step in H.
  destruct (is_merged i merged); [injection H as <- <- <-; exact Hc|].
  apply bind_Some in H. destruct H as (c & _ & H).
  destruct (merge_loop cfg (S (length contours)) contours i
              (merge_candidates (length contours) i) c merged) as [[c' m']| |];
    try discriminate.
  apply bind_Some in H. destruct H as (f & Hf & H).
  apply bind_Some in H. destruct H as (b & _ & H).
  destruct (dltb (diff_norm f b) (closed_curve_max_dist (pcl_cfg cfg)));
    injection H as <- <- <-; [|exact Hc].
  apply Forall_app. split; [exact Hc|].
  constructor; [apply first_is_last_close; exact Hf | constructor].
Qed.

Lemma combine_loop_closed (contours : list Curve) (todo : list nat) :
  forall merged closed open merged' closed' open',
    combine_loop cfg contours todo (merged, closed, open) = Some (merged', closed', open') ->
    Forall first_is_last closed -> Forall first_is_last closed'.
Proof.
  induction todo as [|i todo IH]; intros merged closed open merged' closed' open' H Hc.
  - simpl in H. injection H as <- <- <-. exact Hc.
  - simpl in H. apply bind_Some in H. destruct H as ([[m1 c1] o1] & H1 & H).
    apply (IH _ _ _ _ _ _ H). exact (combine_step_closed _ _ _ _ _ _ _ _ H1 Hc).
Qed.

Lemma combineIntoClosedRegions_closed (contours : list Curve) (res : Result)
      (closed open : list Curve) :
  combineIntoClosedRegions cfg contours = Some (res, closed, open) ->
  Forall first_is_last closed.
Proof.
  unfold combineIntoClosedRegions. intros H.
  apply bind_Some in H. destruct H as ([[m c] o] & H1 & H).
  pose proof (combine_loop_closed _ _ _ _ _ _ _ _ H1 (Forall_nil _)) as Hc.
  destruct c; injection H as _ <- _; exact Hc.
Qed.

End CombineFacts.

(** ** [combineIntoClosedRegions] returns on curves that have points *)

Section CombineDefined.
Context {A : Arith}.
Variable cfg : RegionDetectionConfig.

Lemma mergeCurves_defined (max_dist : dbl) (c1 c2 : Curve) :
  c1 <> [] -> c2 <> [] ->
  exists r, mergeCurves max_dist c1 c2 = Some r
            /\ match r with Some m => m <> [] | None => True end.
Proof.
  intros H1 H2. unfold mergeCurves.
  destruct c1 as [|p1 c1]; [contradiction|]. destruct c2 as [|p2 c2]; [contradiction|].
  cbn [front hd_error bind].
  destruct (back (p1 :: c1)) as [b1|] eqn:E1; [|apply back_None in E1; discriminate].
  destruct (back (p2 :: c2)) as [b2|] eqn:E2; [|apply back_None in E2; discriminate].
  cbn [bind].
  destruct (min_element_from 0 (diff_norm p1 p2) 1
              [diff_norm p1 b2; diff_norm b1 p2; diff_norm b1 b2]) as [m d].
  destruct (dltb max_dist d); [exists None; split; [reflexivity | exact I]|].
  eexists. split; [reflexivity|].
  destruct m as [|[|[|m]]]; intros E; apply app_eq_nil in E; destruct E; discriminate.
Qed.

Lemma merge_pass_defined (contours : list Curve) (i : nat) (candidates : list nat) :
  Forall (fun c => c <> []) contours ->
  (forall idx, In idx candidates -> idx < length contours) ->
  forall (c : Curve) (merged : list nat) (flag : bool),
    c <> [] ->
    exists (c' : Curve) (merged' : list nat) (flag' : bool),
      merge_pass cfg contours i candidates (c, merged, flag) = Some (c', merged', flag')
      /\ c' <> [].
Proof.
  intros Hne. induction candidates as [|idx rest IH]; intros Hb c merged flag Hc.
  - exists c, merged, flag. split; [reflexivity | exact Hc].
  - cbn [merge_pass].
    assert (Hb' : forall j, In j rest -> j < length contours)
      by (intros j Hj; apply Hb; right; exact Hj).
    destruct (is_merged idx merged); [apply IH; assumption|].
    destruct (nth_error contours idx) as [next|] eqn:En;
      [|apply nth_error_None in En; specialize (Hb idx (or_introl eq_refl)); lia].
    cbn [bind].
    assert (Hn : next <> []).
    { rewrite Forall_forall in Hne. apply Hne. eapply nth_error_In. exact En. }
    destruct (mergeCurves_defined (max_merge_dist (pcl_cfg cfg)) c next Hc Hn) as (r & Er & Hr).
    rewrite Er. cbn [bind]. destruct r as [m|]; apply IH; assumption.
Qed.

Lemma merge_loop_S (contours : list Curve) (i : nat) (candidates : list nat) (fuel : nat)
      (c : Curve) (merged : list nat) :
  merge_loop cfg (S fuel) contours i candidates c merged
  = match merge_pass cfg contours i candidates (c, merged, false) with
    | None => Undefined
    | Some (c', merged', true) => merge_loop cfg fuel contours i candidates c' merged'
    | Some (c', merged', false) => Finished (c', merged')
    end.
Proof. reflexivity. Qed.

Lemma merge_loop_defined (contours : list Curve) (i : nat) (candidates : list nat) (fuel : nat) :
  Forall (fun c => c <> []) contours ->
  (forall idx, In idx candidates -> idx < length contours) ->
  forall c merged,
    c <> [] ->
    merge_loop cfg fuel contours i candidates c merged <> OutOfFuel ->
    exists c' merged',
      merge_loop cfg fuel contours i candidates c merged = Finished (c', merged')
      /\ c' <> [].
Proof.
  intros Hne Hb. induction fuel as [|fuel IH]; intros c merged Hc Hf; [contradiction|].
  rewrite merge_loop_S in Hf.
  destruct (merge_pass_defined contours i candidates Hne Hb c merged false Hc)
    as (c' & merged' & flag' & E & Hc').
  rewrite E in Hf. destruct flag'.
  2:{ exists c', merged'. split; [rewrite merge_loop_S, E; reflexivity | exact Hc']. }
  destruct (IH c' merged' Hc' Hf) as (c2 & m2 & E2 & Hc2).
  exists c2, m2. split; [rewrite merge_loop_S, E; exact E2 | exact Hc2].
Qed.

Lemma merge_candidates_bound (n i idx : nat) :
  i < n -> In idx (merge_candidates n i) -> idx < n.
Proof.
  intros Hi H. unfold merge_candidates in H. apply in_app_or in H.
  destruct H as [H|H]; apply in_seq in H; lia.
Qed.

Lemma combine_step_defined (contours : list Curve) (i : nat)
      (st : list nat * list Curve * list Curve) :
  Forall (fun c => c <> []) contours -> i < length contours ->
  exists st', combine_step cfg contours st i = Some st'.
Proof.
  intros Hne Hi. destruct st as [[merged closed] open]. unfold combine_step.
  destruct (is_merged i merged); [eexists; reflexivity|].
  destruct (nth_error contours i) as [c|] eqn:Ec; [|apply nth_error_None in Ec; lia].
  cbn [bind].
  assert (Hc : c <> []).
  { rewrite Forall_forall in Hne. apply Hne. eapply nth_error_In. exact Ec. }
  destruct (merge_loop_defined contours i (merge_candidates (length contours) i)
              (S (length contours)) Hne
              (fun idx => merge_candidates_bound (length contours) i idx Hi)
              c merged Hc (combine_step_fuel cfg contours i c merged Hi))
    as (c' & merged' & E & Hc').
  rewrite E. destruct c' as [|p c']; [contradiction|]. cbn [front hd_error bind].
  destruct (back (p :: c')) as [b|] eqn:Eb; [|apply back_None in Eb; discriminate].
  cbn [bind]. destruct (dltb _ _); eexists; reflexivity.
Qed.

Lemma combine_loop_defined (contours : list Curve) (todo : list nat) :
  Forall (fun c => c <> []) contours ->
  (forall i, In i todo -> i < length contours) ->
  forall st, exists st', combine_loop cfg contours todo st = Some st'.
Proof.
  intros Hne. induction todo as [|i todo IH]; intros Hb st; [eexists; reflexivity|].
  simpl. destruct (combine_step_defined contours i st Hne (Hb i (or_introl eq_refl)))
    as (st1 & E1).
  rewrite E1. cbn [bind]. apply IH. intros j Hj. apply Hb. right. exact Hj.
Qed.

(** On curves that each have a point the function returns: the bound on the
    passes of the inner loop is not reached and no end point of an empty curve
    is read. *)
Lemma combineIntoClosedRegions_defined (contours : list Curve) :
  Forall (fun c => c <> []) contours ->
  exists res closed open, combineIntoClosedRegions cfg contours = Some (res, closed, open).
Proof.
  intros Hne. unfold combineIntoClosedRegions.
  destruct (combine_loop_defined contours (seq 0 (length contours)) Hne
              (fun i Hi => proj2 (proj1 (in_seq _ _ _) Hi)) ([], [], []))
    as ([[merged closed] open] & E).
  rewrite E. cbn [bind]. destruct closed; eexists; eexists; eexists; reflexivity.
Qed.

End CombineDefined.

(** ** The smallest end point distance over the real numbers *)

Lemma min_element_from_exact (l : list R) :
  forall (best_pos pos : nat) (best : R),
    snd (@min_element_from Exact best_pos best pos l) = fold_left Rmin l best.
Proof.
  induction l as [|d l IH]; intros best_pos pos best; [reflexivity|].
  cbn [min_element_from fold_left]. cbn [dltb Exact]. unfold Rltb.
  destruct (Rlt_dec d best) as [Hlt|Hge]; rewrite IH.
  - rewrite Rmin_right by lra. reflexivity.
  - rewrite Rmin_left by lra. reflexivity.
Qed.

(** Over the real numbers the curves are merged exactly when the smallest of
    the four end point distances is at most [max_merge_dist]. *)
Lemma mergeCurves_exact (max_dist : R) (c1 c2 : list (PointXYZ_ R)) (f1 b1 f2 b2 : PointXYZ_ R) :
  front c1 = Some f1 -> back c1 = Some b1 -> front c2 = Some f2 -> back c2 = Some b2 ->
  let dmin := Rmin (Rmin (Rmin (@diff_norm Exact f1 f2) (@diff_norm Exact f1 b2))
                         (@diff_norm Exact b1 f2))
                   (@diff_norm Exact b1 b2) in
  @min_end_point_distance Exact c1 c2 = Some dmin
  /\ ((exists m, @mergeCurves Exact max_dist c1 c2 = Some (Some m)) <-> (dmin <= max_dist)%R).
Proof.
  intros Hf1 Hb1 Hf2 Hb2 dmin.
  assert (E : @min_end_point_distance Exact c1 c2 = Some dmin).
  { unfold min_end_point_distance. change (@flt Exact) with R.
    rewrite Hf1, Hf2, Hb1, Hb2. cbn [bind].
    rewrite min_element_from_exact. reflexivity. }
  split; [exact E|].
  rewrite (@mergeCurves_cases Exact max_dist c1 c2 dmin E).
  cbn [dltb Exact]. unfold Rltb.
  destruct (Rlt_dec max_dist dmin) as [Hlt|Hge].
  - split; [|lra]. intros (m & Em). discriminate.
  - split; [intros _; lra|]. intros _. eexists. reflexivity.
Qed.

(** ** Poses and the result of [compute] *)

Section ComputeFacts.
Context {A : Arith} {K : KdTree} {P : PCL} {O : OpenCV}.
Variable cfg : RegionDetectionConfig.

Lemma front_map {X Y : Type} (f : X -> Y) (l : list X) :
  front (map f l) = option_map f (front l).
Proof. destruct l; reflexivity. Qed.

Lemma back_map {X Y : Type} (f : X -> Y) (l : list X) :
  back (map f l) = option_map f (back l).
Proof.
  induction l as [|a l IH]; [reflexivity|].
  destruct l as [|b l]; [reflexivity|]. cbn [map]. rewrite !back_cons. exact IH.
Qed.

(** The poses of a curve sit on its vertices, in order. *)
Lemma pose_loop_positions (curve : Curve) (curve_normals : list Normal) (indices : list nat) :
  forall poses,
    pose_loop curve curve_normals indices = Some poses ->
    map Some (positions poses)
    = map (fun i => option_map position (nth_error curve i)) indices.
Proof.
  induction indices as [|i rest IH]; intros poses H; simpl in H.
  - injection H as <-. reflexivity.
  - apply bind_Some in H. destruct H as (p & Hp & H).
    apply bind_Some in H. destruct H as (ps & Hps & H). injection H as <-.
    cbn [positions map]. f_equal; [|apply IH; exact Hps].
    unfold pose_at in Hp.
    apply bind_Some in Hp. destruct Hp as (idx_next & _ & Hp).
    apply bind_Some in Hp. destruct Hp as (p1 & Hp1 & Hp).
    apply bind_Some in Hp. destruct Hp as (n1 & _ & Hp).
    apply bind_Some in Hp. destruct Hp as (p2 & _ & Hp).
    apply bind_Some in Hp. destruct Hp as (n2 & _ & Hp).
    injection Hp as <-. rewrite Hp1. reflexivity.
Qed.

Lemma curve_poses_positions (curve : Curve) (curve_normals : list Normal) (poses : list Pose) :
  curve_poses curve curve_normals = Some poses ->
  positions poses = map position curve.
Proof.
  unfold curve_poses. intros H. apply pose_loop_positions in H.
  apply map_Some_inj. rewrite H.
  rewrite <- (map_map (nth_error curve) (option_map position)), map_nth_error_seq.
  rewrite !map_map. reflexivity.
Qed.

Lemma positions_first_is_last (curve : Curve) (poses : list Pose) :
  positions poses = map position curve ->
  first_is_last curve -> poses_first_is_last poses.
Proof.
  intros E (p & Hf & Hb). exists (position p).
  rewrite E, front_map, back_map, Hf, Hb. split; reflexivity.
Qed.

(** [computePoses] appends pose sequences that sit on curves it was given. *)
Lemma computePoses_appends (source_normal_cloud : list PointNormal) (curves : list Curve) :
  forall acc res out,
    computePoses cfg source_normal_cloud curves acc = Some (res, out) ->
    exists added,
      out = acc ++ added
      /\ Forall (fun poses => exists c, In c curves /\ positions poses = map position c) added.
Proof.
  induction curves as [|c curves IH]; intros acc res out H; simpl in H.
  - injection H as _ <-. exists []. split; [symmetry; apply app_nil_r | constructor].
  - apply bind_Some in H. destruct H as (r & _ & H).
    destruct r as [ns|].
    + apply bind_Some in H. destruct H as (ps & Hps & H).
      destruct (IH _ _ _ H) as (added & E & HF). exists (ps :: added). split.
      * rewrite E, <- app_assoc. reflexivity.
      * constructor.
        -- exists c. split; [left; reflexivity|]. exact (curve_poses_positions _ _ _ Hps).
        -- eapply Forall_impl; [|exact HF]. intros poses (c' & Hin & E').
           exists c'. split; [right; exact Hin | exact E'].
    + injection H as _ <-. exists []. split; [symmetry; apply app_nil_r | constructor].
Qed.

Lemma simplifyByMinimunLength_Forall (Q : Curve -> Prop) (min_length : dbl) :
  (forall seg s, simplify_segment min_length seg = Some s -> Q seg -> Q s) ->
  forall segments out,
    simplifyByMinimunLength segments min_length = Some out ->
    Forall Q segments -> Forall Q out.
Proof.
  intros HQ. induction segments as [|seg segments IH]; intros out H HF; simpl in H.
  - injection H as <-. constructor.
  - apply bind_Some in H. destruct H as (s & Hs & H).
    apply bind_Some in H. destruct H as (r & Hr & H). injection H as <-.
    inversion HF as [|? ? Hq HF']; subst.
    constructor; [exact (HQ _ _ Hs Hq) | exact (IH _ Hr HF')].
Qed.

Lemma Forall_filter {X : Type} (Q : X -> Prop) (f : X -> bool) (l : list X) :
  Forall Q l -> Forall Q (filter f l).
Proof.
  induction 1 as [|a l Ha _ IH]; simpl; [constructor|].
  destruct (f a); [constructor; assumption | exact IH].
Qed.

(** The part of [compute] after the loop: the value returned tells whether
    [closed_regions_poses] is empty, the images are left alone, and the closed
    regions added sit on closed curves whenever the closed curves gathered from
    the bundles are closed. *)
Lemma assemble_result (regions : RegionResults) (g : Gathered) (b : bool) (r : RegionResults) :
  assemble cfg regions g = Some (b, r) ->
  (b = true <-> closed_regions_poses r <> [])
  /\ images r = images regions
  /\ (Forall first_is_last (closed_contours_points g) ->
      exists added, closed_regions_poses r = closed_regions_poses regions ++ added
                    /\ Forall poses_first_is_last added).
Proof.
  unfold assemble. intros H.
  apply bind_Some in H. destruct H as ([[res closed_curves] open_curves] & Hc & H).
  apply bind_Some in H. destruct H as (closed & Hsc & H).
  apply bind_Some in H. destruct H as (open & Hso & H).
  apply bind_Some in H. destruct H as ([res1 open_poses] & Hpo & H).
  apply bind_Some in H. destruct H as ([res2 closed_poses] & Hpc & H).
  injection H as <- <-. cbn [closed_regions_poses images].
  split; [|split; [reflexivity|]].
  - destruct closed_poses; simpl; split; congruence.
  - intros Hg.
    destruct (computePoses_appends _ _ _ _ _ Hpc) as (added & E & HF).
    exists added. split; [exact E|].
    assert (Hcl : Forall first_is_last closed).
    { apply (simplifyByMinimunLength_Forall first_is_last _
               (fun seg s => simplify_segment_closed _ seg s) _ _ Hsc).
      apply Forall_app. split; [exact Hg|].
      exact (combineIntoClosedRegions_closed cfg _ _ _ _ Hc). }
    eapply Forall_impl; [|exact HF]. intros poses (c & Hin & Ep).
    apply (positions_first_is_last c); [exact Ep|].
    apply filter_In in Hin. destruct Hin as [Hin _].
    rewrite Forall_forall in Hcl. exact (Hcl c Hin).
Qed.

(** The loop over the bundles adds no poses, and one image per bundle it
    has started on. *)
Lemma bundles_loop_regions (input : list DataBundle) :
  forall (regions : RegionResults) (g : Gathered) r,
    bundles_loop cfg input regions g = Some r ->
    let regions' := match r with inl x => x | inr (x, _) => x end in
    closed_regions_poses regions' = closed_regions_poses regions
    /\ open_regions_poses regions' = open_regions_poses regions
    /\ exists k,
        images regions' = images regions ++ map (diagnostic_image cfg) (firstn k input)
        /\ k <= length input
        /\ match r with inl _ => 1 <= k | inr _ => k = length input end.
Proof.
  induction input as [|data rest IH]; intros regions g r H; simpl in H.
  - injection H as <-. cbn zeta. split; [reflexivity|]. split; [reflexivity|].
    exists 0. simpl. rewrite app_nil_r. auto.
  - destruct (compute2dContours cfg (image data)) as [[res contours] output] eqn:E2.
    assert (Eo : diagnostic_image cfg data = output)
      by (unfold diagnostic_image; rewrite E2; reflexivity).
    assert (Fail : forall k', k' = 1 ->
              closed_regions_poses (add_image regions output) = closed_regions_poses regions
              /\ open_regions_poses (add_image regions output) = open_regions_poses regions
              /\ exists k, images (add_image regions output)
                           = images regions ++ map (diagnostic_image cfg) (firstn k (data :: rest))
                           /\ k <= length (data :: rest) /\ 1 <= k).
    { intros k' _. split; [reflexivity|]. split; [reflexivity|].
      exists 1. simpl. rewrite Eo. split; [reflexivity | lia]. }
    destruct (negb (succeeded res)).
    + injection H as <-. apply (Fail 1 eq_refl).
    + apply bind_Some in H. destruct H as (rb & _ & H).
      destruct rb as [[]|g'].
      * injection H as <-. apply (Fail 1 eq_refl).
      * specialize (IH _ _ _ H). cbn zeta in *.
        destruct IH as (Ec & Eop & k & Ei & Hk & Hr).
        split; [exact Ec|]. split; [exact Eop|].
        exists (S k). split; [|split; [simpl; lia | destruct r as [|[]]; simpl; lia]].
        rewrite Ei. simpl. rewrite Eo, <- app_assoc. reflexivity.
Qed.

(** The body of the loop, written with its stages. *)
Lemma bundle_curves_stages (data : DataBundle) (contours_indices : list (list CvPoint))
      (g : Gathered) :
  bundle_curves cfg data contours_indices g
  = ('(closed_indices_curves_vec, open_indices_curves_vec, indices) <-
       pixel_curves cfg contours_indices ;;
     '(res, contours_points) <- extractContoursFromCloud indices (bundle_cloud data) ;;
     if negb (succeeded res) then Some (inl tt)
     else
       let contours_points := map (clean_contour cfg) contours_points in
       '(res, contours_point_normals) <-
          computeNormals cfg (bundle_cloud data) contours_points ;;
       if negb (succeeded res) then Some (inl tt)
       else
         let n_closed := length closed_indices_curves_vec in
         let closed' :=
           match closed_indices_curves_vec with
           | [] => closed_contours_points g
           | _ :: _ => closed_contours_points g ++ firstn n_closed contours_points
           end in
         let open' :=
           match open_indices_curves_vec with
           | [] => open_contours_points g
           | _ :: _ => open_contours_points g ++ skipn n_closed contours_points
           end in
         Some (inr (mkGathered closed' open' (normals g ++ concat contours_point_normals)))).
Proof.
  unfold bundle_curves, pixel_curves, bundle_cloud.
  destruct (mapM interpolate_contour contours_indices) as [ci|]; [|reflexivity]. cbn [bind].
  destruct (mapM _ _) as [clouds|]; [|reflexivity]. cbn [bind].
  destruct (findClosedCurves _ _) as [[closed open]|]; [|reflexivity]. cbn [bind].
  destruct (mapM _ closed) as [closed'|]; [|reflexivity]. cbn [bind].
  destruct (mapM convertCloudTo2DContour (closed' ++ open)) as [indices|]; reflexivity.
Qed.

(** A bundle with a failing stage makes the loop return. *)
Lemma stage_fails_step (data : DataBundle) (rest : list DataBundle)
      (regions : RegionResults) (g : Gathered) :
  stage_fails cfg data = true ->
  bundles_loop cfg (data :: rest) regions g
  = Some (inl (add_image regions (diagnostic_image cfg data))).
Proof.
  unfold stage_fails, diagnostic_image. cbn [bundles_loop].
  destruct (compute2dContours cfg (image data)) as [[res contours] output]. cbn [snd].
  destruct (succeeded res); cbn [negb orb]; [|reflexivity].
  rewrite bundle_curves_stages.
  destruct (pixel_curves cfg contours) as [[[closed open] indices]|]; [|discriminate].
  cbn [bind].
  destruct (extractContoursFromCloud indices (bundle_cloud data)) as [[res' cs]|];
    [|discriminate].
  cbn [bind]. destruct (succeeded res'); cbn [negb orb]; [|reflexivity].
  destruct (computeNormals cfg (bundle_cloud data) (map (clean_contour cfg) cs))
    as [[res'' ns]|]; [|discriminate].
  cbn [bind]. destruct (succeeded res''); cbn [negb]; [discriminate | reflexivity].
Qed.

(** A bundle whose stages pass sends the loop on to the next bundle. *)
Lemma stages_pass_step (data : DataBundle) (rest : list DataBundle)
      (regions : RegionResults) (g : Gathered) :
  stages_pass cfg data = true ->
  exists g',
    bundles_loop cfg (data :: rest) regions g
    = bundles_loop cfg rest (add_image regions (diagnostic_image cfg data)) g'.
Proof.
  unfold stages_pass, diagnostic_image. cbn [bundles_loop].
  destruct (compute2dContours cfg (image data)) as [[res contours] output]. cbn [snd].
  destruct (succeeded res); cbn [negb andb]; [|discriminate].
  rewrite bundle_curves_stages.
  destruct (pixel_curves cfg contours) as [[[closed open] indices]|]; [|discriminate].
  cbn [bind].
  destruct (extractContoursFromCloud indices (bundle_cloud data)) as [[res' cs]|];
    [|discriminate].
  cbn [bind]. destruct (succeeded res'); cbn [negb andb]; [|discriminate].
  destruct (computeNormals cfg (bundle_cloud data) (map (clean_contour cfg) cs))
    as [[res'' ns]|]; [|discriminate].
  cbn [bind]. destruct (succeeded res''); cbn [negb]; [|discriminate].
  intros _. eexists. reflexivity.
Qed.

Lemma passing_bundles (before : list DataBundle) :
  forallb (stages_pass cfg) before = true ->
  forall (rest : list DataBundle) (regions : RegionResults) (g : Gathered),
  exists g',
    bundles_loop cfg (before ++ rest) regions g
    = bundles_loop cfg rest
        (mkRegionResults (closed_regions_poses regions) (open_regions_poses regions)
                         (images regions ++ map (diagnostic_image cfg) before)) g'.
Proof.
  induction before as [|data before IH]; intros Hpass rest regions g.
  - exists g. destruct regions as [c o i]. cbn [app map closed_regions_poses
      open_regions_poses images]. rewrite app_nil_r. reflexivity.
  - cbn [forallb] in Hpass. apply andb_true_iff in Hpass. destruct Hpass as [Hd Hpass].
    cbn [app]. destruct (stages_pass_step data (before ++ rest) regions g Hd) as (g1 & ->).
    destruct (IH Hpass rest (add_image regions (diagnostic_image cfg data)) g1) as (g' & ->).
    exists g'. unfold add_image. cbn [closed_regions_poses open_regions_poses images map].
    rewrite <- app_assoc. reflexivity.
Qed.

(** The loop returns early on an input that holds a bundle with a failing
    stage. *)
Lemma failing_bundle_stops (data : DataBundle) (input : list DataBundle) :
  In data input -> stage_fails cfg data = true ->
  forall (regions : RegionResults) (g : Gathered) r,
    bundles_loop cfg input regions g = Some r -> exists regions', r = inl regions'.
Proof.
  intros Hin Hfail. induction input as [|d rest IH]; intros regions g r H; [contradiction|].
  destruct Hin as [->|Hin].
  - rewrite (stage_fails_step data rest regions g Hfail) in H. injection H as <-.
    eexists. reflexivity.
  - cbn [bundles_loop] in H.
    destruct (compute2dContours cfg (image d)) as [[res contours] output].
    destruct (negb (succeeded res)); [injection H as <-; eexists; reflexivity|].
    apply bind_Some in H. destruct H as (rb & _ & H).
    destruct rb as [[]|g']; [injection H as <-; eexists; reflexivity|].
    exact (IH Hin _ _ _ H).
Qed.

End ComputeFacts.

(** ** The result of [compute] *)

(** C1: [compute], called with a result that holds no closed regions yet,
    returns [true] exactly when the result it leaves holds at least one closed
    region. *)
Theorem compute_success_iff_closed_region
        {A : Arith} {K : KdTree} {P : PCL} {O : OpenCV}
        (cfg : RegionDetectionConfig) (input : list DataBundle)
        (regions : RegionResults) (b : bool) (r : RegionResults) :
  closed_regions_poses regions = [] ->
  compute cfg input regions = Some (b, r) ->
  (b = true <-> closed_regions_poses r <> []).
Proof.
  intros Hempty H. unfold compute in H.
  apply bind_Some in H. destruct H as (rl & Hl & H).
  destruct (bundles_loop_regions cfg input _ _ _ Hl) as (Ec & _).
  destruct rl as [regions'|[regions' g]].
  - injection H as <- <-. cbn zeta in Ec. rewrite Ec, Hempty.
    split; [discriminate | intros Hne; contradiction].
  - apply (assemble_result cfg regions' g b r H).
Qed.

Lemma compute_success_iff_closed_region_witness :
  exists r,
    test_compute (fun c => c) scene_cfg [test_bundle [ring] (plane 3 3)] no_regions
    = Some (true, r)
    /\ (true = true <-> closed_regions_poses r <> []).
Proof.
  eexists. split; [vm_compute; reflexivity|].
  apply (@compute_success_iff_closed_region IEEE LinearScan (TestPCL (fun c => c) up) TestCV
           scene_cfg [test_bundle [ring] (plane 3 3)] no_regions true _ eq_refl).
  vm_compute. reflexivity.
Defined.

(** C2, as amended: when a stage inside the loop over the bundles fails
    for a bundle (the 2D contours, the extraction from the cloud, the
    normals), [compute] returns [false] at once and has added no poses to the
    result; the diagnostic images of the bundles up to and including the
    failing one have been added.  When the stages of the bundles before it
    pass, [compute] returns with exactly these images, whatever follows the
    failing bundle; in any case a run that returns on an input with such a
    bundle returns [false], with the poses it was given and one image for each
    bundle it has started on. *)
Theorem compute_stage_failure
        {A : Arith} {K : KdTree} {P : PCL} {O : OpenCV}
        (cfg : RegionDetectionConfig) (data : DataBundle) (regions : RegionResults) :
  stage_fails cfg data = true ->
  (forall before after : list DataBundle,
      forallb (stages_pass cfg) before = true ->
      compute cfg (before ++ data :: after) regions
      = Some (false,
              mkRegionResults (closed_regions_poses regions) (open_regions_poses regions)
                              (images regions
                               ++ map (diagnostic_image cfg) (before ++ [data]))))
  /\ (forall (input : list DataBundle) (b : bool) (r : RegionResults),
         In data input ->
         compute cfg input regions = Some (b, r) ->
         b = false
         /\ closed_regions_poses r = closed_regions_poses regions
         /\ open_regions_poses r = open_regions_poses regions
         /\ exists k, 1 <= k <= length input
                      /\ images r
                         = images regions ++ map (diagnostic_image cfg) (firstn k input)).
Proof.
  intros Hfail. split.
  - intros before after Hpass. unfold compute.
    destruct (passing_bundles cfg before Hpass (data :: after) regions (mkGathered [] [] []))
      as (g' & ->).
    rewrite (stage_fails_step cfg data after _ g' Hfail). cbn [bind].
    unfold add_image. cbn [closed_regions_poses open_regions_poses images].
    rewrite map_app, <- app_assoc. reflexivity.
  - intros input b r Hin H. unfold compute in H.
    apply bind_Some in H. destruct H as (rl & Hl & H).
    destruct (failing_bundle_stops cfg data input Hin Hfail _ _ _ Hl) as (regions' & ->).
    injection H as <- <-.
    destruct (bundles_loop_regions cfg input _ _ _ Hl) as (Ec & Eo & k & Ei & Hk & Hk1).
    cbn zeta in *. split; [reflexivity|]. split; [exact Ec|]. split; [exact Eo|].
    exists k. split; [lia | exact Ei].
Qed.

(** The second of three bundles has a cloud of one row, which is not
    organized: the extraction fails, and the run ends with the images of the
    first two bundles. *)
Lemma compute_stage_failure_witness :
  @stage_fails IEEE LinearScan (TestPCL (fun c => c) up) TestCV scene_cfg
               (test_bundle [ring] (plane 3 1)) = true
  /\ test_compute (fun c => c) scene_cfg
                  ([test_bundle [ring] (plane 3 3)]
                   ++ test_bundle [ring] (plane 3 1) :: [test_bundle [row] (plane 3 3)])
                  no_regions
     = Some (false,
             mkRegionResults
               (closed_regions_poses no_regions) (open_regions_poses no_regions)
               (images no_regions
                ++ map (@diagnostic_image IEEE (TestPCL (fun c => c) up) TestCV scene_cfg)
                       ([test_bundle [ring] (plane 3 3)] ++ [test_bundle [ring] (plane 3 1)]))).
Proof.
  split; [vm_compute; reflexivity|].
  apply (proj1 (@compute_stage_failure IEEE LinearScan (TestPCL (fun c => c) up) TestCV
                  scene_cfg (test_bundle [ring] (plane 3 1)) no_regions
                  ltac:(vm_compute; reflexivity))
               [test_bundle [ring] (plane 3 3)] [test_bundle [row] (plane 3 3)]).
  vm_compute. reflexivity.
Defined.

(** C2 fails as stated: with dilation enabled and a kernel size of 0 the
    image stage fails on the first bundle, [compute] returns [false], and the
    result has gained a diagnostic image. *)
Lemma failed_compute_adds_image :
  exists r,
    test_compute (fun c => c) bad_dilation_cfg [test_bundle [ring] (plane 3 3)] no_regions
    = Some (false, r)
    /\ images no_regions = []
    /\ images r = [[ring]].
Proof. eexists. split; [vm_compute; reflexivity|]. split; reflexivity. Qed.

(** ** Closed curves and consecutive vertices *)

Lemma simplify_closed_closed {A : Arith} {K : KdTree} {P : PCL}
      (pcl2d_cfg : PCL2DCfg) (curve curve' : Curve) :
  simplify_closed pcl2d_cfg curve = Some curve' ->
  first_is_last curve -> first_is_last curve'.
Proof.
  unfold simplify_closed. intros H Hc.
  destruct (Z.ltb _ _); [injection H as <-; exact Hc|].
  apply bind_Some in H. destruct H as (s & _ & H).
  apply bind_Some in H. destruct H as (f & Hf & H). injection H as <-.
  apply first_is_last_close. exact Hf.
Qed.

(** *** From the pixel curves to the curves in the cloud *)

Section LiftFacts.
Context {A : Arith} {K : KdTree} {P : PCL} {O : OpenCV}.
Variable cfg : RegionDetectionConfig.

Lemma mapM_Forall2 {X Y : Type} (f : X -> option Y) (l : list X) :
  forall l', mapM f l = Some l' -> Forall2 (fun a b => f a = Some b) l l'.
Proof.
  induction l as [|a l IH]; intros l' H; simpl in H.
  - injection H as <-. constructor.
  - apply bind_Some in H. destruct H as (b & Hb & H).
    apply bind_Some in H. destruct H as (bs & Hbs & H). injection H as <-.
    constructor; [exact Hb | exact (IH bs Hbs)].
Qed.

Lemma Forall2_front {X Y : Type} (R : X -> Y -> Prop) (l : list X) (l' : list Y) (a : X) :
  Forall2 R l l' -> front l = Some a -> exists b, front l' = Some b /\ R a b.
Proof.
  intros H Hf. destruct H as [|x y l l' Hxy _]; [discriminate|].
  injection Hf as <-. exists y. split; [reflexivity | exact Hxy].
Qed.

Lemma Forall2_back {X Y : Type} (R : X -> Y -> Prop) (l : list X) (l' : list Y) (a : X) :
  Forall2 R l l' -> back l = Some a -> exists b, back l' = Some b /\ R a b.
Proof.
  revert l'. induction l as [|x l IH]; intros l' H Hb; [discriminate|].
  inversion H as [|x' y l0 l0' Hxy Ht]; subst.
  destruct l as [|x2 l].
  - inversion Ht; subst. injection Hb as <-. exists y. split; [reflexivity | exact Hxy].
  - inversion Ht as [|x2' y2 l1 l1' Hxy2 Ht2]; subst.
    rewrite back_cons in Hb. rewrite back_cons. apply IH; [exact Ht | exact Hb].
Qed.

(** Two lists related element by element by a function have equal first and
    last elements when the first list has. *)
Lemma Forall2_first_is_last {X Y : Type} (f : X -> option Y) (l : list X) (l' : list Y) :
  Forall2 (fun a b => f a = Some b) l l' ->
  (exists p, front l = Some p /\ back l = Some p) ->
  exists q, front l' = Some q /\ back l' = Some q.
Proof.
  intros H (p & Hf & Hb).
  destruct (Forall2_front _ _ _ _ H Hf) as (q & Hq & Hpq).
  destruct (Forall2_back _ _ _ _ H Hb) as (q' & Hq' & Hpq').
  rewrite Hpq in Hpq'. injection Hpq' as <-. exists q. split; assumption.
Qed.

Lemma extract_points_Forall2 (input : PointCloud) (indices : list CvPoint) :
  forall pts,
    extract_points input indices = Some (inr pts) ->
    Forall2 (fun idx p => cloud_at input (cv_x idx) (cv_y idx) = Some p) indices pts.
Proof.
  induction indices as [|idx rest IH]; intros pts H; simpl in H.
  - injection H as <-. constructor.
  - destruct (_ || _); [discriminate|].
    apply bind_Some in H. destruct H as (p & Hp & H).
    apply bind_Some in H. destruct H as (r & Hr & H).
    destruct r as [e|ps]; [discriminate|]. injection H as <-.
    constructor; [exact Hp | exact (IH ps Hr)].
Qed.

(** The contours pushed are the lifts of the first contours given; all of
    them when the loop ran to its end. *)
Lemma extract_contours_prefix (input : PointCloud) (contour_indices : list (list CvPoint)) :
  forall e cs,
    extract_contours input contour_indices = Some (e, cs) ->
    Forall2 (fun indices pts => extract_points input indices = Some (inr pts))
            (firstn (length cs) contour_indices) cs
    /\ (e = None -> length cs = length contour_indices)
    /\ (e <> None -> length cs < length contour_indices).
Proof.
  induction contour_indices as [|indices rest IH]; intros e cs H; simpl in H.
  - injection H as <- <-. split; [constructor|]. split; [reflexivity | congruence].
  - destruct indices as [|i0 indices].
    { injection H as <- <-. split; [constructor|].
      split; [discriminate | intros _; simpl; lia]. }
    apply bind_Some in H. destruct H as (r & Hr & H).
    destruct r as [err|ps].
    { injection H as <- <-. split; [constructor|].
      split; [discriminate | intros _; simpl; lia]. }
    apply bind_Some in H. destruct H as ([e' cs'] & Hr' & H). injection H as <- <-.
    destruct (IH e' cs' Hr') as (HF & Hall & Hpart).
    split; [constructor; [exact Hr | exact HF]|].
    split; intros He; simpl; [rewrite (Hall He); reflexivity | specialize (Hpart He); lia].
Qed.

Lemma extract_contours_Forall2 (input : PointCloud) (contour_indices : list (list CvPoint)) :
  forall cs,
    extract_contours input contour_indices = Some (None, cs) ->
    Forall2 (fun indices pts => extract_points input indices = Some (inr pts))
            contour_indices cs.
Proof.
  intros cs H. destruct (extract_contours_prefix _ _ _ _ H) as (HF & Hall & _).
  rewrite (Hall eq_refl), firstn_all in HF. exact HF.
Qed.

Lemma convertCloudTo2DContour_closed (c : Curve) (indices : list CvPoint) :
  convertCloudTo2DContour c = Some indices ->
  first_is_last c ->
  exists q, front indices = Some q /\ back indices = Some q.
Proof.
  unfold convertCloudTo2DContour. intros H Hc.
  apply mapM_Forall2 in H. exact (Forall2_first_is_last _ _ _ H Hc).
Qed.

Lemma extract_points_closed (input : PointCloud) (indices : list CvPoint) (pts : Curve) :
  extract_points input indices = Some (inr pts) ->
  (exists q, front indices = Some q /\ back indices = Some q) ->
  first_is_last pts.
Proof.
  intros H Hq. apply extract_points_Forall2 in H.
  exact (Forall2_first_is_last (fun idx => cloud_at input (cv_x idx) (cv_y idx)) _ _ H Hq).
Qed.

(** The curves extracted for the closed 2D curves have first = last. *)
Lemma lifted_closed (input : PointCloud) (closed_2d open_2d : list Curve)
      (contours_indices : list (list CvPoint)) (cs : list Curve) :
  Forall first_is_last closed_2d ->
  mapM convertCloudTo2DContour (closed_2d ++ open_2d) = Some contours_indices ->
  extract_contours input contours_indices = Some (None, cs) ->
  Forall first_is_last (firstn (length closed_2d) cs).
Proof.
  intros Hcl Hconv Hext.
  apply mapM_Forall2 in Hconv. apply extract_contours_Forall2 in Hext.
  apply Forall2_app_inv_l in Hconv. destruct Hconv as (ci1 & ci2 & H1 & H2 & ->).
  apply Forall2_app_inv_l in Hext. destruct Hext as (cs1 & cs2 & E1 & E2 & ->).
  assert (Hlen : length closed_2d = length cs1).
  { rewrite (Forall2_length H1). exact (Forall2_length E1). }
  rewrite Hlen, firstn_app, Nat.sub_diag, firstn_all. simpl. rewrite app_nil_r.
  clear Hlen H2 E2 ci2 cs2 open_2d. revert ci1 cs1 H1 E1.
  induction Hcl as [|c closed_2d Hc _ IH]; intros ci1 cs1 H1 E1.
  - inversion H1; subst. inversion E1; subst. constructor.
  - inversion H1 as [|? ind ? ci1' Hci H1']; subst.
    inversion E1 as [|? pts ? cs1' Hpts E1']; subst.
    constructor; [|exact (IH ci1' cs1' H1' E1')].
    apply (extract_points_closed input ind pts Hpts).
    exact (convertCloudTo2DContour_closed c ind Hci Hc).
Qed.

Lemma mapM_simplify_closed (pcl2d_cfg : PCL2DCfg) (closed closed' : list Curve) :
  mapM (simplify_closed pcl2d_cfg) closed = Some closed' ->
  Forall first_is_last closed -> Forall first_is_last closed'.
Proof.
  intros H. apply mapM_Forall2 in H.
  induction H as [|c c' closed closed' Hc _ IH]; intros HF; [constructor|].
  inversion HF; subst.
  constructor; [exact (simplify_closed_closed pcl2d_cfg c c' Hc H1) | apply IH; assumption].
Qed.

(** The closed 2D curves that the pipeline on the pixel curves returns have
    first = last. *)
Lemma pixel_curves_closed (contours_indices : list (list CvPoint))
      (closed open : list Curve) (indices : list (list CvPoint)) :
  pixel_curves cfg contours_indices = Some (closed, open, indices) ->
  Forall first_is_last closed
  /\ mapM convertCloudTo2DContour (closed ++ open) = Some indices.
Proof.
  unfold pixel_curves. intros H.
  apply bind_Some in H. destruct H as (ci0 & _ & H).
  apply bind_Some in H. destruct H as (clouds & _ & H).
  apply bind_Some in H. destruct H as ([closed_2d open_2d] & Hfc & H).
  apply bind_Some in H. destruct H as (closed_2d' & Hsc & H).
  apply bind_Some in H. destruct H as (ci & Hconv & H).
  injection H as <- <- <-. split; [|exact Hconv].
  apply (mapM_simplify_closed _ _ _ Hsc). exact (findClosedCurves_closed _ _ _ _ Hfc).
Qed.

(** One bundle adds to the gathered closed curves only curves with
    first = last, when the cleaning keeps the end vertices of the closed
    curves lifted from its cloud. *)
Lemma bundle_curves_closed (data : DataBundle) (contours_indices : list (list CvPoint))
      (g g' : Gathered) :
  (forall cs, closed_curves_lifted cfg data contours_indices = Some cs ->
              Forall (keeps_ends cfg) cs) ->
  bundle_curves cfg data contours_indices g = Some (inr g') ->
  Forall first_is_last (closed_contours_points g) ->
  Forall first_is_last (closed_contours_points g').
Proof.
  intros Hclean H Hg. rewrite bundle_curves_stages in H.
  unfold closed_curves_lifted in Hclean.
  apply bind_Some in H. destruct H as ([[closed_2d open_2d] ci] & Hpc & H).
  rewrite Hpc in Hclean. cbn [bind] in Hclean.
  apply bind_Some in H. destruct H as ([res cs] & Hext & H).
  rewrite Hext in Hclean. cbn [bind] in Hclean.
  destruct (negb (succeeded res)) eqn:Eres; [discriminate|].
  apply negb_false_iff in Eres. rewrite Eres in Hclean.
  specialize (Hclean _ eq_refl).
  apply bind_Some in H. destruct H as ([res' ns] & _ & H).
  destruct (negb (succeeded res')); [discriminate|].
  injection H as <-. cbn [closed_contours_points].
  destruct closed_2d as [|c0 closed_rest] eqn:Ecl; [exact Hg|]. rewrite <- Ecl in *.
  apply Forall_app. split; [exact Hg|].
  destruct (pixel_curves_closed _ _ _ _ Hpc) as (H2d & Hconv).
  unfold extractContoursFromCloud in Hext.
  destruct (negb (isOrganized _)); [injection Hext as <- _; discriminate|].
  apply bind_Some in Hext. destruct Hext as ([e cs0] & Hr & Hext).
  destruct e as [err|]; [injection Hext as <- _; discriminate|].
  injection Hext as _ <-.
  pose proof (lifted_closed _ _ _ _ _ H2d Hconv Hr) as Hl.
  rewrite firstn_map. rewrite Forall_forall in Hl, Hclean |- *.
  intros c Hc. apply in_map_iff in Hc. destruct Hc as (c1 & <- & Hc1).
  destruct (Hl c1 Hc1) as (p & Hf & Hb). destruct (Hclean c1 Hc1) as [E1 E2].
  exists p. rewrite E1, E2. split; assumption.
Qed.

Lemma bundles_loop_closed (input : list DataBundle) :
  run_keeps_ends cfg input ->
  forall (regions regions' : RegionResults) (g g' : Gathered),
    bundles_loop cfg input regions g = Some (inr (regions', g')) ->
    Forall first_is_last (closed_contours_points g) ->
    Forall first_is_last (closed_contours_points g').
Proof.
  induction input as [|data rest IH]; intros Hclean regions regions' g g' H Hg.
  - simpl in H. injection H as _ <-. exact Hg.
  - simpl in H.
    pose proof (Hclean data) as Hd. cbv beta in Hd.
    destruct (compute2dContours cfg (image data)) as [[res contours] output].
    cbn [fst snd] in Hd.
    destruct (negb (succeeded res)); [discriminate|].
    apply bind_Some in H. destruct H as (rb & Hb & H).
    destruct rb as [[]|g1]; [discriminate|].
    apply (IH (fun d cs Hin => Hclean d cs (or_intror Hin)) _ _ _ _ H).
    apply (bundle_curves_closed data contours g g1); [|exact Hb | exact Hg].
    intros cs Hcs. exact (Hd cs (or_introl eq_refl) Hcs).
Qed.

(** Every closed region that [compute] adds has first = last, when the
    cleaning keeps the end vertices of the closed curves lifted in the run. *)
Lemma compute_closed_regions (input : list DataBundle) (regions : RegionResults)
      (b : bool) (r : RegionResults) :
  run_keeps_ends cfg input ->
  compute cfg input regions = Some (b, r) ->
  exists added, closed_regions_poses r = closed_regions_poses regions ++ added
                /\ Forall poses_first_is_last added.
Proof.
  intros Hclean H. unfold compute in H.
  apply bind_Some in H. destruct H as (rl & Hl & H).
  destruct (bundles_loop_regions cfg input _ _ _ Hl) as (Ec & _).
  destruct rl as [regions'|[regions' g]].
  - injection H as _ <-. exists []. cbn zeta in Ec. rewrite Ec, app_nil_r.
    split; [reflexivity | constructor].
  - cbn zeta in Ec. rewrite <- Ec.
    apply (proj2 (proj2 (assemble_result cfg regions' g b r H))).
    exact (bundles_loop_closed input Hclean _ _ _ _ Hl (Forall_nil _)).
Qed.

End LiftFacts.

(** C4, as amended: a curve classified as closed has its first vertex as its
    last vertex where the code closes it: at the 2D classification, after the
    concave-hull simplification, and after the merging across bundles;
    simplification by minimum length keeps the first and the last vertex, and
    the closed regions that [compute] adds sit on curves with first = last
    whenever the closed curves gathered from the bundles, lifted to 3D and
    cleaned, still have first = last; they do in every run of [compute] in
    which the cleaning keeps the first and the last vertex of each curve. *)
Theorem closed_curves_first_is_last
        {A : Arith} {K : KdTree} {P : PCL} {O : OpenCV} (cfg : RegionDetectionConfig) :
  (forall curves max_dist closed open,
      findClosedCurves curves max_dist = Some (closed, open) ->
      Forall first_is_last closed)
  /\ (forall curve curve',
         simplify_closed (pcl_2d_cfg cfg) curve = Some curve' ->
         first_is_last curve -> first_is_last curve')
  /\ (forall contours res closed open,
         combineIntoClosedRegions cfg contours = Some (res, closed, open) ->
         Forall first_is_last closed)
  /\ (forall min_length segment s,
         simplify_segment min_length segment = Some s ->
         first_is_last segment -> first_is_last s)
  /\ (forall (regions : RegionResults) g b (r : RegionResults),
         assemble cfg regions g = Some (b, r) ->
         Forall first_is_last (closed_contours_points g) ->
         exists added,
           closed_regions_poses r = closed_regions_poses regions ++ added
           /\ Forall poses_first_is_last added)
  /\ (forall input (regions : RegionResults) b (r : RegionResults),
         run_keeps_ends cfg input ->
         compute cfg input regions = Some (b, r) ->
         exists added,
           closed_regions_poses r = closed_regions_poses regions ++ added
           /\ Forall poses_first_is_last added).
Proof.
  split; [intros curves max_dist closed open H;
          exact (findClosedCurves_closed curves max_dist closed open H)|].
  split; [intros curve curve' H; exact (simplify_closed_closed _ curve curve' H)|].
  split; [intros contours res closed open H;
          exact (combineIntoClosedRegions_closed cfg contours res closed open H)|].
  split; [intros min_length segment s H; exact (simplify_segment_closed min_length segment s H)|].
  split; [intros regions g b r H Hg;
          exact (proj2 (proj2 (assemble_result cfg regions g b r H)) Hg)|].
  intros input regions b r Hclean H.
  exact (compute_closed_regions cfg input regions b r Hclean H).
Qed.

Lemma closed_curves_first_is_last_witness :
  (exists closed open,
      @findClosedCurves IEEE [lower_side; [pt 0 0 0; pt 1 0 0; pt 0 1 0]] (Dq 3 2)
      = Some (closed, open)
      /\ Forall (@first_is_last IEEE) closed)
  /\ (exists curve',
         @simplify_closed IEEE LinearScan (TestPCL (fun c => c) up) hull_cfg triangle
         = Some curve'
         /\ @first_is_last IEEE curve')
  /\ (exists res closed open,
         @combineIntoClosedRegions IEEE (test_env_cfg hull_cfg) [lower_side; upper_side]
         = Some (res, closed, open)
         /\ closed <> [] /\ Forall (@first_is_last IEEE) closed)
  /\ (exists s,
         @simplify_segment IEEE (Dq 1 2) triangle = Some s /\ @first_is_last IEEE s)
  /\ (exists b r added,
         @assemble IEEE LinearScan TestCV (test_env_cfg hull_cfg) no_regions gathered_triangle
         = Some (b, r)
         /\ closed_regions_poses r = [] ++ added
         /\ added <> [] /\ Forall (@poses_first_is_last IEEE) added)
  /\ (@run_keeps_ends IEEE LinearScan (TestPCL drop_non_finite up) TestCV
                       (test_env_cfg hull_cfg) [test_bundle [ring] plane_nan_far_corner]
      /\ exists r added,
          test_compute drop_non_finite (test_env_cfg hull_cfg)
                       [test_bundle [ring] plane_nan_far_corner] no_regions = Some (true, r)
          /\ closed_regions_poses r = [] ++ added
          /\ added <> [] /\ Forall (@poses_first_is_last IEEE) added).
Proof.
  pose proof (@closed_curves_first_is_last IEEE LinearScan (TestPCL (fun c => c) up) TestCV
                (test_env_cfg hull_cfg)) as (H1 & H2 & H3 & H4 & H5 & H6).
  pose proof (@closed_curves_first_is_last IEEE LinearScan (TestPCL drop_non_finite up) TestCV
                (test_env_cfg hull_cfg)) as (_ & _ & _ & _ & _ & H6').
  assert (Hclean : @run_keeps_ends IEEE LinearScan (TestPCL drop_non_finite up) TestCV
                     (test_env_cfg hull_cfg) [test_bundle [ring] plane_nan_far_corner]).
  { intros data cs [<-|[]] Hcs. vm_compute in Hcs. injection Hcs as <-.
    constructor; [|constructor]. split; vm_compute; reflexivity. }
  assert (Ht : @first_is_last IEEE triangle).
  { exists (pt 0 0 0). split; reflexivity. }
  split.
  { eexists. eexists. split; [vm_compute; reflexivity|].
    apply (H1 [lower_side; [pt 0 0 0; pt 1 0 0; pt 0 1 0]] (Dq 3 2) _ [lower_side]).
    vm_compute. reflexivity. }
  split.
  { eexists. split; [vm_compute; reflexivity|].
    apply (H2 triangle); [vm_compute; reflexivity | exact Ht]. }
  split.
  { eexists. eexists. eexists. split; [vm_compute; reflexivity|].
    split; [discriminate|].
    eapply (H3 [lower_side; upper_side]). vm_compute. reflexivity. }
  split.
  { eexists. split; [vm_compute; reflexivity|].
    apply (H4 (Dq 1 2) triangle); [vm_compute; reflexivity | exact Ht]. }
  destruct (H5 no_regions gathered_triangle true
               (mkRegionResults
                  (closed_regions_poses
                     (match @assemble IEEE LinearScan TestCV (test_env_cfg hull_cfg)
                                       no_regions gathered_triangle with
                      | Some (_, r) => r
                      | None => no_regions
                      end))
                  [] []))
    as (added & E & HF).
  { vm_compute. reflexivity. }
  { constructor; [exact Ht | constructor]. }
  split.
  { eexists. eexists. exists added. split; [vm_compute; reflexivity|].
    split; [exact E|]. split; [|exact HF].
    intros ->. vm_compute in E. discriminate. }
  split; [exact Hclean|].
  destruct (H6' [test_bundle [ring] plane_nan_far_corner] no_regions true
                (match test_compute drop_non_finite (test_env_cfg hull_cfg)
                                    [test_bundle [ring] plane_nan_far_corner] no_regions with
                 | Some (_, r) => r
                 | None => no_regions
                 end) Hclean)
    as (added' & E' & HF').
  { vm_compute. reflexivity. }
  eexists. exists added'. split; [vm_compute; reflexivity|].
  split; [exact E'|]. split; [|exact HF'].
  intros ->. vm_compute in E'. discriminate.
Defined.

(** C4 fails as stated: the border of a 3x3 square is classified as closed
    in 2D, with pixel (0,0) as first and last vertex; the cloud has no sample
    at that pixel, the cleaning removes both copies, and the closed region in
    the final result starts at (1,0,0) and ends at (0,1,0). *)
Lemma closed_region_loses_closing_vertex :
  exists r poses,
    test_compute drop_non_finite scene_cfg [test_bundle [ring] plane_nan_corner] no_regions
    = Some (true, r)
    /\ closed_regions_poses r = [poses]
    /\ front (@positions IEEE poses) = Some (vec 1 0 0)
    /\ back (@positions IEEE poses) = Some (vec 0 1 0)
    /\ ~ @poses_first_is_last IEEE poses.
Proof.
  eexists. eexists. split; [vm_compute; reflexivity|].
  split; [reflexivity|]. split; [vm_compute; reflexivity|].
  split; [vm_compute; reflexivity|].
  intros (t & Hf & Hb). vm_compute in Hf, Hb. injection Hf as <-. discriminate Hb.
Qed.




(** ** Pose frames in exact arithmetic *)

Section ExactFrames.
Local Open Scope R_scope.









Lemma dot_comm (a b : Vec3 R) : @dot3d Exact a b = @dot3d Exact b a.
Proof. destruct a, b. unfold dot3d. cbn. ring. Qed.










End ExactFrames.

(** ** Pose frames in IEEE arithmetic *)

(** *** The sign of a rounded value *)

Lemma binary_round_aux_opp (prec emax : Z) (s : bool) (m e : Z) (l : location) :
  binary_round_aux prec emax (negb s) m e l = SFopp (binary_round_aux prec emax s m e l).
Proof.
  unfold binary_round_aux.
  destruct (shr_fexp prec emax m e l) as [mrs' e'].
  destruct (shr_fexp prec emax _ e' loc_Exact) as [mrs'' e''].
  destruct (shr_m mrs'') as [|p|p]; [reflexivity | | reflexivity].
  destruct (Z.leb e'' (emax - prec)); reflexivity.
Qed.

Lemma binary_round_opp (prec emax : Z) (s : bool) (m : positive) (e : Z) :
  binary_round prec emax (negb s) m e = SFopp (binary_round prec emax s m e).
Proof.
  unfold binary_round. destruct (shl_align _ _ _) as [mz ez]. apply binary_round_aux_opp.
Qed.

Lemma binary_normalize_opp (prec emax : Z) (m e : Z) :
  opposite (binary_normalize prec emax (- m) e false) (binary_normalize prec emax m e false).
Proof.
  destruct m as [|p|p]; cbn [Z.opp binary_normalize].
  - right. split; reflexivity.
  - left. exact (binary_round_opp prec emax false p e).
  - left. exact (binary_round_opp prec emax true p e).
Qed.

Lemma SFopp_involutive (f : spec_float) : SFopp (SFopp f) = f.
Proof. destruct f; cbn; rewrite ?negb_involutive; reflexivity. Qed.

(** [b - a] is the opposite of [a - b], up to the sign of a zero. *)
Lemma SFsub_anti (prec emax : Z) (a b : spec_float) :
  opposite (SFsub prec emax b a) (SFsub prec emax a b).
Proof.
  destruct a as [sa|sa| |sa ma ea], b as [sb|sb| |sb mb eb]; cbn [SFsub];
    try (left; reflexivity);
    try (destruct sa; destruct sb; cbn [SFopp negb];
         solve [left; reflexivity | right; split; reflexivity]);
    try (destruct sa; cbn [SFopp negb]; left; reflexivity);
    try (destruct sb; cbn [SFopp negb]; left; reflexivity).
  rewrite (Z.min_comm eb ea).
  replace (cond_Zopp sb (Zpos (fst (shl_align mb eb (Z.min ea eb))))
           - cond_Zopp sa (Zpos (fst (shl_align ma ea (Z.min ea eb)))))%Z
    with (- (cond_Zopp sa (Zpos (fst (shl_align ma ea (Z.min ea eb))))
             - cond_Zopp sb (Zpos (fst (shl_align mb eb (Z.min ea eb))))))%Z by lia.
  apply binary_normalize_opp.
Qed.

Lemma SFmul_self_opposite (prec emax : Z) (a b : spec_float) :
  opposite a b -> SFmul prec emax a a = SFmul prec emax b b.
Proof.
  intros [-> | [Ha Hb]].
  - destruct b as [s|s| |s m e]; cbn [SFopp SFmul]; try reflexivity;
      destruct s; reflexivity.
  - destruct a as [sa|sa| |sa ma ea]; try discriminate Ha.
    destruct b as [sb|sb| |sb mb eb]; try discriminate Hb.
    destruct sa, sb; reflexivity.
Qed.

Lemma SFdiv_opposite (prec emax : Z) (a b r : spec_float) :
  opposite a b -> opposite (SFdiv prec emax a r) (SFdiv prec emax b r).
Proof.
  intros [-> | [Ha Hb]].
  - left. destruct b as [s|s| |s m e], r as [sr|sr| |sr mr er]; cbn [SFopp SFdiv];
      try reflexivity; try (destruct s, sr; reflexivity).
    destruct (SFdiv_core_binary prec emax (Zpos m) e (Zpos mr) er) as [[mz ez] lz].
    rewrite <- binary_round_aux_opp. destruct s, sr; reflexivity.
  - destruct a as [sa|sa| |sa ma ea]; try discriminate Ha.
    destruct b as [sb|sb| |sb mb eb]; try discriminate Hb.
    destruct r as [sr|sr| |sr mr er]; cbn [SFdiv];
      solve [left; reflexivity | right; split; reflexivity].
Qed.

Lemma b32_to_b64_opposite (a b : spec_float) :
  opposite a b -> opposite (b32_to_b64 a) (b32_to_b64 b).
Proof.
  intros [-> | [Ha Hb]].
  - left. destruct b as [s|s| |s m e]; cbn [SFopp b32_to_b64]; try reflexivity.
    destruct s; cbn [negb cond_Zopp Z.opp binary_normalize].
    + exact (binary_round_opp 53 1024 true m e).
    + exact (binary_round_opp 53 1024 false m e).
  - destruct a as [sa|sa| |sa ma ea]; try discriminate Ha.
    destruct b as [sb|sb| |sb mb eb]; try discriminate Hb.
    right. split; reflexivity.
Qed.

Lemma SFmul_sign_opposite (prec emax : Z) (m : positive) (e : Z) (a b : spec_float) :
  opposite a b ->
  same_value (SFmul prec emax (S754_finite true m e) a)
             (SFmul prec emax (S754_finite false m e) b).
Proof.
  intros [-> | [Ha Hb]].
  - left. destruct b as [s|s| |s mb eb]; cbn [SFopp SFmul]; try reflexivity;
      destruct s; reflexivity.
  - destruct a as [sa|sa| |sa ma ea]; try discriminate Ha.
    destruct b as [sb|sb| |sb mb eb]; try discriminate Hb.
    right. split; reflexivity.
Qed.

Lemma tangent_backward_ieee (p q : PointXYZ_ spec_float) :
  same_vec (@tangent IEEE (D (-1)) q p) (@tangent IEEE (D 1) p q).
Proof.
  unfold tangent, scale3d, cast3.
  set (v' := @sub3f IEEE (@getArray3fMap IEEE p) (@getArray3fMap IEEE q)).
  set (v := @sub3f IEEE (@getArray3fMap IEEE q) (@getArray3fMap IEEE p)).
  assert (Hx : opposite (vx v') (vx v)) by apply SFsub_anti.
  assert (Hy : opposite (vy v') (vy v)) by apply SFsub_anti.
  assert (Hz : opposite (vz v') (vz v)) by apply SFsub_anti.
  clearbody v v'. destruct v as [a b c], v' as [a' b' c']. cbn [vx vy vz] in Hx, Hy, Hz.
  assert (En : @squaredNorm3f IEEE (mkVec3 a' b' c') = @squaredNorm3f IEEE (mkVec3 a b c)).
  { unfold squaredNorm3f. cbn [vx vy vz fmul fadd IEEE]. unfold b32_mul.
    rewrite (SFmul_self_opposite 24 128 a' a Hx), (SFmul_self_opposite 24 128 b' b Hy),
      (SFmul_self_opposite 24 128 c' c Hz). reflexivity. }
  assert (Hn : opposite (vx (@normalized3f IEEE (mkVec3 a' b' c')))
                        (vx (@normalized3f IEEE (mkVec3 a b c)))
               /\ opposite (vy (@normalized3f IEEE (mkVec3 a' b' c')))
                           (vy (@normalized3f IEEE (mkVec3 a b c)))
               /\ opposite (vz (@normalized3f IEEE (mkVec3 a' b' c')))
                           (vz (@normalized3f IEEE (mkVec3 a b c)))).
  { unfold normalized3f. rewrite En.
    destruct (fltb _ _); cbn [vx vy vz]; [|repeat split; assumption].
    cbn [fdiv IEEE]. unfold b32_div. repeat split; apply SFdiv_opposite; assumption. }
  destruct Hn as (Nx & Ny & Nz).
  change (D (-1)) with (S754_finite true 4503599627370496 (-52)).
  change (D 1) with (S754_finite false 4503599627370496 (-52)).
  cbn [dmul cast IEEE vx vy vz]. unfold b64_mul.
  repeat split; cbn [vx vy vz]; apply SFmul_sign_opposite; apply b32_to_b64_opposite; assumption.
Qed.

(** *** The frame of a vertex that is paired with itself *)

Lemma SFsub_self (prec emax : Z) (a : spec_float) :
  is_finite a = true -> SFsub prec emax a a = S754_zero false.
Proof.
  destruct a as [s|s| |s m e]; try discriminate; intros _; cbn [SFsub].
  - destruct s; reflexivity.
  - rewrite Z.sub_diag. reflexivity.
Qed.

Lemma SFmul_zero_r (prec emax : Z) (a b : spec_float) :
  is_finite a = true -> is_zero b = true -> is_zero (SFmul prec emax a b) = true.
Proof.
  destruct a as [s|s| |s m e]; try discriminate;
    destruct b as [sb|sb| |sb mb eb]; try discriminate; reflexivity.
Qed.

Lemma SFmul_zero_l (prec emax : Z) (a b : spec_float) :
  is_zero a = true -> is_finite b = true -> is_zero (SFmul prec emax a b) = true.
Proof.
  destruct a as [s|s| |s m e]; try discriminate;
    destruct b as [sb|sb| |sb mb eb]; try discriminate; reflexivity.
Qed.

Lemma SFsub_zeros (prec emax : Z) (a b : spec_float) :
  is_zero a = true -> is_zero b = true -> is_zero (SFsub prec emax a b) = true.
Proof.
  destruct a as [s|s| |s m e]; try discriminate;
    destruct b as [sb|sb| |sb mb eb]; try discriminate. destruct s, sb; reflexivity.
Qed.

Lemma SFadd_zeros (prec emax : Z) (a b : spec_float) :
  is_zero a = true -> is_zero b = true -> is_zero (SFadd prec emax a b) = true.
Proof.
  destruct a as [s|s| |s m e]; try discriminate;
    destruct b as [sb|sb| |sb mb eb]; try discriminate. destruct s, sb; reflexivity.
Qed.

Lemma is_zero_finite (a : spec_float) : is_zero a = true -> is_finite a = true.
Proof. destruct a; try discriminate; reflexivity. Qed.

Lemma zero_vec_spec (v : Vec3 spec_float) :
  zero_vec v = true <-> is_zero (vx v) = true /\ is_zero (vy v) = true /\ is_zero (vz v) = true.
Proof. unfold zero_vec. rewrite !andb_true_iff. tauto. Qed.

Lemma finite_vec_spec (v : Vec3 spec_float) :
  finite_vec v = true
  <-> is_finite (vx v) = true /\ is_finite (vy v) = true /\ is_finite (vz v) = true.
Proof. unfold finite_vec. rewrite !andb_true_iff. tauto. Qed.

(** The cross product with a vector of zeros is a vector of zeros. *)
Lemma cross3d_zero_r (a b : Vec3 spec_float) :
  finite_vec a = true -> zero_vec b = true -> zero_vec (@cross3d IEEE a b) = true.
Proof.
  rewrite finite_vec_spec, !zero_vec_spec. intros (Ax & Ay & Az) (Bx & By & Bz).
  unfold cross3d. cbn [vx vy vz dsub dmul IEEE]. unfold b64_sub, b64_mul.
  repeat split; apply SFsub_zeros; apply SFmul_zero_r; assumption.
Qed.

Lemma cross3d_zero_l (a b : Vec3 spec_float) :
  zero_vec a = true -> finite_vec b = true -> zero_vec (@cross3d IEEE a b) = true.
Proof.
  rewrite finite_vec_spec, !zero_vec_spec. intros (Ax & Ay & Az) (Bx & By & Bz).
  unfold cross3d. cbn [vx vy vz dsub dmul IEEE]. unfold b64_sub, b64_mul.
  repeat split; apply SFsub_zeros; apply SFmul_zero_l; assumption.
Qed.

Lemma zero_vec_finite (v : Vec3 spec_float) : zero_vec v = true -> finite_vec v = true.
Proof.
  rewrite finite_vec_spec, zero_vec_spec. intros (Hx & Hy & Hz).
  repeat split; apply is_zero_finite; assumption.
Qed.

(** A vector of zeros has the squared norm +0 and is left as it is by
    [normalized]. *)
Lemma squaredNorm3d_zero (v : Vec3 spec_float) :
  zero_vec v = true -> @squaredNorm3d IEEE v = S754_zero false.
Proof.
  rewrite zero_vec_spec. destruct v as [a b c]. cbn [vx vy vz]. intros (Ha & Hb & Hc).
  destruct a as [sa|sa| |sa ma ea]; try discriminate Ha.
  destruct b as [sb|sb| |sb mb eb]; try discriminate Hb.
  destruct c as [sc|sc| |sc mc ec]; try discriminate Hc.
  destruct sa, sb, sc; reflexivity.
Qed.

Lemma normalized3d_zero (v : Vec3 spec_float) :
  zero_vec v = true -> @normalized3d IEEE v = v.
Proof.
  intros H. unfold normalized3d. rewrite (squaredNorm3d_zero v H). reflexivity.
Qed.

(** The tangent between a point with finite coordinates and itself. *)
Lemma tangent_repeated (dir : spec_float) (p : PointXYZ_ spec_float) :
  dir = D 1 \/ dir = D (-1) -> finite_point p = true ->
  zero_vec (@tangent IEEE dir p p) = true.
Proof.
  intros Hdir Hp. unfold finite_point in Hp. rewrite !andb_true_iff in Hp.
  destruct Hp as [[Hx Hy] Hz].
  destruct p as [xp yp zp]. cbn [x y z] in Hx, Hy, Hz.
  unfold tangent, sub3f, getArray3fMap. cbn [x y z vx vy vz fsub IEEE]. unfold b32_sub.
  rewrite (SFsub_self 24 128 _ Hx), (SFsub_self 24 128 _ Hy), (SFsub_self 24 128 _ Hz).
  destruct Hdir as [-> | ->]; reflexivity.
Qed.

Lemma pose_frame_degenerate (dir : spec_float) (p : PointXYZ_ spec_float)
      (n : Normal_ spec_float) :
  dir = D 1 \/ dir = D (-1) -> finite_point p = true ->
  zero_vec (col (@pose_frame IEEE dir p p n) 0) = true
  /\ (finite_vec (@unit_normal IEEE n) = true ->
      zero_entries (@pose_frame IEEE dir p p n) = true).
Proof.
  intros Hdir Hp. pose proof (tangent_repeated dir p Hdir Hp) as Hx.
  unfold pose_frame. fold (@tangent IEEE dir p p). fold (@unit_normal IEEE n).
  set (xd := @tangent IEEE dir p p) in *. clearbody xd.
  set (zd := @unit_normal IEEE n). clearbody zd.
  split.
  - destruct xd; exact Hx.
  - intros Hz.
    pose proof (cross3d_zero_r zd xd Hz Hx) as Hc.
    rewrite (normalized3d_zero _ Hc).
    pose proof (cross3d_zero_l xd _ Hx (zero_vec_finite _ Hc)) as Hc2.
    rewrite (normalized3d_zero _ Hc2).
    set (yd := @cross3d IEEE zd xd) in *. set (wd := @cross3d IEEE xd yd) in *.
    rewrite zero_vec_spec in Hx, Hc, Hc2.
    destruct Hx as (X1 & X2 & X3), Hc as (Y1 & Y2 & Y3), Hc2 as (W1 & W2 & W3).
    clearbody wd. clearbody yd.
    destruct xd as [x1 x2 x3], yd as [y1 y2 y3], wd as [w1 w2 w3].
    cbn [vx vy vz] in *.
    unfold zero_entries, zero_vec, toRotationMatrix. cbn [row0 row1 row2 vx vy vz].
    rewrite X1, X2, X3, Y1, Y2, Y3, W1, W2, W3. reflexivity.
Qed.

(** A matrix whose first column is a vector of zeros is not a rotation
    within the tolerance. *)
Lemma zero_column_outside_tolerance (m : Matrix3d_ spec_float) :
  zero_vec (@col IEEE m 0) = true -> rotation_within_tolerance m = false.
Proof.
  intros H. unfold rotation_within_tolerance.
  destruct (@col IEEE m 0) as [a b c]. apply zero_vec_spec in H. cbn [vx vy vz] in H.
  destruct H as (Ha & Hb & Hc).
  destruct a as [sa|sa| |sa ma ea]; try discriminate Ha.
  destruct b as [sb|sb| |sb mb eb]; try discriminate Hb.
  destruct c as [sc|sc| |sc mc ec]; try discriminate Hc.
  unfold qvec at 1. cbn [vx vy vz SF2Q].
  destruct (qvec (@col IEEE m 1)) as [cy|]; [|reflexivity].
  destruct (qvec (@col IEEE m 2)) as [cz|]; reflexivity.
Qed.

(** *** The frames of the lattice steps, checked one by one *)






(** The columns of the rotation, in every arithmetic. *)
Lemma pose_frame_columns :
  forall (A : Arith) (dir : dbl) (p1 p2 : PointXYZ) (n1 : Normal),
    let m := pose_frame dir p1 p2 n1 in
    col m 0 = tangent dir p1 p2
    /\ col m 1 = normalized3d (cross3d (unit_normal n1) (col m 0))
    /\ col m 2 = normalized3d (cross3d (col m 0) (col m 1)).
Proof.
  intros A dir p1 p2 n1 m.
  unfold m, pose_frame, tangent, unit_normal, col, toRotationMatrix.
  cbn [row0 row1 row2 vx vy vz].
  repeat split;
    repeat match goal with |- context [mkVec3 (vx ?v) (vy ?v) (vz ?v)] =>
             replace (mkVec3 (vx v) (vy v) (vz v)) with v by (destruct v; reflexivity) end;
    reflexivity.
Qed.




(** * Further properties of the code *)

(** ** [linspace] and the densification of the pixel contours *)

Lemma linspace_fill_length (val h : Z) (n : nat) : length (linspace_fill val h n) = n.
Proof. revert val. induction n as [|n IH]; intros val; simpl; [reflexivity | now rewrite IH]. Qed.

Lemma linspace_fill_nth (h : Z) (n : nat) :
  forall (val : Z) (k : nat),
    k < n -> nth k (linspace_fill val h n) 0%Z = (val + Z.of_nat k * h)%Z.
Proof.
  induction n as [|n IH]; intros val k Hk; [lia|].
  destruct k as [|k]; simpl nth.
  - simpl. lia.
  - rewrite IH by lia. lia.
Qed.

(** The truncated step of a coordinate whose distance is at most [d]. *)
Lemma quot_step (a d : Z) :
  (0 < d)%Z -> (Z.abs a <= d)%Z ->
  (-1 <= Z.quot a d <= 1)%Z
  /\ ((d * Z.quot a d = a)%Z <-> a = 0%Z \/ Z.abs a = d).
Proof.
  intros Hd Ha.
  pose proof (Z.quot_rem' a d) as E.
  remember (Z.quot a d) as q eqn:Eq. remember (Z.rem a d) as r eqn:Er.
  destruct (Z_le_gt_dec 0 a) as [Hpos|Hneg].
  - pose proof (Z.rem_bound_pos a d Hpos Hd) as B. rewrite <- Er in B.
    assert (Ha' : (a <= d)%Z) by lia.
    assert (Hq : (0 <= q)%Z) by (subst q; apply Z.quot_pos; lia).
    assert (Hq1 : (q <= 1)%Z).
    { destruct (Z_le_gt_dec q 1) as [H|H]; [exact H|]. exfalso.
      assert (2 * d <= d * q)%Z by nia. lia. }
    assert (Hc : q = 0%Z \/ q = 1%Z) by lia.
    split; [lia|]. destruct Hc as [-> | ->]; split; intros H; lia.
  - pose proof (Z.rem_bound_pos (- a) d ltac:(lia) Hd) as B.
    rewrite Z.rem_opp_l, <- Er in B by lia.
    assert (Ha' : (- d <= a)%Z) by lia.
    assert (Hq : (q <= 0)%Z).
    { subst q. rewrite <- (Z.opp_involutive a), Z.quot_opp_l by lia.
      pose proof (Z.quot_pos (- a) d ltac:(lia) ltac:(lia)). lia. }
    assert (Hq1 : (-1 <= q)%Z).
    { destruct (Z_le_gt_dec (-1) q) as [H|H]; [exact H|]. exfalso.
      assert (d * q <= - 2 * d)%Z by nia. lia. }
    assert (Hc : q = 0%Z \/ q = (-1)%Z) by lia.
    split; [lia|]. destruct Hc as [-> | ->]; split; intros H; lia.
Qed.

Lemma in_int_spec (z : Z) : in_int z = true <-> (- 2 ^ 31 <= z < 2 ^ 31)%Z.
Proof. unfold in_int. rewrite andb_true_iff, Z.leb_le, Z.ltb_lt. reflexivity. Qed.

(** The loop on [int]s runs through exactly when the last value of [val] is
    in range, and then fills in the values of the loop on the integers. *)
Lemma linspace_fill_int_spec (h : Z) (n : nat) :
  forall val, in_int val = true ->
    (in_int (val + Z.of_nat n * h) = true ->
     linspace_fill_int val h n = Some (linspace_fill val h n))
    /\ (in_int (val + Z.of_nat n * h) = false -> linspace_fill_int val h n = None).
Proof.
  induction n as [|n IH]; intros val Hval.
  - split; [reflexivity|]. intros H. replace (val + Z.of_nat 0 * h)%Z with val in H by lia.
    congruence.
  - cbn [linspace_fill_int linspace_fill].
    replace (val + Z.of_nat (S n) * h)%Z with ((val + h) + Z.of_nat n * h)%Z by lia.
    destruct (in_int (val + h)) eqn:E1.
    + destruct (IH (val + h)%Z E1) as [Hin Hout]. split; intros H.
      * rewrite (Hin H). reflexivity.
      * rewrite (Hout H). reflexivity.
    + split; [|reflexivity]. intros H. exfalso.
      apply in_int_spec in Hval, H.
      assert (E1' : ~ (- 2 ^ 31 <= val + h < 2 ^ 31)%Z).
      { intros C. apply in_int_spec in C. congruence. }
      destruct (Z_le_gt_dec 0 h); nia.
Qed.

(** Where no [int] operation overflows, [linspace<int>] returns the values of
    [linspace]. *)
Lemma linspace_int_agrees (a b : Z) (N : nat) :
  in_int a = true -> 2 <= N ->
  in_int (b - a) = true -> in_int (Z.of_nat N - 1) = true ->
  in_int (a + Z.of_nat N * Z.quot (b - a) (Z.of_nat N - 1)) = true ->
  linspace_int a b N = Some (linspace a b N).
Proof.
  intros Ha HN H1 H2 H3. unfold linspace_int, linspace. cbv zeta.
  rewrite H1, H2. cbn [negb orb].
  replace (Z.eqb (Z.of_nat N - 1) 0) with false by (symmetry; apply Z.eqb_neq; lia).
  replace (Z.eqb (Z.of_nat N - 1) (-1)) with false by (symmetry; apply Z.eqb_neq; lia).
  rewrite andb_false_r.
  exact (proj1 (linspace_fill_int_spec _ N a Ha) H3).
Qed.

(** X1: on [int]s [a] and [b] and for [N >= 2], [linspace<int>(a, b, N)]
    stays within defined behaviour exactly when [b - a], [N - 1] and the last
    value of the running variable, [a + N * h] with the truncated step
    [h = (b - a) / (N - 1)], are in the range of an [int].  Its result then has
    [N] elements in arithmetic progression from [a] with the step [h], the
    values of [linspace] on the integers; its last element is [b] exactly when
    [N - 1] divides [b - a].  The calls that the densification makes, on
    coordinates below 2^30 in absolute value with [N - 1] the larger coordinate
    distance, stay within defined behaviour. *)
Theorem linspace_progression (a b : Z) (N : nat) :
  in_int a = true -> in_int b = true -> 2 <= N ->
  (linspace_int a b N <> None
   <-> in_int (b - a) = true /\ in_int (Z.of_nat N - 1) = true
       /\ in_int (a + Z.of_nat N * Z.quot (b - a) (Z.of_nat N - 1)) = true)
  /\ (forall l, linspace_int a b N = Some l ->
        l = linspace a b N
        /\ length l = N
        /\ (forall k, k < N ->
                      nth k l 0%Z = (a + Z.of_nat k * Z.quot (b - a) (Z.of_nat N - 1))%Z)
        /\ (nth (N - 1) l 0%Z = b <-> Z.rem (b - a) (Z.of_nat N - 1) = 0%Z))
  /\ ((Z.abs a < 2 ^ 30)%Z -> (Z.abs b < 2 ^ 30)%Z ->
      (Z.abs (b - a) <= Z.of_nat N - 1)%Z -> (Z.of_nat N - 1 < 2 ^ 31)%Z ->
      linspace_int a b N = Some (linspace a b N)).
Proof.
  intros Ha Hb HN.
  assert (Hd0 : Z.eqb (Z.of_nat N - 1) 0 = false) by (apply Z.eqb_neq; lia).
  assert (Hd1 : Z.eqb (Z.of_nat N - 1) (-1) = false) by (apply Z.eqb_neq; lia).
  destruct (linspace_fill_int_spec (Z.quot (b - a) (Z.of_nat N - 1)) N a Ha) as [Hin Hout].
  split; [|split].
  - unfold linspace_int. cbv zeta. rewrite Hd0, Hd1, andb_false_r.
    destruct (in_int (b - a)); cbn [negb orb];
      [|split; [congruence | intros [C _]; discriminate C]].
    destruct (in_int (Z.of_nat N - 1)); cbn [negb];
      [|split; [congruence | intros (_ & C & _); discriminate C]].
    destruct (in_int (a + Z.of_nat N * Z.quot (b - a) (Z.of_nat N - 1))).
    + rewrite (Hin eq_refl). split; [auto | discriminate].
    + rewrite (Hout eq_refl). split; [congruence | intros (_ & _ & C); discriminate C].
  - intros l H. unfold linspace_int in H. cbv zeta in H.
    rewrite Hd0, Hd1, andb_false_r in H.
    destruct (negb (in_int (b - a)) || negb (in_int (Z.of_nat N - 1))); [discriminate|].
    destruct (in_int (a + Z.of_nat N * Z.quot (b - a) (Z.of_nat N - 1)));
      [|rewrite (Hout eq_refl) in H; discriminate].
    rewrite (Hin eq_refl) in H. injection H as <-.
    split; [reflexivity|]. unfold linspace.
    split; [apply linspace_fill_length|].
    split; [intros k Hk; apply linspace_fill_nth; exact Hk|].
    rewrite linspace_fill_nth by lia.
    pose proof (Z.quot_rem' (b - a) (Z.of_nat N - 1)) as E.
    replace (Z.of_nat (N - 1)) with (Z.of_nat N - 1)%Z by lia.
    split; intros H; lia.
  - intros Ha' Hb' Hdist Hd.
    destruct (quot_step (b - a) (Z.of_nat N - 1) ltac:(lia) Hdist) as [Hq _].
    apply linspace_int_agrees; try assumption; try lia; apply in_int_spec; try lia.
    assert (Hs : (- Z.of_nat N <= Z.of_nat N * Z.quot (b - a) (Z.of_nat N - 1) <= Z.of_nat N)%Z)
      by nia.
    pose proof (Z.quot_rem' (b - a) (Z.of_nat N - 1)) as E.
    pose proof (Z.rem_bound_abs (b - a) (Z.of_nat N - 1) ltac:(lia)) as Hr.
    pose proof (Z.rem_sign_mul (b - a) (Z.of_nat N - 1) ltac:(lia)) as Hsame.
    remember (Z.quot (b - a) (Z.of_nat N - 1)) as q eqn:Eq.
    remember (Z.rem (b - a) (Z.of_nat N - 1)) as r eqn:Er.
    assert (Hc : q = (-1)%Z \/ q = 0%Z \/ q = 1%Z) by lia.
    destruct Hc as [-> | [-> | ->]]; [| lia |].
    + assert (r = 0%Z) by nia. lia.
    + assert (r = 0%Z) by nia. lia.
Qed.

Lemma linspace_progression_witness :
  exists l,
    linspace_int 0 10 4 = Some l
    /\ l = linspace 0 10 4
    /\ length l = 4
    /\ (forall k, k < 4 ->
                  nth k l 0%Z = (0 + Z.of_nat k * Z.quot (10 - 0) (Z.of_nat 4 - 1))%Z)
    /\ (nth (4 - 1) l 0%Z = 10%Z <-> Z.rem (10 - 0) (Z.of_nat 4 - 1) = 0%Z).
Proof.
  exists [0; 3; 6; 9]%Z. split; [reflexivity|].
  apply (proj1 (proj2 (linspace_progression 0 10 4 eq_refl eq_refl ltac:(lia)))). reflexivity.
Defined.

Lemma max_coord_dist_chebyshev (p1 p2 : CvPoint) :
  (if Z.gtb (Z.abs (cv_x p2 - cv_x p1)) (Z.abs (cv_y p2 - cv_y p1))
   then Z.abs (cv_x p2 - cv_x p1) else Z.abs (cv_y p2 - cv_y p1))
  = chebyshev p1 p2.
Proof.
  unfold chebyshev.
  destruct (Z.gtb_spec (Z.abs (cv_x p2 - cv_x p1)) (Z.abs (cv_y p2 - cv_y p1))); lia.
Qed.

(** The points pushed for a pair of vertices that are more than one pixel
    apart. *)
Lemma interpolate_pair_far (p1 p2 : CvPoint) :
  (1 < chebyshev p1 p2)%Z ->
  interpolate_pair p1 p2
  = map (fun k => mkCvPoint
                    (cv_x p1 + Z.of_nat k * Z.quot (cv_x p2 - cv_x p1) (chebyshev p1 p2))
                    (cv_y p1 + Z.of_nat k * Z.quot (cv_y p2 - cv_y p1) (chebyshev p1 p2)))
        (seq 0 (Z.to_nat (chebyshev p1 p2 + 1))).
Proof.
  intros Hd. unfold interpolate_pair. cbv zeta.
  rewrite max_coord_dist_chebyshev.
  destruct (Z.leb_spec (chebyshev p1 p2) MIN_PIXEL_DISTANCE) as [H|_];
    [unfold MIN_PIXEL_DISTANCE in H; lia|].
  apply map_ext_in. intros k Hk. apply in_seq in Hk.
  unfold linspace. rewrite !linspace_fill_nth by lia.
  replace (Z.of_nat (Z.to_nat (chebyshev p1 p2 + 1)) - 1)%Z with (chebyshev p1 p2) by lia.
  reflexivity.
Qed.

Lemma interpolate_pair_near (p1 p2 : CvPoint) :
  (chebyshev p1 p2 <= 1)%Z -> interpolate_pair p1 p2 = [p2].
Proof.
  intros Hd. unfold interpolate_pair. cbv zeta.
  rewrite max_coord_dist_chebyshev.
  destruct (Z.leb_spec (chebyshev p1 p2) MIN_PIXEL_DISTANCE) as [_|H];
    [reflexivity | unfold MIN_PIXEL_DISTANCE in H; lia].
Qed.

Lemma eight_connected_steps (x0 y0 hx hy : Z) (n : nat) :
  (-1 <= hx <= 1)%Z -> (-1 <= hy <= 1)%Z ->
  forall start,
    eight_connected
      (map (fun k => mkCvPoint (x0 + Z.of_nat k * hx) (y0 + Z.of_nat k * hy)) (seq start n))
    = true.
Proof.
  intros Hx Hy. induction n as [|n IH]; intros start; [reflexivity|].
  destruct n as [|n]; [reflexivity|].
  specialize (IH (S start)).
  change (seq start (S (S n))) with (start :: seq (S start) (S n)).
  rewrite map_cons.
  change (seq (S start) (S n)) with (S start :: seq (S (S start)) n) in *.
  rewrite map_cons in *.
  cbn [eight_connected]. cbn [eight_connected] in IH.
  apply andb_true_iff. split; [|exact IH].
  apply Z.leb_le. unfold chebyshev. cbn [cv_x cv_y]. nia.
Qed.

Lemma last_map_seq {X : Type} (f : nat -> X) (n : nat) (d : X) :
  last (map f (seq 0 (S n))) d = f n.
Proof.
  rewrite seq_S, map_app. simpl map. apply last_last.
Qed.

Lemma cvpoint_eq (a b : Z) (p : CvPoint) :
  mkCvPoint a b = p <-> a = cv_x p /\ b = cv_y p.
Proof.
  destruct p as [u v]. cbn. split; [intros E; injection E; auto | intros [-> ->]; reflexivity].
Qed.

Lemma aligned_spec (p1 p2 : CvPoint) :
  aligned p1 p2 = true
  <-> (cv_x p2 - cv_x p1 = 0 \/ cv_y p2 - cv_y p1 = 0
       \/ Z.abs (cv_x p2 - cv_x p1) = Z.abs (cv_y p2 - cv_y p1))%Z.
Proof.
  unfold aligned. rewrite !orb_true_iff, !Z.eqb_eq. tauto.
Qed.

Lemma interpolate_pair_facts (p1 p2 : CvPoint) :
  eight_connected (p1 :: interpolate_pair p1 p2) = true
  /\ length (interpolate_pair p1 p2)
     = (if Z.leb (chebyshev p1 p2) 1 then 1 else Z.to_nat (chebyshev p1 p2 + 1))
  /\ (last (interpolate_pair p1 p2) p1 = p2 <-> aligned p1 p2 = true).
Proof.
  rewrite aligned_spec.
  destruct (Z.leb_spec (chebyshev p1 p2) 1) as [Hd|Hd].
  - rewrite (interpolate_pair_near p1 p2 Hd). cbn [eight_connected length last].
    split; [|split; [reflexivity|]].
    + rewrite andb_true_r. apply Z.leb_le. exact Hd.
    + split; [intros _ | reflexivity]. unfold chebyshev in Hd. lia.
  - rewrite (interpolate_pair_far p1 p2 Hd).
    assert (Hpos : (0 < chebyshev p1 p2)%Z) by lia.
    destruct (quot_step (cv_x p2 - cv_x p1) (chebyshev p1 p2) Hpos) as [Bx Ex];
      [unfold chebyshev; lia|].
    destruct (quot_step (cv_y p2 - cv_y p1) (chebyshev p1 p2) Hpos) as [By Ey];
      [unfold chebyshev; lia|].
    remember (Z.quot (cv_x p2 - cv_x p1) (chebyshev p1 p2)) as hx eqn:Ehx.
    remember (Z.quot (cv_y p2 - cv_y p1) (chebyshev p1 p2)) as hy eqn:Ehy.
    replace (Z.to_nat (chebyshev p1 p2 + 1)) with (S (Z.to_nat (chebyshev p1 p2))) by lia.
    split; [|split].
    + pose proof (eight_connected_steps (cv_x p1) (cv_y p1) hx hy
                    (S (Z.to_nat (chebyshev p1 p2))) Bx By 0) as H.
      change (seq 0 (S (Z.to_nat (chebyshev p1 p2))))
        with (0 :: seq 1 (Z.to_nat (chebyshev p1 p2))) in *.
      rewrite map_cons in *.
      change (eight_connected (p1 :: ?a :: ?l))
        with (Z.leb (chebyshev p1 a) 1 && eight_connected (a :: l)).
      rewrite H, andb_true_r. apply Z.leb_le. unfold chebyshev. cbn [cv_x cv_y]. lia.
    + rewrite length_map, length_seq. reflexivity.
    + rewrite last_map_seq, cvpoint_eq.
      rewrite Z2Nat.id by lia.
      unfold chebyshev in *. split; intros H; lia.
Qed.

(** X2: the points pushed for one pair of vertices continue the polyline
    from [p1] without a gap; there is one point when the vertices are at most
    one pixel apart and [d + 1] otherwise; the last point pushed is [p2]
    exactly when the two vertices lie on a common row, column or diagonal. *)
Theorem interpolate_pair_segment (p1 p2 : CvPoint) :
  eight_connected (p1 :: interpolate_pair p1 p2) = true
  /\ length (interpolate_pair p1 p2)
     = (if Z.leb (chebyshev p1 p2) 1 then 1 else Z.to_nat (chebyshev p1 p2 + 1))
  /\ (last (interpolate_pair p1 p2) p1 = p2 <-> aligned p1 p2 = true).
Proof.
  destruct (interpolate_pair_facts p1 p2) as (H1 & H2 & H3).
  split; [exact H1|]. split; [exact H2 | exact H3].
Qed.

Lemma last_default {X : Type} (l : list X) (d d' : X) : l <> [] -> last l d = last l d'.
Proof.
  induction l as [|a l IH]; intros H; [contradiction|].
  destruct l as [|b l]; [reflexivity|]. apply IH. discriminate.
Qed.

Lemma eight_connected_app (l1 l2 : list CvPoint) :
  forall a b,
    eight_connected (a :: l1) = true ->
    last l1 a = b ->
    eight_connected (b :: l2) = true ->
    eight_connected (a :: l1 ++ l2) = true.
Proof.
  induction l1 as [|c l1 IH]; intros a b H1 Hl H2.
  - simpl in Hl. subst b. exact H2.
  - change (eight_connected (a :: c :: l1) = true) in H1.
    cbn [eight_connected] in H1. apply andb_true_iff in H1. destruct H1 as [Hac H1].
    change (eight_connected (a :: c :: (l1 ++ l2)) = true).
    cbn [eight_connected]. apply andb_true_iff. split; [exact Hac|].
    apply (IH c b H1); [|exact H2].
    destruct l1 as [|e l1]; [exact Hl|].
    rewrite (last_default (e :: l1) c a) by discriminate. exact Hl.
Qed.

Lemma back_last {X : Type} (l : list X) (d : X) : l <> [] -> back l = Some (last l d).
Proof.
  induction l as [|a l IH]; intros H; [contradiction|].
  destruct l as [|b l]; [reflexivity|].
  rewrite back_cons. change (last (a :: b :: l) d) with (last (b :: l) d).
  apply IH. discriminate.
Qed.

Lemma interpolate_pair_nonempty (p1 p2 : CvPoint) : interpolate_pair p1 p2 <> [].
Proof.
  destruct (interpolate_pair_facts p1 p2) as (_ & Hl & _).
  intros E. rewrite E in Hl. simpl in Hl.
  destruct (Z.leb_spec (chebyshev p1 p2) 1); [discriminate|lia].
Qed.

Lemma last_app_nonempty {X : Type} (l1 l2 : list X) (d : X) :
  l2 <> [] -> last (l1 ++ l2) d = last l2 d.
Proof.
  intros H. induction l1 as [|a l1 IH]; [reflexivity|].
  cbn [app]. destruct (l1 ++ l2) as [|b t] eqn:E.
  - apply app_eq_nil in E. destruct E as [_ E]. contradiction.
  - exact IH.
Qed.

Lemma last_In {X : Type} (l : list X) (d : X) : l <> [] -> In (last l d) l.
Proof.
  induction l as [|a l IH]; intros H; [contradiction|].
  destruct l as [|b l]; [left; reflexivity|]. right. apply IH. discriminate.
Qed.

Lemma interpolate_from_aligned (rest : list CvPoint) :
  forall p,
    aligned_contour (p :: rest) = true ->
    eight_connected (p :: interpolate_from p rest) = true
    /\ (forall v, In v rest -> In v (interpolate_from p rest))
    /\ last (interpolate_from p rest) p = last rest p.
Proof.
  induction rest as [|q rest IH]; intros p H.
  - repeat split; [intros v []].
  - change (aligned p q && aligned_contour (q :: rest) = true) in H.
    apply andb_true_iff in H. destruct H as [Hpq H].
    destruct (IH q H) as (IH1 & IH2 & IH3).
    destruct (interpolate_pair_facts p q) as (S1 & _ & S3).
    apply S3 in Hpq.
    pose proof (interpolate_pair_nonempty p q) as Hne.
    cbn [interpolate_from]. split; [|split].
    + exact (eight_connected_app _ _ p q S1 Hpq IH1).
    + intros v [<-|Hv]; apply in_or_app.
      * left. rewrite <- Hpq at 1. apply last_In. exact Hne.
      * right. apply IH2. exact Hv.
    + destruct rest as [|r rest].
      * cbn [interpolate_from]. rewrite app_nil_r. exact Hpq.
      * assert (Hr : interpolate_from q (r :: rest) <> []).
        { cbn [interpolate_from]. intros E. apply app_eq_nil in E.
          exact (interpolate_pair_nonempty q r (proj1 E)). }
        rewrite last_app_nonempty by exact Hr.
        rewrite (last_default _ p q Hr), IH3.
        change (last (q :: r :: rest) p) with (last (r :: rest) p).
        apply last_default. discriminate.
Qed.

(** X3: a contour whose consecutive vertices lie on common rows, columns or
    diagonals is densified without gaps: the result is 8-connected, contains
    every vertex of the contour, and starts and ends where the contour does. *)
Theorem densify_aligned_contour (c l : list CvPoint) :
  aligned_contour c = true ->
  interpolate_contour c = Some l ->
  eight_connected l = true
  /\ (forall v, In v c -> In v l)
  /\ front l = front c /\ back l = back c.
Proof.
  intros Ha H. destruct c as [|p0 rest]; [discriminate|].
  injection H as <-.
  destruct (interpolate_from_aligned rest p0 Ha) as (H1 & H2 & H3).
  split; [exact H1|]. split; [|split; [reflexivity|]].
  - intros v [<-|Hv]; [left; reflexivity | right; apply H2; exact Hv].
  - rewrite (back_last (p0 :: interpolate_from p0 rest) p0) by discriminate.
    rewrite (back_last (p0 :: rest) p0) by discriminate.
    f_equal.
    destruct rest as [|q rest]; [reflexivity|].
    assert (Hne : interpolate_from p0 (q :: rest) <> []).
    { cbn [interpolate_from]. intros E. apply app_eq_nil in E.
      exact (interpolate_pair_nonempty p0 q (proj1 E)). }
    change (last (p0 :: q :: rest) p0) with (last (q :: rest) p0).
    rewrite <- H3.
    destruct (interpolate_from p0 (q :: rest)) as [|a t]; [contradiction | reflexivity].
Qed.

Lemma densify_aligned_contour_witness :
  exists l,
    interpolate_contour [px 0 0; px 0 3; px 2 5] = Some l
    /\ eight_connected l = true
    /\ (forall v, In v [px 0 0; px 0 3; px 2 5] -> In v l)
    /\ front l = front [px 0 0; px 0 3; px 2 5] /\ back l = back [px 0 0; px 0 3; px 2 5].
Proof.
  eexists. split; [reflexivity|].
  apply (densify_aligned_contour [px 0 0; px 0 3; px 2 5]); reflexivity.
Defined.

Lemma interpolate_from_length (rest : list CvPoint) :
  forall p, length rest <= length (interpolate_from p rest).
Proof.
  induction rest as [|q rest IH]; intros p; [apply Nat.le_refl|].
  cbn [interpolate_from]. rewrite length_app. specialize (IH q).
  pose proof (interpolate_pair_nonempty p q) as Hne.
  destruct (interpolate_pair p q); [contradiction|]. simpl. lia.
Qed.

Lemma interpolate_from_fixed (rest : list CvPoint) :
  forall p, interpolate_from p rest = rest <-> eight_connected (p :: rest) = true.
Proof.
  induction rest as [|q rest IH]; intros p; [split; reflexivity|].
  change (eight_connected (p :: q :: rest))
    with (Z.leb (chebyshev p q) 1 && eight_connected (q :: rest)).
  cbn [interpolate_from]. rewrite andb_true_iff, <- IH.
  destruct (interpolate_pair_facts p q) as (_ & Hl & _).
  destruct (Z.leb_spec (chebyshev p q) 1) as [Hd|Hd].
  - rewrite (interpolate_pair_near p q Hd). cbn [app].
    split; [intros E; injection E as E; split; [reflexivity | exact E]
           | intros [_ E]; rewrite E; reflexivity].
  - split; [|intros [E _]; discriminate].
    intros E. apply (f_equal (@length CvPoint)) in E.
    rewrite length_app, Hl in E. cbn [length] in E.
    pose proof (interpolate_from_length rest q). lia.
Qed.

(** X4: the densification returns a contour unchanged exactly when the
    contour is not empty and already 8-connected. *)
Theorem densify_connected_contour_unchanged (c : list CvPoint) :
  interpolate_contour c = Some c <-> c <> [] /\ eight_connected c = true.
Proof.
  destruct c as [|p0 rest]; [split; [discriminate | intros [H _]; contradiction]|].
  cbn [interpolate_contour]. rewrite <- interpolate_from_fixed.
  split.
  - intros E. injection E as E. split; [discriminate | exact E].
  - intros [_ E]. rewrite E. reflexivity.
Qed.

(** ** [convert2DContourToCloud] and [convertCloudTo2DContour] *)

(** The number of binary digits of a positive number below [2 ^ n]. *)
Lemma digits2_pos_bound (m : positive) :
  forall n : Z, (Zpos m < 2 ^ n)%Z -> (0 <= n)%Z -> (Zpos (digits2_pos m) <= n)%Z.
Proof.
  induction m as [p IH|p IH|]; intros n Hm Hn; cbn [digits2_pos].
  - assert (Hn1 : (1 <= n)%Z).
    { destruct (Z.eq_dec n 0) as [->|]; [simpl in Hm; lia | lia]. }
    rewrite Pos2Z.inj_succ. specialize (IH (n - 1)%Z).
    replace n with (Z.succ (n - 1)) in Hm by lia. rewrite Z.pow_succ_r in Hm by lia.
    rewrite Pos2Z.inj_xI in Hm. lia.
  - assert (Hn1 : (1 <= n)%Z).
    { destruct (Z.eq_dec n 0) as [->|]; [simpl in Hm; lia | lia]. }
    rewrite Pos2Z.inj_succ. specialize (IH (n - 1)%Z).
    replace n with (Z.succ (n - 1)) in Hm by lia. rewrite Z.pow_succ_r in Hm by lia.
    rewrite Pos2Z.inj_xO in Hm. lia.
  - destruct (Z.eq_dec n 0) as [->|]; [simpl in Hm; lia | lia].
Qed.

Lemma digits2_pos_shift (m k : positive) :
  digits2_pos (Pos.iter xO m k) = (digits2_pos m + k)%positive.
Proof.
  induction k as [|k IH] using Pos.peano_ind.
  - cbn. lia.
  - rewrite Pos.iter_succ. cbn [digits2_pos]. rewrite IH. lia.
Qed.

Lemma shiftl_back (m k : positive) :
  Z.shiftl (Zpos (Pos.iter xO m k)) (Zneg k) = Zpos m.
Proof.
  cbn [Z.shiftl].
  induction k as [|k IH] using Pos.peano_ind.
  - reflexivity.
  - rewrite (Pos.iter_succ k positive xO m).
    rewrite (Pos.iter_succ_r k Z Z.div2 (Zpos (xO (Pos.iter xO m k)))).
    cbn [Z.div2]. exact IH.
Qed.

(** A mantissa of 24 digits with an exponent between -23 and 0 is not
    rounded. *)
Lemma binary_round_aux_exact (s : bool) (mz : positive) (ez : Z) :
  Zpos (digits2_pos mz) = 24%Z -> (- 24 < ez <= 0)%Z ->
  binary_round_aux 24 128 s (Zpos mz) ez loc_Exact = S754_finite s mz ez.
Proof.
  intros Hdig Hez.
  assert (E0 : (fexp 24 128 (Zdigits2 (Zpos mz) + ez) - ez = 0)%Z).
  { unfold fexp, emin, Zdigits2. rewrite Hdig. lia. }
  unfold binary_round_aux, shr_fexp. rewrite E0.
  cbn [shr shr_record_of_loc shr_m loc_of_shr_record round_nearest_even].
  rewrite E0. cbn [shr shr_record_of_loc shr_m].
  destruct (Z.leb_spec ez (128 - 24)) as [_|H]; [reflexivity | lia].
Qed.

(** An integer of fewer than 25 binary digits is a [float]: its conversion
    is the number itself with the mantissa shifted to 24 digits. *)
Lemma binary_round_small (s : bool) (m : positive) :
  (Zpos m < 2 ^ 24)%Z ->
  exists mz ez,
    binary_round 24 128 s m 0 = S754_finite s mz ez
    /\ Z.shiftl (Zpos mz) ez = Zpos m.
Proof.
  intros Hm.
  pose proof (digits2_pos_bound m 24 Hm ltac:(lia)) as Hd.
  assert (Ef : fexp 24 128 (Zpos (digits2_pos m) + 0) = (Zpos (digits2_pos m) - 24)%Z).
  { unfold fexp, emin. lia. }
  unfold binary_round, shl_align. rewrite Ef.
  destruct (Zpos (digits2_pos m) - 24 - 0)%Z as [|q|k] eqn:E.
  - exists m, 0%Z. split; [|reflexivity].
    apply binary_round_aux_exact; lia.
  - lia.
  - exists (Pos.iter xO m k), (Zpos (digits2_pos m) - 24)%Z. split.
    + apply binary_round_aux_exact; [|lia].
      rewrite digits2_pos_shift, Pos2Z.inj_add. lia.
    + replace (Zpos (digits2_pos m) - 24)%Z with (Zneg k) by lia. apply shiftl_back.
Qed.

Lemma b32_round_trip (z : Z) :
  (Z.abs z < 2 ^ 24)%Z -> b32_to_int (b32_of_int z) = Some z.
Proof.
  intros Hz. unfold b32_of_int, binary_normalize.
  destruct z as [|m|m]; [reflexivity| |].
  - destruct (binary_round_small false m) as (mz & ez & -> & E); [cbn in Hz; lia|].
    unfold b32_to_int. rewrite E. cbn [cond_Zopp].
    destruct (Z.leb_spec (- 2 ^ 31) (Zpos m)); destruct (Z.ltb_spec (Zpos m) (2 ^ 31));
      cbn [andb]; try reflexivity; cbn in Hz; lia.
  - destruct (binary_round_small true m) as (mz & ez & -> & E); [cbn in Hz; lia|].
    unfold b32_to_int. rewrite E. cbn [cond_Zopp].
    change (- Zpos m)%Z with (Zneg m).
    destruct (Z.leb_spec (- 2 ^ 31) (Zneg m)); destruct (Z.ltb_spec (Zneg m) (2 ^ 31));
      cbn [andb]; try reflexivity; cbn in Hz; lia.
Qed.

Lemma Int_part_IZR (z : Z) : Int_part (IZR z) = z.
Proof.
  unfold Int_part. rewrite <- (tech_up (IZR z) (z + 1)); [lia | |].
  - rewrite plus_IZR. lra.
  - rewrite plus_IZR. lra.
Qed.

Lemma R_round_trip (z : Z) : R_to_int (IZR z) = Some z.
Proof.
  unfold R_to_int. f_equal. destruct (Rlt_dec (IZR z) 0) as [H|H].
  - rewrite <- opp_IZR, Int_part_IZR. lia.
  - apply Int_part_IZR.
Qed.

(** X5: a pixel contour converted to a cloud and back is the contour again:
    in binary32 for coordinates of absolute value below 2^24 (a [float] holds
    them exactly), and over the real numbers for all coordinates. *)
Theorem pixel_contour_round_trip :
  (forall c : list CvPoint,
      Forall exact_pixel c ->
      @convertCloudTo2DContour IEEE (@convert2DContourToCloud IEEE c) = Some c)
  /\ (forall c : list CvPoint,
         @convertCloudTo2DContour Exact (@convert2DContourToCloud Exact c) = Some c).
Proof.
  split.
  - intros c H. unfold convertCloudTo2DContour, convert2DContourToCloud.
    induction H as [|p c [Hx Hy] _ IH]; [reflexivity|].
    cbn [map mapM x y]. cbn [f_to_int f_of_int IEEE].
    rewrite (b32_round_trip _ Hx), (b32_round_trip _ Hy). cbn [bind].
    cbn [f_to_int f_of_int IEEE] in IH. rewrite IH. cbn [bind].
    destruct p; reflexivity.
  - intros c. unfold convertCloudTo2DContour, convert2DContourToCloud.
    induction c as [|p c IH]; [reflexivity|].
    cbn [map mapM x y]. cbn [f_to_int f_of_int Exact].
    rewrite !R_round_trip. cbn [bind].
    cbn [f_to_int f_of_int Exact] in IH. rewrite IH. cbn [bind].
    destruct p; reflexivity.
Qed.

Lemma pixel_contour_round_trip_witness :
  @convertCloudTo2DContour IEEE (@convert2DContourToCloud IEEE ring) = Some ring.
Proof.
  apply (proj1 pixel_contour_round_trip).
  repeat constructor; cbn; lia.
Defined.

(** ** [sequence] with a search that may find nothing *)

Section SequencePartial.
Context {A : Arith} {K : KdTree}.
Variable epsilon : dbl.
Variable cloud : list PointXYZ.

(** Leaving the loop by [break] does not touch the sequenced points. *)
Lemma sequence_body_break (st st' : SeqState) :
  sequence_body epsilon cloud st = Some (Break st') ->
  sequenced_indices st' = sequenced_indices st
  /\ sequenced_points st' = sequenced_points st.
Proof.
  unfold sequence_body. intros H.
  apply bind_Some in H. destruct H as [u [_ H]].
  destruct u as [|u0 u]; [injection H as <-; split; reflexivity|].
  destruct (nearestKSearch _ _ _ _) as [[k d]|]; [|injection H as <-; split; reflexivity].
  destruct (sequenced_indices st) as [|s0 s].
  - destruct (existsb _ _); [discriminate|].
    apply bind_Some in H. destruct H as [cp [_ H]].
    apply bind_Some in H. destruct H as [si [_ H]].
    apply bind_Some in H. destruct H as [sp [_ H]].
    destruct (dltb _ _); discriminate.
  - destruct (existsb _ _); [discriminate|].
    apply bind_Some in H. destruct H as [cp [_ H]].
    apply bind_Some in H. destruct H as [si [_ H]].
    apply bind_Some in H. destruct H as [sp [_ H]].
    destruct (dltb _ _); discriminate.
Qed.

(** What holds of the sequenced indices in a state of the invariant that is
    the first one or follows an execution of the body. *)
Lemma seq_inv_sequenced (st : SeqState) :
  seq_inv cloud st ->
  sequenced_indices st = [] \/ 1 <= iter_count st ->
  NoDup (sequenced_indices st)
  /\ (forall i, In i (sequenced_indices st) -> i < length cloud)
  /\ length (sequenced_indices st) <> 1.
Proof.
  intros Hinv Hfirst.
  pose proof (seq_inv_NoDup cloud st Hinv) as Hnd.
  pose proof (fun i => seq_inv_bound cloud st i Hinv) as Hb.
  destruct Hinv as (Hin & Hperm & Hlast & _ & _ & Hcount).
  destruct Hlast as [E|E].
  { rewrite E. split; [constructor|]. split; [intros i []|]. discriminate. }
  assert (Hne : sequenced_indices st <> []).
  { intros E0. rewrite E0 in E. simpl in E. discriminate. }
  destruct Hfirst as [E0|Hiter]; [contradiction|].
  apply Permutation_length in Hperm. rewrite length_seq, length_app in Hperm.
  split; [|split].
  - rewrite E. apply NoDup_app_remove_r in Hnd as Hrl.
    apply Permutation_NoDup with (l := search_point_idx st :: removelast (sequenced_indices st)).
    + apply Permutation_cons_append.
    + constructor; [|exact Hrl].
      intros Hc. exact (NoDup_app_disjoint _ _ _ Hnd Hc Hin).
  - intros i Hi. rewrite E in Hi. apply in_app_or in Hi.
    apply Hb. apply in_or_app.
    destruct Hi as [Hi|[<-|[]]]; [left; exact Hi | right; exact Hin].
  - rewrite E, length_app. simpl. lia.
Qed.


Lemma sequence_loop_partial (max_iters fuel : nat) :
  kd_sound K ->
  forall (st : SeqState) (iters : nat) (st' : SeqState) (k : nat),
    seq_inv cloud st ->
    sequenced_indices st = [] \/ 1 <= iter_count st ->
    sequence_loop fuel epsilon cloud max_iters st iters = Finished (st', k) ->
    NoDup (sequenced_indices st')
    /\ (forall i, In i (sequenced_indices st') -> i < length cloud)
    /\ length (sequenced_indices st') <> 1
    /\ Forall2 (fun i p => nth_error cloud i = Some p)
               (sequenced_indices st') (sequenced_points st').
Proof.
  intros Hs.
  assert (Hpost : forall st, seq_inv cloud st ->
                             sequenced_indices st = [] \/ 1 <= iter_count st ->
                             NoDup (sequenced_indices st)
                             /\ (forall i, In i (sequenced_indices st) -> i < length cloud)
                             /\ length (sequenced_indices st) <> 1
                             /\ Forall2 (fun i p => nth_error cloud i = Some p)
                                        (sequenced_indices st) (sequenced_points st)).
  { intros st Hinv Hf. destruct (seq_inv_sequenced st Hinv Hf) as (H1 & H2 & H3).
    destruct Hinv as (_ & _ & _ & HF & _). auto. }
  induction fuel as [|fuel IH]; intros st iters st' k Hinv Hfirst H; simpl in H.
  - destruct (Nat.leb (iter_count st) max_iters); [discriminate|].
    injection H as <- _. exact (Hpost st Hinv Hfirst).
  - destruct (Nat.leb (iter_count st) max_iters);
      [|injection H as <- _; exact (Hpost st Hinv Hfirst)].
    destruct (sequence_body epsilon cloud st) as [[st2|st2]|] eqn:E; [| |discriminate].
    + pose proof (sequence_body_iter epsilon cloud st _ E) as Hit. cbn in Hit.
      destruct (seq_body_step epsilon cloud st Hs Hinv) as (_ & _ & [C|[C|C]]).
      * destruct C as (_ & st3 & E3 & _). rewrite E in E3. discriminate.
      * destruct C as (_ & _ & st3 & E3). rewrite E in E3. discriminate.
      * destruct C as (_ & st3 & E3 & Hinv3 & _). rewrite E in E3. injection E3 as <-.
        apply (IH st2 (S iters) st' k Hinv3); [right; lia | exact H].
    + injection H as <- _.
      destruct (sequence_body_break st st2 E) as [Ei Ep]. rewrite Ei, Ep.
      exact (Hpost st Hinv Hfirst).
Qed.

End SequencePartial.

(** The points of distinct valid indices are, up to order, a part of the
    cloud. *)
Lemma points_of_distinct_indices {A : Arith} (cloud : list PointXYZ)
      (s : list nat) (pts : list PointXYZ) :
  NoDup s -> (forall i, In i s -> i < length cloud) ->
  Forall2 (fun i p => nth_error cloud i = Some p) s pts ->
  exists rest, Permutation (pts ++ rest) cloud.
Proof.
  intros Hnd Hb HF.
  set (others := filter (fun i => negb (existsb (Nat.eqb i) s)) (seq 0 (length cloud))).
  assert (Ho : forall i, In i others <-> i < length cloud /\ ~ In i s).
  { intros i. unfold others. rewrite filter_In, in_seq, negb_true_iff.
    split; intros [H1 H2]; (split; [lia|]).
    - intros Hi. assert (existsb (Nat.eqb i) s = true); [|congruence].
      apply existsb_exists. exists i. split; [exact Hi | apply Nat.eqb_refl].
    - destruct (existsb (Nat.eqb i) s) eqn:E; [|reflexivity].
      apply existsb_exists in E. destruct E as (j & Hj & Ej).
      apply Nat.eqb_eq in Ej. subst j. contradiction. }
  assert (HP : Permutation (seq 0 (length cloud)) (s ++ others)).
  { apply NoDup_Permutation.
    - apply seq_NoDup.
    - apply NoDup_app; [exact Hnd | apply NoDup_filter, seq_NoDup |].
      intros i Hi Hi'. apply Ho in Hi'. tauto.
    - intros i. rewrite in_seq, in_app_iff, Ho. split.
      + intros Hi. destruct (in_dec Nat.eq_dec i s); [left; assumption | right; split; [lia|assumption]].
      + intros [Hi|[Hi _]]; [specialize (Hb i Hi)|]; lia. }
  assert (Hrest : exists rest, Forall2 (fun i p => nth_error cloud i = Some p) others rest).
  { assert (Hbo : forall i, In i others -> i < length cloud) by (intros i Hi; apply Ho in Hi; tauto).
    clear HP Ho. induction others as [|i o IH]; [exists []; constructor|].
    destruct IH as (r & Hr); [intros j Hj; apply Hbo; right; exact Hj|].
    destruct (nth_error cloud i) as [p|] eqn:E.
    - exists (p :: r). constructor; assumption.
    - apply nth_error_None in E. specialize (Hbo i (or_introl eq_refl)). lia. }
  destruct Hrest as (rest & Hrest). exists rest.
  apply (points_of_indices cloud (s ++ others)); [|exact HP].
  apply Forall2_app; assumption.
Qed.

(** X6: with a search that only returns indices it was given, the path
    that [sequence] returns is, up to order, a part of the input cloud (no
    point is invented or repeated), also when the search gives up early; the
    path never consists of a single point; on an empty cloud the call has no
    defined result. *)
Theorem sequence_path_within_input {A : Arith} {K : KdTree}
        (cloud : list PointXYZ) (epsilon : dbl) :
  kd_sound K ->
  (forall out, sequence cloud epsilon = Some out ->
               (exists rest, Permutation (out ++ rest) cloud) /\ length out <> 1)
  /\ (cloud = [] -> sequence cloud epsilon = None).
Proof.
  intros Hs. split; [|intros ->; reflexivity].
  intros out H. unfold sequence, sequence_run in H.
  destruct (sequence_init cloud) as [st0|] eqn:E0; [|discriminate].
  destruct (sequence_loop _ _ _ _ _ _) as [[st' k]| |] eqn:E; try discriminate.
  injection H as <-.
  assert (H0 : sequenced_indices st0 = []).
  { unfold sequence_init in E0. apply bind_Some in E0. destruct E0 as (p & _ & E0).
    injection E0 as <-. reflexivity. }
  destruct (sequence_loop_partial epsilon cloud (length cloud) _ Hs st0 0 st' k
              (seq_inv_init cloud st0 E0) (or_introl H0) E) as (Hnd & Hb & Hlen & HF).
  split.
  - exact (points_of_distinct_indices cloud _ _ Hnd Hb HF).
  - rewrite <- (Forall2_length HF). exact Hlen.
Qed.

Lemma sequence_path_within_input_witness :
  exists out,
    @sequence IEEE LinearScan [pt 0 0 0; pt 2 0 0; pt 1 0 0] (D 0) = Some out
    /\ (exists rest, Permutation (out ++ rest) [pt 0 0 0; pt 2 0 0; pt 1 0 0])
    /\ length out <> 1.
Proof.
  eexists. split; [vm_compute; reflexivity|].
  apply (proj1 (@sequence_path_within_input IEEE LinearScan
                  [pt 0 0 0; pt 2 0 0; pt 1 0 0] (D 0) (@LinearScan_sound IEEE))).
  vm_compute. reflexivity.
Defined.

(** ** [split] *)

Lemma subsequence_refl {X : Type} (l : list X) : subsequence l l.
Proof. induction l; [apply sub_nil | apply sub_keep; assumption]. Qed.

Lemma subsequence_app {X : Type} (s1 l1 s2 l2 : list X) :
  subsequence s1 l1 -> subsequence s2 l2 -> subsequence (s1 ++ s2) (l1 ++ l2).
Proof.
  intros H1 H2. induction H1 as [l|a s l _ IH|a s l _ IH]; simpl.
  - induction l as [|a l IH]; simpl; [exact H2 | apply sub_skip; exact IH].
  - apply sub_skip. exact IH.
  - apply sub_keep. exact IH.
Qed.

Lemma subsequence_app_r {X : Type} (s l r : list X) :
  subsequence s l -> subsequence s (l ++ r).
Proof.
  intros H. rewrite <- (app_nil_r s). apply subsequence_app; [exact H | apply sub_nil].
Qed.

Lemma subsequence_length {X : Type} (s l : list X) :
  subsequence s l -> length s <= length l.
Proof. induction 1; simpl; lia. Qed.

Lemma firstn_split_at {X : Type} (l : list X) :
  forall a k, firstn (a + k) l = firstn a l ++ firstn k (skipn a l).
Proof.
  induction l as [|x l IH]; intros a k.
  - rewrite !firstn_nil, skipn_nil, firstn_nil. reflexivity.
  - destruct a as [|a]; [reflexivity|]. simpl. rewrite IH. reflexivity.
Qed.

Lemma subsequence_firstn_mono {X : Type} (s l : list X) (a b : nat) :
  a <= b -> subsequence s (firstn a l) -> subsequence s (firstn b l).
Proof.
  intros Hab H. replace b with (a + (b - a)) by lia.
  rewrite firstn_split_at. apply subsequence_app_r. exact H.
Qed.

Section SplitFacts.
Context {A : Arith}.

Lemma drop_close_subsequence (l : list PointXYZ) :
  forall p_prev, subsequence (drop_close p_prev l) l.
Proof.
  induction l as [|p l IH]; intros p_prev; simpl; [apply sub_nil|].
  destruct (dltb _ _); [apply sub_skip | apply sub_keep]; apply IH.
Qed.

Lemma save_segment_subsequence (l : list PointXYZ) : subsequence (save_segment l) l.
Proof.
  destruct l as [|p l]; [apply sub_nil|].
  simpl. apply sub_keep. apply drop_close_subsequence.
Qed.

Lemma split_step_subsequence (pts : list PointXYZ) (d : dbl) (st : nat * list Curve) (i : nat) :
  fst st <= i /\ subsequence (concat (snd st)) (firstn (fst st) pts) ->
  fst (split_step pts d st i) <= S i
  /\ subsequence (concat (snd (split_step pts d st i)))
                 (firstn (fst (split_step pts d st i)) pts).
Proof.
  destruct st as [start vec]. cbn [fst snd]. intros [Hle Hsub].
  unfold split_step.
  destruct (match nth_error pts i with
            | Some p_current =>
                match nth_error pts (S i) with
                | Some p_next => dltb (diff_norm p_next p_current) d
                | None => false
                end
            | None => false
            end).
  { cbn [fst snd]. split; [lia | exact Hsub]. }
  destruct (Nat.eqb i start).
  { cbn [fst snd]. split; [lia|].
    apply (subsequence_firstn_mono _ _ start (S i)); [lia | exact Hsub]. }
  destruct (Nat.leb (length (save_segment (range pts start i))) 1).
  { cbn [fst snd]. split; [lia | exact Hsub]. }
  cbn [fst snd]. split; [lia|].
  rewrite concat_app. cbn [concat]. rewrite app_nil_r.
  replace (S i) with (start + (S i - start)) by lia.
  rewrite firstn_split_at. apply subsequence_app; [exact Hsub|].
  unfold range. apply save_segment_subsequence.
Qed.

Lemma split_fold_subsequence (pts : list PointXYZ) (d : dbl) (m : nat) :
  forall (k : nat) (st : nat * list Curve),
    fst st <= k /\ subsequence (concat (snd st)) (firstn (fst st) pts) ->
    let st' := fold_left (split_step pts d) (seq k m) st in
    fst st' <= k + m /\ subsequence (concat (snd st')) (firstn (fst st') pts).
Proof.
  induction m as [|m IH]; intros k st H; cbn [seq fold_left].
  - split; [lia | tauto].
  - pose proof (split_step_subsequence pts d st k H) as H'.
    destruct (IH (S k) _ H') as [H1 H2]. split; [lia | exact H2].
Qed.

Lemma drop_close_apart_id (l : list PointXYZ) :
  forall p, consecutive not_close (p :: l) -> drop_close p l = l.
Proof.
  induction l as [|q l IH]; intros p H; [reflexivity|].
  destruct H as [Hpq H]. cbn [drop_close]. unfold not_close in Hpq. rewrite Hpq.
  rewrite (IH q H). reflexivity.
Qed.

Lemma consecutive_nth (R : PointXYZ -> PointXYZ -> Prop) (l : list PointXYZ) :
  consecutive R l ->
  forall i a b, nth_error l i = Some a -> nth_error l (S i) = Some b -> R a b.
Proof.
  induction l as [|p l IH]; intros H i a b Ha Hb; [destruct i; discriminate|].
  destruct l as [|q l]; [destruct i; [discriminate | destruct i; discriminate]|].
  destruct H as [Hpq H]. destruct i as [|i].
  - injection Ha as <-. injection Hb as <-. exact Hpq.
  - exact (IH H i a b Ha Hb).
Qed.

Lemma split_fold_near (pts : list PointXYZ) (d : dbl) (m : nat) :
  consecutive (within_split_dist d) pts ->
  forall k, k + m < length pts ->
            fold_left (split_step pts d) (seq k m) (0, []) = (0, []).
Proof.
  intros Hnear. induction m as [|m IH]; intros k Hk; [reflexivity|].
  cbn [seq fold_left].
  assert (E : split_step pts d (0, []) k = (0, [])).
  { unfold split_step.
    destruct (nth_error pts k) as [a|] eqn:Ea; [|apply nth_error_None in Ea; lia].
    destruct (nth_error pts (S k)) as [b|] eqn:Eb; [|apply nth_error_None in Eb; lia].
    pose proof (consecutive_nth _ pts Hnear k a b Ea Eb) as H.
    unfold within_split_dist in H. rewrite H. reflexivity. }
  rewrite E. apply IH. lia.
Qed.

End SplitFacts.

(** X7: every segment that [split] returns has at least two points; the
    segments, concatenated in their order, are a subsequence of the input (no
    point is added, repeated or moved); a cloud of at most one point gives no
    segment. *)
Theorem split_segments_from_input {A : Arith} (sequenced_points : list PointXYZ)
        (split_dist : dbl) :
  Forall (fun c => 2 <= length c) (split sequenced_points split_dist)
  /\ subsequence (concat (split sequenced_points split_dist)) sequenced_points
  /\ (length sequenced_points <= 1 -> split sequenced_points split_dist = []).
Proof.
  pose proof (split_two_points sequenced_points split_dist) as H2.
  assert (Hsub : subsequence (concat (split sequenced_points split_dist)) sequenced_points).
  { unfold split.
    destruct (split_fold_subsequence sequenced_points split_dist (length sequenced_points)
                0 (0, [])) as [_ H].
    - cbn. split; [lia | apply sub_nil].
    - cbv zeta in H.
      remember (fold_left _ _ _) as st eqn:Est.
      destruct (Nat.le_gt_cases (fst st) (length sequenced_points)) as [Hle|Hgt].
      + pose proof (subsequence_firstn_mono _ _ _ _ Hle H) as H'.
        rewrite firstn_all in H'. exact H'.
      + rewrite firstn_all2 in H by lia. exact H. }
  split; [exact H2|]. split; [exact Hsub|].
  intros Hlen. apply subsequence_length in Hsub.
  destruct (split sequenced_points split_dist) as [|c r]; [reflexivity|].
  inversion H2; subst. cbn [concat] in Hsub. rewrite length_app in Hsub. lia.
Qed.

Lemma split_segments_from_input_witness :
  @split IEEE [pt 5 7 0] (D 2) = [].
Proof.
  apply (proj2 (proj2 (@split_segments_from_input IEEE [pt 5 7 0] (D 2)))).
  simpl. lia.
Defined.

(** X8: a sequence of at least two points in which every point is closer
    than [split_dist] to the point before it, and not closer than
    [MIN_POINT_DIST], comes back from [split] as one segment, unchanged. *)
Theorem split_keeps_gapless_sequence {A : Arith} (sequenced_points : list PointXYZ)
        (split_dist : dbl) :
  2 <= length sequenced_points ->
  consecutive (within_split_dist split_dist) sequenced_points ->
  consecutive not_close sequenced_points ->
  split sequenced_points split_dist = [sequenced_points].
Proof.
  intros Hlen Hnear Hapart. unfold split.
  remember (length sequenced_points) as n eqn:En.
  destruct n as [|m]; [lia|].
  rewrite seq_S, fold_left_app. cbn [Nat.add].
  rewrite (split_fold_near sequenced_points split_dist m Hnear 0) by lia.
  cbn [fold_left]. unfold split_step.
  assert (Em : nth_error sequenced_points (S m) = None) by (apply nth_error_None; lia).
  rewrite Em.
  replace (match nth_error sequenced_points m with
           | Some _ => false
           | None => false
           end) with false by (destruct (nth_error sequenced_points m); reflexivity).
  destruct m as [|m']; [lia|]. cbn [Nat.eqb].
  unfold range. rewrite Nat.sub_0_r. cbn [skipn]. rewrite En, firstn_all.
  assert (Es : save_segment sequenced_points = sequenced_points).
  { destruct sequenced_points as [|p l]; [reflexivity|].
    cbn [save_segment]. rewrite (drop_close_apart_id l p Hapart). reflexivity. }
  rewrite Es, <- En. cbn. reflexivity.
Qed.

Lemma split_keeps_gapless_sequence_witness :
  @split IEEE [pt 0 0 0; pt 1 0 0; pt 2 0 0] (D 2) = [[pt 0 0 0; pt 1 0 0; pt 2 0 0]].
Proof.
  apply (@split_keeps_gapless_sequence IEEE).
  - simpl. lia.
  - vm_compute. repeat split; reflexivity.
  - vm_compute. repeat split; reflexivity.
Defined.

(** ** [findClosedCurves] and [simplifyByMinimunLength] *)

Lemma back_nonempty {X : Type} (l : list X) : l <> [] -> exists b, back l = Some b.
Proof.
  intros H. destruct (back l) as [b|] eqn:E; [exists b; reflexivity|].
  apply back_None in E. contradiction.
Qed.

(** X9: [findClosedCurves] has a defined result exactly when no curve is
    empty; it then sorts the curves into two lists without losing or
    reordering any: the open curves are the curves that fail the test,
    unchanged, and the closed curves are the curves that pass it, each with
    its first point appended. *)
Theorem findClosedCurves_partition {A : Arith} (curves : list Curve) (max_dist : dbl) :
  (findClosedCurves curves max_dist <> None <-> Forall (fun c => c <> []) curves)
  /\ (forall closed open,
         findClosedCurves curves max_dist = Some (closed, open) ->
         closed = map (fun c => c ++ firstn 1 c) (filter (closes max_dist) curves)
         /\ open = filter (fun c => negb (closes max_dist c)) curves
         /\ length closed + length open = length curves).
Proof.
  induction curves as [|c curves [IHd IHp]].
  - split.
    + split; [constructor | discriminate].
    + intros closed open H. injection H as <- <-. repeat split.
  - cbn [findClosedCurves]. destruct c as [|f c].
    { split.
      - split; [intros H; exfalso; apply H; reflexivity | intros H; inversion H; congruence].
      - intros closed open H. discriminate. }
    destruct (back_nonempty (f :: c) ltac:(discriminate)) as (b & Eb).
    cbn [front hd_error bind]. rewrite Eb. cbn [bind].
    destruct (findClosedCurves curves max_dist) as [[closed0 open0]|] eqn:E.
    + destruct (IHp closed0 open0 eq_refl) as (Hc & Ho & Hl).
      assert (Ecl : closes max_dist (f :: c) = dltb (diff_norm f b) max_dist).
      { unfold closes. cbn [front hd_error]. rewrite Eb. reflexivity. }
      cbn [bind]. cbn [filter]. rewrite Ecl.
      split.
      * split; [intros _ | destruct (dltb _ _); discriminate].
        constructor; [discriminate|]. apply IHd. discriminate.
      * intros closed open H.
        destruct (dltb (diff_norm f b) max_dist); injection H as <- <-; cbn [negb map].
        -- rewrite <- Hc, <- Ho. cbn [length firstn]. repeat split. lia.
        -- rewrite <- Hc, <- Ho. cbn [length]. repeat split. lia.
    + cbn [bind]. split.
      * split; [intros H; exfalso; apply H; reflexivity|].
        intros H. inversion H; subst. apply IHd. assumption.
      * intros closed open H. discriminate.
Qed.

Lemma findClosedCurves_partition_witness :
  exists closed open,
    @findClosedCurves IEEE [lower_side; [pt 0 0 0; pt 1 0 0; pt 0 1 0]] (Dq 3 2)
    = Some (closed, open)
    /\ closed = map (fun c => c ++ firstn 1 c)
                    (filter (@closes IEEE (Dq 3 2))
                            [lower_side; [pt 0 0 0; pt 1 0 0; pt 0 1 0]])
    /\ open = filter (fun c => negb (@closes IEEE (Dq 3 2) c))
                     [lower_side; [pt 0 0 0; pt 1 0 0; pt 0 1 0]]
    /\ length closed + length open = 2.
Proof.
  eexists. eexists. split; [vm_compute; reflexivity|].
  apply (proj2 (@findClosedCurves_partition IEEE
                  [lower_side; [pt 0 0 0; pt 1 0 0; pt 0 1 0]] (Dq 3 2))).
  vm_compute. reflexivity.
Defined.

Section SimplifyFacts.
Context {A : Arith}.

Lemma simplify_walk_subsequence (min_length : dbl) (interior : list PointXYZ) :
  forall p0, subsequence (simplify_walk min_length p0 interior) interior.
Proof.
  induction interior as [|p1 rest IH]; intros p0; cbn [simplify_walk]; [apply sub_nil|].
  destruct (dltb _ _); [apply sub_keep | apply sub_skip]; apply IH.
Qed.

Lemma simplify_segment_shape (min_length : dbl) (segment s : Curve) :
  simplify_segment min_length segment = Some s ->
  2 <= length s
  /\ (2 <= length segment -> subsequence s segment)
  /\ (length segment = 1 -> s = segment ++ segment).
Proof.
  unfold simplify_segment. intros H.
  apply bind_Some in H. destruct H as (f & Hf & H).
  apply bind_Some in H. destruct H as (b & Hb & H). injection H as <-.
  destruct segment as [|f' rest]; [discriminate|]. injection Hf as ->.
  split; [|split].
  - cbn [length]. rewrite length_app. cbn [length]. lia.
  - intros Hlen. cbn [tl].
    assert (Hrest : rest <> []) by (intros ->; cbn in Hlen; lia).
    assert (El : last (f :: rest) f = last rest f).
    { destruct rest; [contradiction | reflexivity]. }
    rewrite (back_last (f :: rest) f), El in Hb by discriminate. injection Hb as <-.
    rewrite (app_removelast_last f Hrest) at 3.
    apply sub_keep. apply subsequence_app; [|apply subsequence_refl].
    apply simplify_walk_subsequence.
  - intros Hlen. destruct rest as [|t rest']; [|cbn in Hlen; lia].
    cbn in Hb. injection Hb as <-. reflexivity.
Qed.

End SimplifyFacts.

(** X10: [simplifyByMinimunLength] has a defined result exactly when no
    curve is empty; it returns one curve per input curve, each of at least two
    points; a curve of two or more points is thinned to a subsequence of
    itself, and a curve of a single point comes back with that point twice. *)
Theorem simplified_curves_shape {A : Arith} (segments : list Curve) (min_length : dbl) :
  (simplifyByMinimunLength segments min_length <> None
   <-> Forall (fun c => c <> []) segments)
  /\ (forall out,
         simplifyByMinimunLength segments min_length = Some out ->
         Forall2 (fun segment s =>
                    2 <= length s
                    /\ (2 <= length segment -> subsequence s segment)
                    /\ (length segment = 1 -> s = segment ++ segment))
                 segments out).
Proof.
  induction segments as [|c segments [IHd IHp]].
  - split; [split; [constructor | discriminate]|].
    intros out H. injection H as <-. constructor.
  - cbn [simplifyByMinimunLength].
    destruct (simplify_segment min_length c) as [s|] eqn:Es.
    + pose proof (simplify_segment_shape min_length c s Es) as Hs.
      assert (Hc : c <> []).
      { intros ->. discriminate. }
      cbn [bind].
      destruct (simplifyByMinimunLength segments min_length) as [r|] eqn:Er; cbn [bind].
      * split; [split; [intros _ | discriminate]|].
        -- constructor; [exact Hc | apply IHd; discriminate].
        -- intros out H. injection H as <-. constructor; [exact Hs | apply IHp; reflexivity].
      * split; [|intros out H; discriminate].
        split; [intros H; exfalso; apply H; reflexivity|].
        intros H. inversion H; subst. apply IHd. assumption.
    + cbn [bind]. split; [|intros out H; discriminate].
      split; [intros H; exfalso; apply H; reflexivity|].
      intros H. inversion H as [|? ? Hc _]; subst. exfalso.
      destruct c as [|f rest]; [apply Hc; reflexivity|].
      unfold simplify_segment in Es. cbn [front hd_error bind] in Es.
      destruct (back_nonempty (f :: rest) ltac:(discriminate)) as (b & Eb).
      rewrite Eb in Es. discriminate.
Qed.

Lemma simplified_curves_shape_witness :
  exists out,
    @simplifyByMinimunLength IEEE [[pt 0 0 0; pt 1 0 0; pt 1 0 0; pt 2 0 0]; [pt 5 5 0]] (Dq 1 2)
    = Some out
    /\ Forall2 (fun segment s =>
                  2 <= length s
                  /\ (2 <= length segment -> subsequence s segment)
                  /\ (length segment = 1 -> s = segment ++ segment))
               [[pt 0 0 0; pt 1 0 0; pt 1 0 0; pt 2 0 0]; [pt 5 5 0]] out.
Proof.
  eexists. split; [vm_compute; reflexivity|].
  apply (proj2 (@simplified_curves_shape IEEE
                  [[pt 0 0 0; pt 1 0 0; pt 1 0 0; pt 2 0 0]; [pt 5 5 0]] (Dq 1 2))).
  vm_compute. reflexivity.
Defined.

(** ** [extractContoursFromCloud] *)

Lemma to_uint32_small (n : Z) : (0 <= n < 2 ^ 32)%Z -> to_uint32 n = n.
Proof. intros H. unfold to_uint32. apply Z.mod_small. exact H. Qed.

Lemma to_uint32_negative (n : Z) : (- 2 ^ 32 <= n < 0)%Z -> to_uint32 n = (n + 2 ^ 32)%Z.
Proof.
  intros H. unfold to_uint32. symmetry.
  apply (Z.mod_unique_pos n (2 ^ 32) (-1) (n + 2 ^ 32)); lia.
Qed.

(** The unsigned comparison of an [int] coordinate with a dimension. *)
Lemma unsigned_bound_check (n dim : Z) :
  (- 2 ^ 31 <= n < 2 ^ 31)%Z -> (0 <= dim < 2 ^ 31)%Z ->
  Z.geb (to_uint32 n) dim = false <-> (0 <= n < dim)%Z.
Proof.
  intros Hn Hd. rewrite Z.geb_leb, Z.leb_gt.
  destruct (Z_lt_ge_dec n 0) as [Hneg|Hpos].
  - rewrite to_uint32_negative by lia. lia.
  - rewrite to_uint32_small by lia. lia.
Qed.

Section ExtractFacts.
Context {A : Arith}.
Variable input : PointCloud.
Hypothesis Hgrid : filled_grid input.

Lemma cloud_at_in_grid (idx : CvPoint) :
  in_grid input idx ->
  cloud_at input (cv_x idx) (cv_y idx) = grid_point input idx
  /\ exists p, grid_point input idx = Some p.
Proof.
  destruct Hgrid as (Hw & Hh & Hlen & Hfit). intros [Hx Hy].
  assert (Hb : (0 <= cv_y idx * width input + cv_x idx < width input * height input)%Z) by nia.
  unfold cloud_at, grid_point.
  rewrite (to_uint32_small (cv_y idx)), (to_uint32_small (cv_x idx)) by lia.
  rewrite to_uint32_small by lia.
  split; [reflexivity|].
  destruct (nth_error (points input) (Z.to_nat (cv_y idx * width input + cv_x idx)))
    as [p|] eqn:E; [exists p; reflexivity|].
  apply nth_error_None in E. lia.
Qed.

Lemma extract_points_grid (indices : list CvPoint) :
  Forall int_pixel indices ->
  exists r, extract_points input indices = Some r
            /\ match r with
               | inr pts => Forall (in_grid input) indices
                            /\ Forall2 (fun idx p => grid_point input idx = Some p) indices pts
               | inl _ => ~ Forall (in_grid input) indices
               end.
Proof.
  pose proof Hgrid as (Hw & Hh & _).
  induction 1 as [|idx indices [Hix Hiy] _ IH].
  - exists (inr []). split; [reflexivity|]. split; constructor.
  - cbn [extract_points].
    pose proof (unsigned_bound_check (cv_x idx) (width input) Hix Hw) as Bx.
    pose proof (unsigned_bound_check (cv_y idx) (height input) Hiy ltac:(lia)) as By.
    destruct (Z.geb (to_uint32 (cv_x idx)) (width input)) eqn:Ex.
    { cbn [orb]. eexists. split; [reflexivity|].
      intros HF. inversion HF as [|? ? [Hx _] _]; subst.
      apply Bx in Hx. discriminate. }
    destruct (Z.geb (to_uint32 (cv_y idx)) (height input)) eqn:Ey.
    { cbn [orb]. eexists. split; [reflexivity|].
      intros HF. inversion HF as [|? ? [_ Hy] _]; subst.
      apply By in Hy. discriminate. }
    cbn [orb].
    assert (Hin : in_grid input idx) by (split; [apply Bx | apply By]; reflexivity).
    destruct (cloud_at_in_grid idx Hin) as (Eat & p & Ep).
    rewrite Eat, Ep. cbn [bind].
    destruct IH as (r & Er & Hr). rewrite Er. cbn [bind].
    destruct r as [e|pts].
    + exists (inl e). split; [reflexivity|].
      intros HF. inversion HF; subst. contradiction.
    + destruct Hr as [HF H2]. exists (inr (p :: pts)). split; [reflexivity|].
      split; constructor; assumption.
Qed.

Lemma extract_contours_grid (contour_indices : list (list CvPoint)) :
  Forall (Forall int_pixel) contour_indices ->
  exists e cs,
    extract_contours input contour_indices = Some (e, cs)
    /\ Forall2 (fun indices pts =>
                  Forall2 (fun idx p => grid_point input idx = Some p) indices pts)
               (firstn (length cs) contour_indices) cs
    /\ Forall (contour_in_grid input) (firstn (length cs) contour_indices)
    /\ match e with
       | None => length cs = length contour_indices
       | Some _ => exists bad, nth_error contour_indices (length cs) = Some bad
                               /\ ~ contour_in_grid input bad
       end.
Proof.
  induction 1 as [|indices rest Hint _ IH].
  - exists None, []. split; [reflexivity|]. repeat split; constructor.
  - cbn [extract_contours]. destruct indices as [|i0 indices'] eqn:Ei.
    { eexists. exists []. split; [reflexivity|]. cbn [length firstn nth_error].
      split; [constructor|]. split; [constructor|].
      exists []. split; [reflexivity|]. intros [Hne _]. apply Hne. reflexivity. }
    rewrite <- Ei in *.
    destruct (extract_points_grid indices Hint) as (r & Er & Hr). rewrite Er. cbn [bind].
    destruct r as [err|pts].
    + eexists. exists []. split; [reflexivity|]. cbn [length firstn nth_error].
      split; [constructor|]. split; [constructor|].
      exists indices. split; [reflexivity|]. intros [_ Hg]. contradiction.
    + destruct Hr as [Hg H2].
      destruct IH as (e & cs & Er' & HF2 & HF & He). rewrite Er'. cbn [bind].
      exists e, (pts :: cs). split; [reflexivity|]. cbn [length firstn nth_error].
      split; [constructor; assumption|].
      split; [constructor; [split; [rewrite Ei; discriminate | exact Hg] | exact HF]|].
      destruct e as [err|]; [exact He | rewrite He; reflexivity].
Qed.

End ExtractFacts.

(** X11: on a cloud that is not organized [extractContoursFromCloud] fails.
    On an organized cloud with a point for every cell of its grid it never
    throws; it succeeds exactly when there is at least one contour, no contour
    is empty and every pixel lies inside the grid (a negative coordinate is
    rejected by the unsigned comparison); on success the points returned for a
    contour are the points stored for its pixels, in order.  On failure the
    contours before the first one that is empty or leaves the grid have been
    pushed, with the points stored for their pixels, and nothing else. *)
Theorem extractContoursFromCloud_grid {A : Arith}
        (contour_indices : list (list CvPoint)) (input : PointCloud) :
  (isOrganized input = false ->
   extractContoursFromCloud contour_indices input
   = Some (mkResult false "Point Cloud not organized", []))
  /\ (filled_grid input -> Forall (Forall int_pixel) contour_indices ->
      exists res cs,
        extractContoursFromCloud contour_indices input = Some (res, cs)
        /\ (succeeded res = true
            <-> contour_indices <> [] /\ Forall (contour_in_grid input) contour_indices)
        /\ (succeeded res = true ->
            Forall2 (fun indices pts =>
                       Forall2 (fun idx p => grid_point input idx = Some p) indices pts)
                    contour_indices cs)
        /\ (succeeded res = false ->
            Forall2 (fun indices pts =>
                       Forall2 (fun idx p => grid_point input idx = Some p) indices pts)
                    (firstn (length cs) contour_indices) cs
            /\ Forall (contour_in_grid input) (firstn (length cs) contour_indices)
            /\ (contour_indices = []
                \/ exists bad, nth_error contour_indices (length cs) = Some bad
                               /\ ~ contour_in_grid input bad))).
Proof.
  split.
  - intros H. unfold extractContoursFromCloud. rewrite H. reflexivity.
  - intros Hgrid Hint. unfold extractContoursFromCloud.
    assert (Horg : isOrganized input = true).
    { destruct Hgrid as (_ & Hh & _). unfold isOrganized. apply Z.gtb_lt. lia. }
    rewrite Horg. cbn [negb].
    destruct (extract_contours_grid input Hgrid contour_indices Hint)
      as (e & cs & Er & H2 & HF & He).
    rewrite Er. cbn [bind]. destruct e as [err|].
    + destruct He as (bad & Hbad & Hnot).
      eexists. eexists. split; [reflexivity|]. cbn [succeeded].
      split; [split; [discriminate|]|].
      * intros [_ HFall]. exfalso. apply Hnot.
        rewrite Forall_forall in HFall. apply HFall. exact (nth_error_In _ _ Hbad).
      * split; [discriminate|]. intros _. split; [exact H2|]. split; [exact HF|].
        right. exists bad. split; assumption.
    + rewrite He, firstn_all in H2, HF.
      eexists. eexists. split; [reflexivity|]. cbn [succeeded].
      split; [|split].
      * rewrite negb_true_iff, Nat.eqb_neq. split.
        -- intros Hn. split; [|exact HF]. intros ->. apply Hn. exact He.
        -- intros [Hne _] Hz. apply Hne.
           destruct contour_indices; [reflexivity|]. rewrite He in Hz. discriminate Hz.
      * intros _. exact H2.
      * rewrite negb_false_iff, Nat.eqb_eq. intros Hz.
        rewrite He, firstn_all. split; [exact H2|]. split; [exact HF|].
        left. destruct contour_indices; [reflexivity|]. rewrite He in Hz. discriminate Hz.
Qed.

(** On the 3 by 3 grid the second contour leaves the grid: the call fails and
    the first contour stays in the vector. *)
Lemma extractContoursFromCloud_grid_witness :
  exists res cs,
    @extractContoursFromCloud IEEE [[px 0 0; px 2 1]; [px 1 3]; [px 1 1]] (plane 3 3)
    = Some (res, cs)
    /\ length cs = 1
    /\ (succeeded res = true
        <-> [[px 0 0; px 2 1]; [px 1 3]; [px 1 1]] <> []
            /\ Forall (@contour_in_grid IEEE (plane 3 3)) [[px 0 0; px 2 1]; [px 1 3]; [px 1 1]])
    /\ (succeeded res = true ->
        Forall2 (fun indices pts =>
                   Forall2 (fun idx p => @grid_point IEEE (plane 3 3) idx = Some p) indices pts)
                [[px 0 0; px 2 1]; [px 1 3]; [px 1 1]] cs)
    /\ (succeeded res = false ->
        Forall2 (fun indices pts =>
                   Forall2 (fun idx p => @grid_point IEEE (plane 3 3) idx = Some p) indices pts)
                (firstn (length cs) [[px 0 0; px 2 1]; [px 1 3]; [px 1 1]]) cs
        /\ Forall (@contour_in_grid IEEE (plane 3 3))
                  (firstn (length cs) [[px 0 0; px 2 1]; [px 1 3]; [px 1 1]])
        /\ ([[px 0 0; px 2 1]; [px 1 3]; [px 1 1]] = []
            \/ exists bad, nth_error [[px 0 0; px 2 1]; [px 1 3]; [px 1 1]] (length cs) = Some bad
                           /\ ~ @contour_in_grid IEEE (plane 3 3) bad)).
Proof.
  destruct (proj2 (@extractContoursFromCloud_grid IEEE
                     [[px 0 0; px 2 1]; [px 1 3]; [px 1 1]] (plane 3 3)))
    as (res & cs & E & H).
  - unfold filled_grid. cbn. lia.
  - repeat constructor; cbn; lia.
  - exists res, cs. split; [exact E|]. split; [|exact H].
    vm_compute in E. injection E as _ <-. reflexivity.
Defined.

(** ** [computeNormals] and [computePoses] *)

Section NormalsFacts.
Context {A : Arith} {K : KdTree}.



(** A curve of exactly one point has no poses: the access to the point
    before the first one throws. *)
Lemma curve_poses_single (curve : Curve) (curve_normals : list Normal) (poses : list Pose) :
  curve_poses curve curve_normals = Some poses -> length curve <> 1.
Proof.
  intros H Hlen. destruct curve as [|p [|q rest]]; [discriminate Hlen | | discriminate Hlen].
  unfold curve_poses in H. cbn in H. discriminate H.
Qed.

Lemma computePoses_prefix (cfg : RegionDetectionConfig)
      (source_normal_cloud : list PointNormal) (curves : list Curve) :
  forall acc res out,
    computePoses cfg source_normal_cloud curves acc = Some (res, out) ->
    exists added,
      out = acc ++ added
      /\ Forall2 (fun c poses => positions poses = map position c /\ length c <> 1)
                 (firstn (length added) curves) added
      /\ (succeeded res = true -> length added = length curves).
Proof.
  induction curves as [|c curves IH]; intros acc res out H; simpl in H.
  - injection H as <- <-. exists []. split; [symmetry; apply app_nil_r|].
    split; [constructor | reflexivity].
  - apply bind_Some in H. destruct H as (r & _ & H).
    destruct r as [ns|].
    + apply bind_Some in H. destruct H as (ps & Hps & H).
      destruct (IH _ _ _ H) as (added & E & HF & Hlen). exists (ps :: added). split; [|split].
      * rewrite E, <- app_assoc. reflexivity.
      * cbn [length firstn]. constructor; [|exact HF].
        split; [exact (curve_poses_positions _ _ _ Hps) | exact (curve_poses_single _ _ _ Hps)].
      * intros Hs. cbn [length]. rewrite (Hlen Hs). reflexivity.
    + injection H as <- <-. exists []. split; [symmetry; apply app_nil_r|].
      split; [constructor | discriminate].
Qed.

End NormalsFacts.



(** X13: [computePoses] only appends to the vector of pose sequences.  The
    sequences appended belong to the first curves in their order, one pose per
    vertex, at the position of the vertex.  When the call succeeds there is a
    sequence for every curve, and no curve has exactly one vertex (on such a
    curve the access to the vertex before the first one throws). *)
Theorem computePoses_appends_positions {A : Arith} {K : KdTree}
        (cfg : RegionDetectionConfig) (source_normal_cloud : list PointNormal)
        (curves_points : list Curve) (curves_poses : list (list Pose))
        (res : Result) (out : list (list Pose)) :
  computePoses cfg source_normal_cloud curves_points curves_poses = Some (res, out) ->
  exists added,
    out = curves_poses ++ added
    /\ Forall2 (fun c poses => positions poses = map position c)
               (firstn (length added) curves_points) added
    /\ (succeeded res = true ->
        length added = length curves_points
        /\ Forall (fun c => length c <> 1) curves_points).
Proof.
  intros H.
  destruct (computePoses_prefix cfg source_normal_cloud curves_points _ _ _ H)
    as (added & E & HF & Hlen).
  exists added. split; [exact E|]. split.
  - eapply Forall2_impl; [|exact HF]. intros c ps [Hp _]. exact Hp.
  - intros Hs. specialize (Hlen Hs). split; [exact Hlen|].
    rewrite Hlen, firstn_all in HF.
    clear - HF. induction HF as [|c ps cs pss [_ Hc] _ IH]; constructor; assumption.
Qed.

Lemma computePoses_appends_positions_witness :
  exists res added,
    @computePoses IEEE LinearScan scene_cfg x_curve_normals [x_curve] [] = Some (res, [] ++ added)
    /\ Forall2 (fun c poses => @positions IEEE poses = map (@position IEEE) c)
               (firstn (length added) [x_curve]) added
    /\ succeeded res = true /\ length added = 1.
Proof.
  destruct (@computePoses_appends_positions IEEE LinearScan scene_cfg x_curve_normals
              [x_curve] [] (mkResult true "")
              (match @computePoses IEEE LinearScan scene_cfg x_curve_normals [x_curve] [] with
               | Some (_, out) => out
               | None => []
               end))
    as (added & E & HF & Hs).
  { vm_compute. reflexivity. }
  exists (mkResult true ""), added.
  split; [rewrite <- E; vm_compute; reflexivity|].
  split; [exact HF|]. split; [reflexivity|]. exact (proj1 (Hs eq_refl)).
Defined.

(** ** [compute] as a whole *)

Section ComputeShape.
Context {A : Arith} {K : KdTree} {P : PCL} {O : OpenCV}.
Variable cfg : RegionDetectionConfig.

Lemma simplifyByMinimunLength_two_points (min_length : dbl) (segments : list Curve) :
  forall out,
    simplifyByMinimunLength segments min_length = Some out ->
    Forall (fun s => 2 <= length s) out.
Proof.
  induction segments as [|c segments IH]; intros out H; cbn [simplifyByMinimunLength] in H.
  - injection H as <-. constructor.
  - apply bind_Some in H. destruct H as (s & Hs & H).
    apply bind_Some in H. destruct H as (r & Hr & H). injection H as <-.
    constructor; [|exact (IH r Hr)].
    exact (proj1 (simplify_segment_shape min_length c s Hs)).
Qed.

(** The poses that one call of [computePoses] in [compute] adds. *)
Lemma filtered_poses_size (source_normal_cloud : list PointNormal) (segments simplified : list Curve)
      (acc : list (list Pose)) (res : Result) (out : list (list Pose)) :
  simplifyByMinimunLength segments (simplification_min_dist (pcl_cfg cfg)) = Some simplified ->
  computePoses cfg source_normal_cloud (filter (enough_points cfg) simplified) acc
  = Some (res, out) ->
  exists added, out = acc ++ added /\ Forall (region_size_ok cfg) added.
Proof.
  intros Hs Hp.
  destruct (computePoses_appends cfg _ _ _ _ _ Hp) as (added & E & HF).
  exists added. split; [exact E|].
  pose proof (simplifyByMinimunLength_two_points _ _ _ Hs) as H2.
  rewrite Forall_forall in H2.
  eapply Forall_impl; [|exact HF]. intros poses (c & Hin & Ep).
  apply filter_In in Hin. destruct Hin as [Hin Hen].
  assert (El : length poses = length c).
  { apply (f_equal (@length _)) in Ep. unfold positions in Ep.
    rewrite !length_map in Ep. exact Ep. }
  unfold region_size_ok. rewrite El. split; [exact (H2 c Hin)|].
  unfold enough_points in Hen. apply negb_true_iff, Nat.ltb_ge in Hen. exact Hen.
Qed.

Lemma assemble_appends (regions : RegionResults) (g : Gathered) (b : bool) (r : RegionResults) :
  assemble cfg regions g = Some (b, r) ->
  exists added_closed added_open,
    closed_regions_poses r = closed_regions_poses regions ++ added_closed
    /\ open_regions_poses r = open_regions_poses regions ++ added_open
    /\ images r = images regions
    /\ Forall (region_size_ok cfg) (added_closed ++ added_open).
Proof.
  unfold assemble. intros H.
  apply bind_Some in H. destruct H as ([[res closed_curves] open_curves] & Hc & H).
  apply bind_Some in H. destruct H as (closed & Hsc & H).
  apply bind_Some in H. destruct H as (open & Hso & H).
  apply bind_Some in H. destruct H as ([res1 open_poses] & Hpo & H).
  apply bind_Some in H. destruct H as ([res2 closed_poses] & Hpc & H).
  injection H as <- <-. cbn [closed_regions_poses open_regions_poses images].
  destruct (filtered_poses_size _ _ _ _ _ _ Hsc Hpc) as (addc & Ec & Fc).
  destruct (filtered_poses_size _ _ _ _ _ _ Hso Hpo) as (addo & Eo & Fo).
  exists addc, addo. split; [exact Ec|]. split; [exact Eo|]. split; [reflexivity|].
  apply Forall_app. split; assumption.
Qed.

(** A bundle whose image has no contours ends the computation: the
    extraction reports a failure on an empty list of contours. *)
Lemma bundle_curves_no_contours (data : DataBundle) (g : Gathered) :
  bundle_curves cfg data [] g = Some (inl tt).
Proof.
  unfold bundle_curves. cbn [mapM bind map].
  destruct (dltb (d_of_int 0) (downsampling_radius (pcl_2d_cfg cfg)));
    cbn [mapM bind map flat_map findClosedCurves app];
    unfold convertCloudTo2DContour, extractContoursFromCloud; cbn [mapM bind];
    destruct (negb (isOrganized _)); reflexivity.
Qed.

Lemma bundles_loop_no_contours (input : list DataBundle) (data : DataBundle) :
  In data input ->
  snd (fst (compute2dContours cfg (image data))) = [] ->
  forall (regions : RegionResults) (g : Gathered) r,
    bundles_loop cfg input regions g = Some r ->
    exists regions', r = inl regions'.
Proof.
  intros Hin Hno. induction input as [|d rest IH]; [destruct Hin|].
  intros regions g r H. cbn [bundles_loop] in H.
  destruct (compute2dContours cfg (image d)) as [[res contours] output] eqn:E2.
  destruct (negb (succeeded res)); [injection H as <-; eexists; reflexivity|].
  apply bind_Some in H. destruct H as (rb & Hb & H).
  destruct rb as [[]|g']; [injection H as <-; eexists; reflexivity|].
  destruct Hin as [->|Hin].
  - rewrite E2 in Hno. cbn in Hno. subst contours.
    rewrite bundle_curves_no_contours in Hb. discriminate.
  - exact (IH Hin _ _ _ H).
Qed.

End ComputeShape.

(** X14: [compute] only appends to the three vectors of its result: pose
    sequences of closed and of open regions, each of at least two poses and of
    at least [min_num_points] poses, and the diagnostic images of the first
    [k] bundles, in order.  On an empty list of bundles it changes nothing and
    returns whether the result it was given already holds a closed region. *)
Theorem compute_only_appends {A : Arith} {K : KdTree} {P : PCL} {O : OpenCV}
        (cfg : RegionDetectionConfig) (input : list DataBundle) (regions : RegionResults) :
  (forall (b : bool) (r : RegionResults),
      compute cfg input regions = Some (b, r) ->
      exists added_closed added_open k,
        closed_regions_poses r = closed_regions_poses regions ++ added_closed
        /\ open_regions_poses r = open_regions_poses regions ++ added_open
        /\ images r = images regions ++ map (diagnostic_image cfg) (firstn k input)
        /\ k <= length input
        /\ Forall (region_size_ok cfg) (added_closed ++ added_open))
  /\ compute cfg [] regions
     = Some (negb (Nat.eqb (length (closed_regions_poses regions)) 0), regions).
Proof.
  split.
  - intros b r H. unfold compute in H.
    apply bind_Some in H. destruct H as (rl & Hl & H).
    destruct (bundles_loop_regions cfg input _ _ _ Hl) as (Ec & Eo & k & Ei & Hk & _).
    destruct rl as [regions'|[regions' g]]; cbn zeta in Ec, Eo, Ei.
    + injection H as _ <-. exists [], [], k. rewrite !app_nil_r.
      repeat split; try assumption. constructor.
    + destruct (assemble_appends cfg regions' g b r H) as (addc & addo & E1 & E2 & E3 & HF).
      exists addc, addo, k. rewrite E1, E2, E3, Ec, Eo, Ei. repeat split; assumption.
  - destruct regions as [c o i]. reflexivity.
Qed.

Lemma compute_only_appends_witness :
  test_compute (fun c => c) scene_cfg [test_bundle [ring] (plane 3 3)] no_regions
  = Some (true, ring_scene_result)
  /\ exists added_closed added_open k,
      closed_regions_poses ring_scene_result = [] ++ added_closed
      /\ open_regions_poses ring_scene_result = [] ++ added_open
      /\ images ring_scene_result
         = [] ++ map (@diagnostic_image IEEE (TestPCL (fun c => c) up) TestCV scene_cfg)
                     (firstn k [test_bundle [ring] (plane 3 3)])
      /\ k <= 1
      /\ Forall (@region_size_ok IEEE scene_cfg) (added_closed ++ added_open).
Proof.
  split; [vm_compute; reflexivity|].
  apply (proj1 (@compute_only_appends IEEE LinearScan (TestPCL (fun c => c) up) TestCV
                  scene_cfg [test_bundle [ring] (plane 3 3)] no_regions)
               true ring_scene_result).
  vm_compute. reflexivity.
Defined.

(** X15: when the image of one of the bundles yields no contours, every
    run of [compute] that returns returns failure and adds no poses to the
    result, whatever the other bundles hold. *)
Theorem compute_fails_without_contours {A : Arith} {K : KdTree} {P : PCL} {O : OpenCV}
        (cfg : RegionDetectionConfig) (input : list DataBundle) (data : DataBundle)
        (regions : RegionResults) (b : bool) (r : RegionResults) :
  In data input ->
  snd (fst (compute2dContours cfg (image data))) = [] ->
  compute cfg input regions = Some (b, r) ->
  b = false
  /\ closed_regions_poses r = closed_regions_poses regions
  /\ open_regions_poses r = open_regions_poses regions.
Proof.
  intros Hin Hno H. unfold compute in H.
  apply bind_Some in H. destruct H as (rl & Hl & H).
  destruct (bundles_loop_no_contours cfg input data Hin Hno _ _ _ Hl) as (regions' & ->).
  destruct (bundles_loop_regions cfg input _ _ _ Hl) as (Ec & Eo & _).
  injection H as <- <-. cbn zeta in Ec, Eo. auto.
Qed.

Lemma compute_fails_without_contours_witness :
  exists r,
    test_compute (fun c => c) scene_cfg
                 [test_bundle [ring] (plane 3 3); test_bundle [] (plane 3 3)] no_regions
    = Some (false, r)
    /\ closed_regions_poses r = []
    /\ open_regions_poses r = [].
Proof.
  eexists. split; [vm_compute; reflexivity|].
  apply (@compute_fails_without_contours IEEE LinearScan (TestPCL (fun c => c) up) TestCV
           scene_cfg [test_bundle [ring] (plane 3 3); test_bundle [] (plane 3 3)]
           (test_bundle [] (plane 3 3)) no_regions false).
  - right. left. reflexivity.
  - reflexivity.
  - vm_compute. reflexivity.
Defined.

(** ** [mergeCurves] and [combineIntoClosedRegions] *)

Section CombineConserves.
Context {A : Arith}.
Variable cfg : RegionDetectionConfig.
Variable contours : list Curve.

Lemma mergeCurves_concatenation (max_dist : dbl) (c1 c2 m : Curve) :
  mergeCurves max_dist c1 c2 = Some (Some m) -> concatenation_of c1 c2 m.
Proof.
  unfold mergeCurves. intros H.
  apply bind_Some in H. destruct H as (f1 & _ & H).
  apply bind_Some in H. destruct H as (f2 & _ & H).
  apply bind_Some in H. destruct H as (b1 & _ & H).
  apply bind_Some in H. destruct H as (b2 & _ & H).
  destruct (min_element_from _ _ _ _) as [merge_method min_dist].
  destruct (dltb max_dist min_dist); [discriminate|].
  injection H as <-. unfold concatenation_of.
  destruct merge_method as [|[|[|k]]]; auto.
Qed.

Lemma concatenation_Permutation (c1 c2 m : Curve) :
  concatenation_of c1 c2 m -> Permutation m (c1 ++ c2).
Proof.
  intros [-> | [-> | [-> | ->]]].
  - rewrite Permutation_app_comm. apply Permutation_app_head. symmetry. apply Permutation_rev.
  - apply Permutation_app_comm.
  - apply Permutation_refl.
  - apply Permutation_app_head. symmetry. apply Permutation_rev.
Qed.

Lemma merge_pass_conserves (i : nat) (c0 : Curve) (m0 : list nat) (candidates : list nat) :
  ~ In i candidates ->
  forall curve m flag curve' m' flag' extra,
    merge_pass cfg contours i candidates (curve, m, flag) = Some (curve', m', flag') ->
    merge_inv contours i c0 m0 curve m extra ->
    exists extra', merge_inv contours i c0 m0 curve' m' extra'.
Proof.
  induction candidates as [|idx rest IH]; intros Hi curve m flag curve' m' flag' extra H Hinv.
  - simpl in H. injection H as <- <- <-. exists extra. exact Hinv.
  - assert (Hi' : ~ In i rest) by (intros Hc; apply Hi; right; exact Hc).
    assert (Hidx : idx <> i) by (intros ->; apply Hi; left; reflexivity).
    cbn [merge_pass] in H.
    destruct (is_merged idx m) eqn:Em; [exact (IH Hi' _ _ _ _ _ _ _ H Hinv)|].
    assert (Hnot : ~ In idx m).
    { intros Hin. apply (proj2 (is_merged_In _ _)) in Hin. rewrite Hin in Em. discriminate. }
    apply bind_Some in H. destruct H as (next & Hnext & H).
    apply bind_Some in H. destruct H as (r & Hr & H).
    destruct Hinv as (Hnd & Hex & Hsub & Hsup & Hperm).
    destruct r as [merged_points|].
    + apply (IH Hi' _ _ _ _ _ _ (extra ++ [idx]) H).
      assert (Hlt : idx < length contours).
      { apply nth_error_Some. rewrite Hnext. discriminate. }
      split; [|split; [|split; [|split]]].
      * apply NoDup_app; [exact Hnd | constructor; [intros [] | constructor] |].
        intros x Hx [<-|[]]. apply Hnot. apply Hsub. right. exact Hx.
      * intros x Hx. apply in_app_or in Hx. destruct Hx as [Hx|[<-|[]]]; [exact (Hex x Hx)|].
        split; [|split; [exact Hidx | exact Hlt]].
        intros Hc. apply Hnot. apply Hsub. left. exact Hc.
      * intros x Hx. apply (proj2 (sort_unique_In _ _)). apply in_or_app.
        destruct Hx as [Hx|Hx]; [left; apply Hsub; left; exact Hx|].
        apply in_app_or in Hx. destruct Hx as [Hx|[<-|[]]].
        -- left. apply Hsub. right. exact Hx.
        -- right. right. left. reflexivity.
      * intros x Hx. apply (proj1 (sort_unique_In _ _)) in Hx. apply in_app_or in Hx.
        destruct Hx as [Hx|[<-|[<-|[]]]].
        -- destruct (Hsup x Hx) as [H1|[H1|H1]]; [left; exact H1 | | right; right; exact H1].
           right. left. apply in_or_app. left. exact H1.
        -- right. right. reflexivity.
        -- right. left. apply in_or_app. right. left. reflexivity.
      * pose proof (concatenation_Permutation _ _ _ (mergeCurves_concatenation _ _ _ _ Hr)) as Hm.
        rewrite Hm, Hperm. unfold points_of_curves. rewrite flat_map_app. cbn [flat_map].
        rewrite (nth_error_nth _ _ _ Hnext), app_nil_r, app_assoc. reflexivity.
    + apply (IH Hi' _ _ _ _ _ _ extra H).
      split; [exact Hnd|]. split; [exact Hex|]. split; [|split; [|exact Hperm]].
      * intros x Hx. apply (proj2 (sort_unique_In _ _)). exact (Hsub x Hx).
      * intros x Hx. apply (proj1 (sort_unique_In _ _)) in Hx. exact (Hsup x Hx).
Qed.

Lemma merge_loop_conserves (i : nat) (c0 : Curve) (m0 : list nat) (candidates : list nat)
      (fuel : nat) :
  ~ In i candidates ->
  forall curve m curve' m' extra,
    merge_loop cfg fuel contours i candidates curve m = Finished (curve', m') ->
    merge_inv contours i c0 m0 curve m extra ->
    exists extra', merge_inv contours i c0 m0 curve' m' extra'.
Proof.
  intros Hi. induction fuel as [|fuel IH]; intros curve m curve' m' extra H Hinv;
    [discriminate|].
  rewrite merge_loop_S in H.
  destruct (merge_pass cfg contours i candidates (curve, m, false))
    as [[[c1 m1] flag]|] eqn:Ep; [|discriminate].
  destruct (merge_pass_conserves i c0 m0 candidates Hi _ _ _ _ _ _ _ Ep Hinv) as (extra1 & Hinv1).
  destruct flag.
  - exact (IH _ _ _ _ _ H Hinv1).
  - injection H as <- <-. exists extra1. exact Hinv1.
Qed.

Lemma merge_candidates_skip (n i : nat) : ~ In i (merge_candidates n i).
Proof.
  unfold merge_candidates. intros H. apply in_app_or in H.
  destruct H as [H|H]; apply in_seq in H; lia.
Qed.

Lemma combine_step_conserves (i : nat) (merged : list nat) (closed open : list Curve)
      (merged' : list nat) (closed' open' : list Curve) :
  combine_step cfg contours (merged, closed, open) i = Some (merged', closed', open') ->
  combine_inv contours (merged, closed, open) ->
  combine_inv contours (merged', closed', open')
  /\ (i < length contours -> In i merged')
  /\ (forall x, In x merged -> In x merged')
  /\ length closed' + length open' <= length closed + length open + 1.
Proof.
  intros H Hinv. unfold combine_step in H.
  destruct (is_merged i merged) eqn:Em.
  { injection H as <- <- <-. split; [exact Hinv|].
    split; [intros _; apply (proj1 (is_merged_In _ _)); exact Em|]. split; [auto | lia]. }
  assert (Hnot : ~ In i merged).
  { intros Hin. apply (proj2 (is_merged_In _ _)) in Hin. rewrite Hin in Em. discriminate. }
  apply bind_Some in H. destruct H as (c & Hc & H).
  destruct (merge_loop cfg (S (length contours)) contours i
              (merge_candidates (length contours) i) c merged) as [[c' m']| |] eqn:El;
    try discriminate.
  apply bind_Some in H. destruct H as (f & Hf & H).
  apply bind_Some in H. destruct H as (b & _ & H).
  destruct Hinv as (used & Hnd & Hset & Hbound & Hperm).
  assert (Hlt : i < length contours).
  { apply nth_error_Some. rewrite Hc. discriminate. }
  destruct (merge_loop_conserves i c merged _ _ (merge_candidates_skip _ i)
              c merged c' m' [] El) as (extra & Hnd' & Hex & Hsub & Hsup & Hperm').
  { split; [constructor|]. split; [intros x []|]. split; [intros x [Hx|[]]; exact Hx|].
    split; [intros x Hx; left; exact Hx|].
    unfold points_of_curves. cbn [flat_map]. rewrite app_nil_r. apply Permutation_refl. }
  assert (Hused : NoDup (used ++ i :: extra)
                  /\ (forall x, In x (used ++ i :: extra) <-> In x (m' ++ [i]))
                  /\ (forall x, In x (used ++ i :: extra) -> x < length contours)
                  /\ Permutation (points_of_curves contours used ++ c')
                                 (points_of_curves contours (used ++ i :: extra))).
  { split; [|split; [|split]].
    - apply NoDup_app; [exact Hnd | constructor; [|exact Hnd'] |].
      + intros Hc'. destruct (Hex i Hc') as (_ & Hne & _). apply Hne. reflexivity.
      + intros x Hx [<-|Hx'].
        * apply Hnot. apply Hset. exact Hx.
        * destruct (Hex x Hx') as (Hn & _). apply Hn. apply Hset. exact Hx.
    - intros x. rewrite !in_app_iff. cbn [In]. split.
      + intros [Hx|[<-|Hx]].
        * left. apply Hsub. left. apply Hset. exact Hx.
        * right. left. reflexivity.
        * left. apply Hsub. right. exact Hx.
      + intros [Hx|[<-|[]]]; [|right; left; reflexivity].
        destruct (Hsup x Hx) as [H1|[H1|H1]].
        * left. apply Hset. exact H1.
        * right. right. exact H1.
        * right. left. symmetry. exact H1.
    - intros x Hx. apply in_app_or in Hx. destruct Hx as [Hx|[<-|Hx]].
      + exact (Hbound x Hx).
      + exact Hlt.
      + exact (proj2 (proj2 (Hex x Hx))).
    - unfold points_of_curves in *. rewrite flat_map_app. cbn [flat_map].
      rewrite (nth_error_nth _ _ _ Hc). apply Permutation_app_head. exact Hperm'. }
  destruct Hused as (U1 & U2 & U3 & U4).
  assert (Hin : In i (m' ++ [i])) by (apply in_or_app; right; left; reflexivity).
  assert (Hmono : forall x, In x merged -> In x (m' ++ [i])).
  { intros x Hx. apply in_or_app. left. apply Hsub. left. exact Hx. }
  destruct (dltb (diff_norm f b) (closed_curve_max_dist (pcl_cfg cfg)));
    injection H as <- <- <-.
  - split; [|split; [intros _; exact Hin | split; [exact Hmono|]]].
    + exists (used ++ i :: extra). split; [exact U1|]. split; [exact U2|]. split; [exact U3|].
      rewrite map_app, concat_app. cbn [map concat]. rewrite removelast_last, app_nil_r.
      rewrite <- U4.
      rewrite <- Hperm.
      rewrite <- !app_assoc. apply Permutation_app_head. apply Permutation_app_comm.
    + rewrite length_app. cbn [length]. lia.
  - split; [|split; [intros _; exact Hin | split; [exact Hmono|]]].
    + exists (used ++ i :: extra). split; [exact U1|]. split; [exact U2|]. split; [exact U3|].
      rewrite concat_app. cbn [concat]. rewrite app_nil_r.
      rewrite <- U4, <- Hperm, <- !app_assoc. reflexivity.
    + rewrite length_app. cbn [length]. lia.
Qed.

Lemma combine_loop_conserves (todo : list nat) :
  forall merged closed open merged' closed' open',
    combine_loop cfg contours todo (merged, closed, open) = Some (merged', closed', open') ->
    combine_inv contours (merged, closed, open) ->
    combine_inv contours (merged', closed', open')
    /\ (forall i, In i todo -> i < length contours -> In i merged')
    /\ (forall x, In x merged -> In x merged')
    /\ length closed' + length open' <= length closed + length open + length todo.
Proof.
  induction todo as [|i todo IH]; intros merged closed open merged' closed' open' H Hinv.
  - simpl in H. injection H as <- <- <-. split; [exact Hinv|].
    split; [intros i []|]. split; [auto | simpl; lia].
  - simpl in H. apply bind_Some in H. destruct H as ([[m1 c1] o1] & H1 & H).
    destruct (combine_step_conserves _ _ _ _ _ _ _ H1 Hinv) as (I1 & In1 & M1 & L1).
    destruct (IH _ _ _ _ _ _ H I1) as (I2 & In2 & M2 & L2).
    split; [exact I2|]. split; [|split; [intros x Hx; apply M2, M1; exact Hx | simpl; lia]].
    intros j [<-|Hj] Hlt; [apply M2, In1; exact Hlt | exact (In2 j Hj Hlt)].
Qed.

Lemma map_nth_seq {X : Type} (l : list X) (d : X) :
  map (fun i => nth i l d) (seq 0 (length l)) = l.
Proof.
  induction l as [|a l IH]; [reflexivity|].
  cbn [length seq map nth]. f_equal.
  rewrite <- seq_shift, map_map. exact IH.
Qed.

Lemma points_of_all_curves : points_of_curves contours (seq 0 (length contours)) = concat contours.
Proof.
  unfold points_of_curves. rewrite flat_map_concat_map, map_nth_seq. reflexivity.
Qed.

Lemma unmerged_curves_none (merged : list nat) :
  (forall i, i < length contours -> In i merged) ->
  unmerged_curves contours merged = [].
Proof.
  intros H. unfold unmerged_curves.
  assert (G : forall l, (forall i, In i l -> i < length contours) ->
                        flat_map (fun i => if is_merged i merged then []
                                           else match nth_error contours i with
                                                | Some c => [c]
                                                | None => []
                                                end) l = []).
  { induction l as [|i l IH]; intros Hl; [reflexivity|]. cbn [flat_map].
    rewrite (proj2 (is_merged_In i merged) (H i (Hl i (or_introl eq_refl)))).
    apply IH. intros j Hj. apply Hl. right. exact Hj. }
  apply G. intros i Hi. apply in_seq in Hi. lia.
Qed.

Lemma combineIntoClosedRegions_facts (res : Result) (closed open : list Curve) :
  combineIntoClosedRegions cfg contours = Some (res, closed, open) ->
  Permutation (concat (map (fun c => removelast c) closed) ++ concat open) (concat contours)
  /\ length closed + length open <= length contours
  /\ (succeeded res = true <-> closed <> []).
Proof.
  unfold combineIntoClosedRegions. intros H.
  apply bind_Some in H. destruct H as ([[m c] o] & H1 & H).
  destruct (combine_loop_conserves _ _ _ _ _ _ _ H1) as (Hinv & Hall & _ & Hlen).
  { exists []. split; [constructor|]. split; [tauto|]. split; [intros x []|].
    apply Permutation_refl. }
  assert (Hm : forall i, i < length contours -> In i m).
  { intros i Hi. apply Hall; [apply in_seq; lia | exact Hi]. }
  rewrite (unmerged_curves_none m Hm), app_nil_r in H.
  destruct Hinv as (used & Hnd & Hset & Hbound & Hperm).
  assert (Hu : Permutation used (seq 0 (length contours))).
  { apply NoDup_Permutation; [exact Hnd | apply seq_NoDup|].
    intros x. rewrite in_seq. split; [intros Hx; specialize (Hbound x Hx); lia|].
    intros Hx. apply Hset. apply Hm. lia. }
  assert (Hp : Permutation (concat (map (fun c => removelast c) c) ++ concat o) (concat contours)).
  { rewrite Hperm, <- points_of_all_curves. unfold points_of_curves.
    apply Permutation_flat_map. exact Hu. }
  rewrite length_seq in Hlen. cbn [length] in Hlen.
  destruct c as [|c1 c]; injection H as <- <- <-; cbn [succeeded].
  - split; [exact Hp|]. split; [exact Hlen|]. split; [discriminate | intros Hc; contradiction].
  - split; [exact Hp|]. split; [exact Hlen|]. split; [discriminate | reflexivity].
Qed.

End CombineConserves.

(** X16: [combineIntoClosedRegions] neither loses nor repeats a vertex:
    apart from the closing vertex appended to every closed curve, the closed
    and open curves it returns hold, up to order, exactly the points of the
    curves it was given; it returns at most as many curves as it was given,
    and it reports success exactly when it returns a closed curve. *)
Theorem combineIntoClosedRegions_conserves {A : Arith} (cfg : RegionDetectionConfig)
        (contours_points : list Curve) (res : Result) (closed_curves open_curves : list Curve) :
  combineIntoClosedRegions cfg contours_points = Some (res, closed_curves, open_curves) ->
  Permutation (concat (map (fun c => removelast c) closed_curves) ++ concat open_curves)
              (concat contours_points)
  /\ length closed_curves + length open_curves <= length contours_points
  /\ (succeeded res = true <-> closed_curves <> []).
Proof.
  intros H. exact (combineIntoClosedRegions_facts cfg contours_points _ _ _ H).
Qed.

Lemma combineIntoClosedRegions_conserves_witness :
  exists res closed_curves open_curves,
    @combineIntoClosedRegions IEEE (test_env_cfg hull_cfg) [lower_side; upper_side; right_curve]
    = Some (res, closed_curves, open_curves)
    /\ Permutation (concat (map (fun c => removelast c) closed_curves) ++ concat open_curves)
                   (concat [lower_side; upper_side; right_curve])
    /\ length closed_curves + length open_curves <= 3
    /\ (succeeded res = true <-> closed_curves <> []).
Proof.
  eexists. eexists. eexists. split; [vm_compute; reflexivity|].
  apply (@combineIntoClosedRegions_conserves IEEE (test_env_cfg hull_cfg)
           [lower_side; upper_side; right_curve]).
  vm_compute. reflexivity.
Defined.

(** X17: when [mergeCurves] merges two curves it joins them at the pair of
    end points whose distance is the minimum it found, and that distance is
    not greater than [max_merge_dist]; the first curve keeps its direction and
    the second is reversed when needed. *)
Theorem mergeCurves_joins_nearest_ends {A : Arith} (max_merge_dist : dbl)
        (c1 c2 merged : Curve) :
  mergeCurves max_merge_dist c1 c2 = Some (Some merged) ->
  exists e1 e2,
    joined_at e1 e2 c1 c2 merged
    /\ min_end_point_distance c1 c2 = Some (diff_norm e1 e2)
    /\ dltb max_merge_dist (diff_norm e1 e2) = false.
Proof.
  unfold mergeCurves, min_end_point_distance. intros H.
  destruct (front c1) as [f1|] eqn:Ef1; [|discriminate].
  destruct (front c2) as [f2|] eqn:Ef2; [|discriminate].
  destruct (back c1) as [b1|] eqn:Eb1; [|discriminate].
  destruct (back c2) as [b2|] eqn:Eb2; [|discriminate].
  cbn [bind] in *.
  assert (Hcases :
            min_element_from 0 (diff_norm f1 f2) 1
                             [diff_norm f1 b2; diff_norm b1 f2; diff_norm b1 b2]
            = (0, diff_norm f1 f2)
            \/ min_element_from 0 (diff_norm f1 f2) 1
                                [diff_norm f1 b2; diff_norm b1 f2; diff_norm b1 b2]
               = (1, diff_norm f1 b2)
            \/ min_element_from 0 (diff_norm f1 f2) 1
                                [diff_norm f1 b2; diff_norm b1 f2; diff_norm b1 b2]
               = (2, diff_norm b1 f2)
            \/ min_element_from 0 (diff_norm f1 f2) 1
                                [diff_norm f1 b2; diff_norm b1 f2; diff_norm b1 b2]
               = (3, diff_norm b1 b2)).
  { cbn [min_element_from].
    repeat match goal with |- context [if ?b then _ else _] => destruct b end; auto. }
  destruct Hcases as [E|[E|[E|E]]]; rewrite E in *; cbn [snd];
    (destruct (dltb max_merge_dist _) eqn:Ed; [discriminate|]); injection H as <-.
  - exists f1, f2. split; [|split; [reflexivity | exact Ed]].
    exists (rev c2). split; [right; reflexivity|]. left.
    split; [reflexivity|]. split; [rewrite back_rev; exact Ef2 | exact Ef1].
  - exists f1, b2. split; [|split; [reflexivity | exact Ed]].
    exists c2. split; [left; reflexivity|]. left.
    split; [reflexivity|]. split; [exact Eb2 | exact Ef1].
  - exists b1, f2. split; [|split; [reflexivity | exact Ed]].
    exists c2. split; [left; reflexivity|]. right.
    split; [reflexivity|]. split; [exact Eb1 | exact Ef2].
  - exists b1, b2. split; [|split; [reflexivity | exact Ed]].
    exists (rev c2). split; [right; reflexivity|]. right.
    split; [reflexivity|]. split; [exact Eb1 | rewrite front_rev; exact Eb2].
Qed.

Lemma mergeCurves_joins_nearest_ends_witness :
  exists e1 e2,
    @joined_at IEEE e1 e2 left_curve right_curve (left_curve ++ right_curve)
    /\ @min_end_point_distance IEEE left_curve right_curve = Some (@diff_norm IEEE e1 e2)
    /\ SFltb (D 1) (@diff_norm IEEE e1 e2) = false.
Proof.
  apply (@mergeCurves_joins_nearest_ends IEEE (D 1) left_curve right_curve).
  vm_compute. reflexivity.
Defined.

(** Not-a-number end points. *)
Lemma diff_norm_nan_x (p q : PointXYZ_ spec_float) :
  x p = S754_nan -> @diff_norm IEEE p q = S754_nan.
Proof.
  destruct p as [xp yp zp], q as [xq yq zq]. cbn [x]. intros ->.
  unfold diff_norm, norm3d, squaredNorm3d, cast3, sub3f, getArray3fMap.
  cbn [vx vy vz x y z fsub cast dmul dadd dsqrt IEEE].
  assert (E : b32_to_b64 (b32_sub S754_nan xq) = S754_nan) by (destruct xq; reflexivity).
  rewrite E. reflexivity.
Qed.

(** X18: in IEEE arithmetic a not-a-number coordinate defeats the distance
    test of [mergeCurves]: a curve whose first and last point have a NaN [x]
    is merged with any non-empty curve, front to front, whatever
    [max_merge_dist] is. *)
Theorem mergeCurves_nan_end_points (max_merge_dist : spec_float)
        (c1 c2 : list (PointXYZ_ spec_float)) (f1 b1 : PointXYZ_ spec_float) :
  front c1 = Some f1 -> back c1 = Some b1 ->
  x f1 = S754_nan -> x b1 = S754_nan ->
  c2 <> [] ->
  @mergeCurves IEEE max_merge_dist c1 c2 = Some (Some (rev c2 ++ c1)).
Proof.
  intros Hf Hb Nf Nb Hc2. unfold mergeCurves.
  change (@flt IEEE) with spec_float. change (@dbl IEEE) with spec_float.
  rewrite Hf, Hb.
  destruct c2 as [|f2 c2']; [contradiction|].
  destruct (back_nonempty (f2 :: c2') ltac:(discriminate)) as (b2 & Eb2).
  rewrite Eb2. cbn [front hd_error bind].
  rewrite !(diff_norm_nan_x f1 _ Nf), !(diff_norm_nan_x b1 _ Nb).
  cbn [min_element_from dltb IEEE].
  replace (SFltb S754_nan S754_nan) with false by reflexivity.
  replace (SFltb max_merge_dist S754_nan) with false by (destruct max_merge_dist; reflexivity).
  reflexivity.
Qed.

Lemma mergeCurves_nan_end_points_witness :
  @mergeCurves IEEE (D 0) [NaN_point; pt 1 0 0; NaN_point] right_curve
  = Some (Some (rev right_curve ++ [NaN_point; pt 1 0 0; NaN_point])).
Proof.
  apply (mergeCurves_nan_end_points (D 0) [NaN_point; pt 1 0 0; NaN_point] right_curve
           NaN_point NaN_point); try reflexivity.
  discriminate.
Defined.

(** ** [compute2dContours] *)

(** X19: [compute2dContours] fails exactly when dilation is enabled with a
    kernel size that is not positive or with an element type other than 0, 1
    or 2; no threshold or Canny setting makes it fail.  When it fails it
    reports no contours and leaves in [output] the grayscale image, inverted
    if asked, without any later stage applied. *)
Theorem compute2dContours_rejects {A : Arith} {O : OpenCV}
        (cfg : RegionDetectionConfig) (input : Image) :
  (succeeded (fst (fst (compute2dContours cfg input))) = false
   <-> bad_dilation (opencv_cfg cfg))
  /\ (succeeded (fst (fst (compute2dContours cfg input))) = false ->
      snd (fst (compute2dContours cfg input)) = []
      /\ snd (compute2dContours cfg input)
         = (if invert_image (opencv_cfg cfg)
            then invert (cvtColor_RGB2GRAY input) else cvtColor_RGB2GRAY input)).
Proof.
  unfold compute2dContours, bad_dilation, DILATION_TYPES_count. cbv zeta.
  destruct (dil_enable (dilation (opencv_cfg cfg))) eqn:Ed; cbn [andb].
  - destruct (Z.leb_spec (kernel_size (dilation (opencv_cfg cfg))) 0) as [Hk|Hk].
    + cbn [fst snd succeeded]. split; [|intros _; split; reflexivity].
      split; [intros _; split; [reflexivity | left; exact Hk] | reflexivity].
    + destruct (Z.eqb_spec (elem (dilation (opencv_cfg cfg))) 0) as [E0|E0];
        [|destruct (Z.eqb_spec (elem (dilation (opencv_cfg cfg))) 1) as [E1|E1];
          [|destruct (Z.eqb_spec (elem (dilation (opencv_cfg cfg))) 2) as [E2|E2]]];
        cbn [orb Nat.eqb fst snd succeeded].
      * split; [|discriminate]. split; [discriminate|]. intros [_ [H|H]]; lia.
      * split; [|discriminate]. split; [discriminate|]. intros [_ [H|H]]; lia.
      * split; [|discriminate]. split; [discriminate|]. intros [_ [H|H]]; lia.
      * split; [|intros _; split; reflexivity].
        split; [intros _; split; [reflexivity | right; lia] | reflexivity].
  - cbn [fst snd succeeded]. split; [|discriminate].
    split; [discriminate | intros [H _]; discriminate].
Qed.

(** ** The pose of the last vertex of a curve *)

(** X20: in binary32/binary64 arithmetic, the pose at the last vertex of a
    curve has the x axis of the pose at the vertex before it, coefficient by
    coefficient up to the sign of a zero: the direction of the last segment,
    not its opposite. *)
Theorem last_pose_keeps_direction (curve : list (PointXYZ_ spec_float))
        (curve_normals : list (Normal_ spec_float))
        (n : nat) (pose_before pose_last : Pose_ spec_float) :
  length curve = S (S n) ->
  @pose_at IEEE curve curve_normals n = Some pose_before ->
  @pose_at IEEE curve curve_normals (S n) = Some pose_last ->
  same_vec (@col IEEE (rotation pose_last) 0) (@col IEEE (rotation pose_before) 0).
Proof.
  intros Hlen Hb Hl. unfold pose_at in Hb, Hl.
  change (@flt IEEE) with spec_float in *. change (@dbl IEEE) with spec_float in *.
  rewrite Hlen in Hb, Hl.
  replace (Nat.leb (S (S n)) (S n)) with false in Hb by (symmetry; apply Nat.leb_gt; lia).
  replace (Nat.leb (S (S n)) (S (S n))) with true in Hl by (symmetry; apply Nat.leb_refl).
  cbn [Nat.eqb bind] in Hb, Hl.
  replace (S n - 1) with n in Hl by lia.
  apply bind_Some in Hb. destruct Hb as (p1 & Ep1 & Hb).
  apply bind_Some in Hb. destruct Hb as (n1 & _ & Hb).
  apply bind_Some in Hb. destruct Hb as (p2 & Ep2 & Hb).
  apply bind_Some in Hb. destruct Hb as (n2 & _ & Hb). injection Hb as <-.
  apply bind_Some in Hl. destruct Hl as (q1 & Eq1 & Hl).
  apply bind_Some in Hl. destruct Hl as (m1 & _ & Hl).
  apply bind_Some in Hl. destruct Hl as (q2 & Eq2 & Hl). 
  apply bind_Some in Hl. destruct Hl as (m2 & _ & Hl). injection Hl as <-.
  rewrite Ep2 in Eq1. injection Eq1 as <-. rewrite Ep1 in Eq2. injection Eq2 as <-.
  cbn [rotation].
  destruct (pose_frame_columns IEEE (D (-1)) p2 p1 m1) as (-> & _).
  destruct (pose_frame_columns IEEE (D 1) p1 p2 n1) as (-> & _).
  exact (tangent_backward_ieee p1 p2).
Qed.

Lemma last_pose_keeps_direction_witness :
  exists pose_before pose_last,
    @pose_at IEEE [pt 0 0 0; pt 1 0 0] [up; up] 0 = Some pose_before
    /\ @pose_at IEEE [pt 0 0 0; pt 1 0 0] [up; up] 1 = Some pose_last
    /\ @col IEEE (rotation pose_before) 0 = mkVec3 (D 1) (D 0) (D 0)
    /\ @col IEEE (rotation pose_last) 0
       = mkVec3 (D 1) (S754_zero true) (S754_zero true)
    /\ same_vec (@col IEEE (rotation pose_last) 0) (@col IEEE (rotation pose_before) 0).
Proof.
  eexists. eexists. split; [vm_compute; reflexivity|]. split; [vm_compute; reflexivity|].
  split; [vm_compute; reflexivity|]. split; [vm_compute; reflexivity|].
  apply (last_pose_keeps_direction [pt 0 0 0; pt 1 0 0] [up; up] 0); vm_compute; reflexivity.
Defined.

(** ** How the stages of [compute] compose *)

Section EmptyCurves.
Context {A : Arith}.
Variable cfg : RegionDetectionConfig.

Lemma mergeCurves_empty_r (max_dist : dbl) (c : Curve) : mergeCurves max_dist c [] = None.
Proof. unfold mergeCurves. destruct (front c); reflexivity. Qed.

Lemma merge_pass_hits_empty (contours : list Curve) (i k : nat) (candidates : list nat) :
  nth_error contours k = Some [] -> k <> i ->
  forall (curve : Curve) (merged : list nat) (flag : bool),
    In k candidates -> ~ In k merged ->
    merge_pass cfg contours i candidates (curve, merged, flag) = None.
Proof.
  intros Hk Hki. induction candidates as [|idx rest IH]; intros curve merged flag Hin Hnot;
    [destruct Hin|].
  cbn [merge_pass].
  destruct (is_merged idx merged) eqn:Em.
  - destruct Hin as [->|Hin]; [|exact (IH _ _ _ Hin Hnot)].
    apply (proj1 (is_merged_In _ _)) in Em. contradiction.
  - destruct (Nat.eq_dec idx k) as [->|Hne].
    + rewrite Hk. cbn [bind]. rewrite mergeCurves_empty_r. reflexivity.
    + destruct Hin as [->|Hin]; [contradiction|].
      destruct (nth_error contours idx) as [next|]; [|reflexivity]. cbn [bind].
      destruct (mergeCurves _ curve next) as [[m|]|]; [| |reflexivity]; cbn [bind].
      * apply (IH _ _ _ Hin). intros Hc. apply (proj1 (sort_unique_In _ _)) in Hc.
        apply in_app_or in Hc. destruct Hc as [Hc|[Hc|[Hc|[]]]]; [contradiction | | ]; congruence.
      * apply (IH _ _ _ Hin). intros Hc. apply (proj1 (sort_unique_In _ _)) in Hc.
        contradiction.
Qed.

Lemma combine_first_step_empty (contours : list Curve) :
  In [] contours -> combine_step cfg contours ([], [], []) 0 = None.
Proof.
  intros Hin. unfold combine_step. cbn [is_merged existsb].
  destruct contours as [|c0 rest]; [destruct Hin|].
  cbn [nth_error bind length]. rewrite merge_loop_S.
  assert (Ecand : merge_candidates (S (length rest)) 0 = seq 1 (length rest)).
  { unfold merge_candidates. cbn [seq app]. f_equal. lia. }
  rewrite Ecand.
  destruct c0 as [|p0 c0'].
  - destruct rest as [|c1 rest']; [reflexivity|].
    cbn [length seq merge_pass is_merged existsb nth_error bind]. reflexivity.
  - destruct Hin as [Hc|Hin]; [discriminate|].
    apply In_nth_error in Hin. destruct Hin as (j & Hj).
    rewrite (merge_pass_hits_empty (( p0 :: c0') :: rest) 0 (S j) (seq 1 (length rest))).
    + reflexivity.
    + exact Hj.
    + discriminate.
    + apply in_seq. assert (j < length rest) by (apply nth_error_Some; unfold Curve in *; congruence).
      lia.
    + intros [].
Qed.

Lemma combineIntoClosedRegions_empty_curve (contours : list Curve) :
  In [] contours -> combineIntoClosedRegions cfg contours = None.
Proof.
  intros Hin. unfold combineIntoClosedRegions.
  destruct contours as [|c0 rest]; [destruct Hin|].
  cbn [length seq combine_loop]. rewrite (combine_first_step_empty _ Hin). reflexivity.
Qed.

Lemma simplifyByMinimunLength_empty_curve (segments : list Curve) (min_length : dbl) :
  In [] segments -> simplifyByMinimunLength segments min_length = None.
Proof.
  induction segments as [|c rest IH]; intros Hin; [destruct Hin|].
  cbn [simplifyByMinimunLength]. destruct Hin as [->|Hin]; [reflexivity|].
  destruct (simplify_segment min_length c); [|reflexivity]. cbn [bind].
  rewrite (IH Hin). reflexivity.
Qed.

End EmptyCurves.

(** X21: when the curves gathered from the bundles include an empty one
    (a contour that the cleaning has emptied), [compute] leaves defined
    behaviour: the first or the last point of an empty cloud is read when the
    open curves are merged or when the curves are simplified. *)
Theorem compute_undefined_on_empty_curve {A : Arith} {K : KdTree} {P : PCL} {O : OpenCV}
        (cfg : RegionDetectionConfig) (input : list DataBundle)
        (regions regions' : RegionResults) (g : Gathered) :
  bundles_loop cfg input regions (mkGathered [] [] []) = Some (inr (regions', g)) ->
  In [] (closed_contours_points g) \/ In [] (open_contours_points g) ->
  compute cfg input regions = None.
Proof.
  intros Hl Hempty. unfold compute. rewrite Hl. cbn [bind]. unfold assemble.
  destruct Hempty as [Hc|Ho].
  - destruct (combineIntoClosedRegions cfg (open_contours_points g))
      as [[[res cc] oc]|]; [|reflexivity].
    cbn [bind].
    rewrite (simplifyByMinimunLength_empty_curve (closed_contours_points g ++ cc) _).
    + reflexivity.
    + apply in_or_app. left. exact Hc.
  - rewrite (combineIntoClosedRegions_empty_curve cfg _ Ho). reflexivity.
Qed.

Lemma compute_undefined_on_empty_curve_witness :
  test_compute drop_non_finite scene_cfg [test_bundle [ring] blind_plane] no_regions = None.
Proof.
  apply (@compute_undefined_on_empty_curve IEEE LinearScan (TestPCL drop_non_finite up) TestCV
           scene_cfg [test_bundle [ring] blind_plane] no_regions
           (mkRegionResults [] [] [[ring]]) (mkGathered [[]] [] [])).
  - vm_compute. reflexivity.
  - left. left. reflexivity.
Defined.

(** X22: the curves that [compute] passes from [split] to
    [findClosedCurves] are never empty, so the classification always has a
    defined result and keeps every curve. *)
Theorem split_curves_classified {A : Arith} (clouds : list (list PointXYZ))
        (split_dist max_dist : dbl) :
  exists closed open,
    findClosedCurves (flat_map (fun c => split c split_dist) clouds) max_dist
    = Some (closed, open)
    /\ length closed + length open
       = length (flat_map (fun c => split c split_dist) clouds).
Proof.
  assert (H : Forall (fun c : Curve => 1 <= length c)
                     (flat_map (fun c => split c split_dist) clouds)).
  { apply Forall_flat_map. apply Forall_forall. intros c _.
    eapply Forall_impl; [|apply (split_two_points c split_dist)].
    intros s Hs. cbn beta in Hs. lia. }
  destruct (findClosedCurves_defined _ max_dist H) as (closed & open & E).
  exists closed, open. split; [exact E|].
  clear H. revert closed open E.
  induction (flat_map (fun c => split c split_dist) clouds) as [|c l IH]; intros closed open E.
  - injection E as <- <-. reflexivity.
  - cbn [findClosedCurves] in E.
    apply bind_Some in E. destruct E as (f & _ & E).
    apply bind_Some in E. destruct E as (b & _ & E).
    apply bind_Some in E. destruct E as ([cl op] & E0 & E).
    specialize (IH cl op E0).
    destruct (dltb _ _); injection E as <- <-; cbn [length]; lia.
Qed.

(** X23: the last loop of [combineIntoClosedRegions], which copies the
    curves that were not merged, never copies a curve: after the loop over
    the curves every index is among the merged ones. *)
Theorem combine_last_loop_copies_nothing {A : Arith} (cfg : RegionDetectionConfig)
        (contours_points : list Curve) (merged : list nat) (closed open : list Curve) :
  combine_loop cfg contours_points (seq 0 (length contours_points)) ([], [], [])
  = Some (merged, closed, open) ->
  unmerged_curves contours_points merged = [].
Proof.
  intros H.
  destruct (combine_loop_conserves cfg contours_points _ _ _ _ _ _ _ H) as (_ & Hall & _).
  { exists []. split; [constructor|]. split; [tauto|]. split; [intros x []|].
    apply Permutation_refl. }
  apply unmerged_curves_none. intros i Hi. apply Hall; [apply in_seq; lia | exact Hi].
Qed.

Lemma combine_last_loop_copies_nothing_witness :
  exists merged closed open,
    @combine_loop IEEE (test_env_cfg hull_cfg) [lower_side; upper_side; right_curve]
                  (seq 0 3) ([], [], [])
    = Some (merged, closed, open)
    /\ @unmerged_curves IEEE [lower_side; upper_side; right_curve] merged = [].
Proof.
  eexists. eexists. eexists. split; [vm_compute; reflexivity|].
  eapply (@combine_last_loop_copies_nothing IEEE (test_env_cfg hull_cfg)
            [lower_side; upper_side; right_curve]).
  vm_compute. reflexivity.
Defined.

(** ** When [computeNormals] and [computePoses] succeed *)

Section LookupFacts.
Context {A : Arith} {K : KdTree}.
Hypothesis Hsound : kd_sound K.
Hypothesis Hcomplete : kd_complete K.

(** A search over all the points of a non-empty cloud finds a valid index. *)
Lemma search_all_finds (epsilon : dbl) (cloud : list PointXYZ) (p : PointXYZ) :
  cloud <> [] ->
  exists i d, nearestKSearch epsilon cloud (seq 0 (length cloud)) p = Some (i, d)
              /\ i < length cloud.
Proof.
  intros Hne.
  destruct (nearestKSearch epsilon cloud (seq 0 (length cloud)) p) as [[i d]|] eqn:E.
  - exists i, d. split; [reflexivity|].
    apply Hsound in E. apply in_seq in E. lia.
  - exfalso. apply (Hcomplete epsilon cloud (seq 0 (length cloud)) p); [| |exact E].
    + destruct cloud; [contradiction | discriminate].
    + intros i Hi. apply in_seq in Hi. lia.
Qed.

Lemma curve_point_normals_defined (epsilon : dbl) (cloud : list PointXYZ)
      (cloud_normals : list PointNormal) (curve : Curve) :
  cloud <> [] -> length cloud_normals = length cloud ->
  exists pns, curve_point_normals epsilon cloud cloud_normals curve = Some (Some pns).
Proof.
  intros Hne Hlen. induction curve as [|p rest [pns IH]]; [exists []; reflexivity|].
  cbn [curve_point_normals].
  destruct (search_all_finds epsilon cloud p Hne) as (i & d & E & Hi). rewrite E.
  destruct (nth_error cloud_normals i) as [src|] eqn:En;
    [|apply nth_error_None in En; lia].
  cbn [bind]. rewrite IH. cbn [bind]. eexists. reflexivity.
Qed.

Lemma curves_point_normals_defined (epsilon : dbl) (cloud : list PointXYZ)
      (cloud_normals : list PointNormal) (curves : list Curve) :
  cloud <> [] -> length cloud_normals = length cloud ->
  exists all, curves_point_normals epsilon cloud cloud_normals curves = Some (true, all).
Proof.
  intros Hne Hlen. induction curves as [|c rest [all IH]]; [exists []; reflexivity|].
  cbn [curves_point_normals].
  destruct (curve_point_normals_defined epsilon cloud cloud_normals c Hne Hlen) as (pns & E).
  rewrite E. cbn [bind]. rewrite IH. cbn [bind]. eexists. reflexivity.
Qed.

Lemma lookup_normals_defined (epsilon : dbl) (source_normal_cloud : list PointNormal)
      (curve : Curve) :
  source_normal_cloud <> [] ->
  exists ns, lookup_normals epsilon source_normal_cloud curve = Some (Some ns)
             /\ length ns = length curve.
Proof.
  intros Hne. induction curve as [|p rest (ns & IH & Hl)]; [exists []; split; reflexivity|].
  cbn [lookup_normals].
  assert (Hpts : map (fun pn : PointNormal => pn_point pn) source_normal_cloud <> []).
  { destruct source_normal_cloud; [contradiction | discriminate]. }
  destruct (search_all_finds epsilon _ p Hpts) as (i & d & E & Hi). rewrite E.
  rewrite length_map in Hi.
  destruct (nth_error source_normal_cloud i) as [src|] eqn:En;
    [|apply nth_error_None in En; lia].
  cbn [bind]. rewrite IH. cbn [bind]. eexists. split; [reflexivity|].
  cbn [length]. rewrite Hl. reflexivity.
Qed.

Lemma pose_at_defined (curve : Curve) (curve_normals : list Normal) (i : nat) :
  i < length curve -> length curve_normals = length curve -> length curve <> 1 ->
  exists p, pose_at curve curve_normals i = Some p.
Proof.
  intros Hi Hlen H1. unfold pose_at.
  assert (Hp : forall j, j < length curve -> exists q, nth_error curve j = Some q).
  { intros j Hj. destruct (nth_error curve j) as [q|] eqn:E; [exists q; reflexivity|].
    apply nth_error_None in E. lia. }
  assert (Hn : forall j, j < length curve -> exists q, nth_error curve_normals j = Some q).
  { intros j Hj. destruct (nth_error curve_normals j) as [q|] eqn:E; [exists q; reflexivity|].
    apply nth_error_None in E. lia. }
  destruct (Nat.leb_spec (length curve) (S i)) as [Hlast|Hnext].
  - destruct (Nat.eqb_spec i 0) as [->|Hi0]; [lia|]. cbn [bind].
    destruct (Hp i Hi) as (p1 & ->). destruct (Hn i Hi) as (n1 & ->).
    destruct (Hp (i - 1) ltac:(lia)) as (p2 & ->).
    destruct (Hn (i - 1) ltac:(lia)) as (n2 & ->).
    cbn [bind]. eexists. reflexivity.
  - cbn [bind].
    destruct (Hp i Hi) as (p1 & ->). destruct (Hn i Hi) as (n1 & ->).
    destruct (Hp (S i) ltac:(lia)) as (p2 & ->).
    destruct (Hn (S i) ltac:(lia)) as (n2 & ->).
    cbn [bind]. eexists. reflexivity.
Qed.

Lemma pose_loop_defined (curve : Curve) (curve_normals : list Normal) (indices : list nat) :
  length curve_normals = length curve -> length curve <> 1 ->
  (forall i, In i indices -> i < length curve) ->
  exists ps, pose_loop curve curve_normals indices = Some ps.
Proof.
  intros Hlen H1. induction indices as [|i rest IH]; intros Hb; [exists []; reflexivity|].
  cbn [pose_loop].
  destruct (pose_at_defined curve curve_normals i (Hb i (or_introl eq_refl)) Hlen H1) as (p & ->).
  destruct IH as (ps & ->); [intros j Hj; apply Hb; right; exact Hj|].
  cbn [bind]. eexists. reflexivity.
Qed.

Lemma computePoses_defined (cfg : RegionDetectionConfig)
      (source_normal_cloud : list PointNormal) (curves : list Curve) :
  source_normal_cloud <> [] ->
  Forall (fun c => length c <> 1) curves ->
  forall acc, exists added,
      computePoses cfg source_normal_cloud curves acc = Some (mkResult true "", acc ++ added)
      /\ length added = length curves.
Proof.
  intros Hne HF. induction HF as [|c curves Hc _ IH]; intros acc.
  - exists []. rewrite app_nil_r. split; reflexivity.
  - cbn [computePoses].
    destruct (lookup_normals_defined (kdtree_epsilon (normal_est (pcl_cfg cfg)))
                source_normal_cloud c Hne) as (ns & -> & Hl).
    cbn [bind]. unfold curve_poses.
    destruct (pose_loop_defined c ns (seq 0 (length c)) Hl Hc) as (ps & ->).
    { intros i Hi. apply in_seq in Hi. lia. }
    cbn [bind]. destruct (IH (acc ++ [ps])) as (added & -> & Hlen).
    exists (ps :: added). rewrite <- app_assoc. split; [reflexivity|].
    cbn [length]. rewrite Hlen. reflexivity.
Qed.

End LookupFacts.

(** X24: with a search that finds a point among any non-empty set of
    indices, and a normal estimation that returns a normal for every point,
    [computeNormals] succeeds and throws nothing whenever the downsampled
    source cloud is not empty. *)
Theorem computeNormals_succeeds {A : Arith} {K : KdTree} {P : PCL}
        (cfg : RegionDetectionConfig) (source_cloud : PointCloud)
        (curves_points : list Curve) :
  kd_sound K -> kd_complete K -> estimates_every_point P ->
  voxelGrid (ne_downsampling_radius (normal_est (pcl_cfg cfg))) (points source_cloud) <> [] ->
  exists curves_normals,
    computeNormals cfg source_cloud curves_points = Some (mkResult true "", curves_normals).
Proof.
  intros Hs Hc He Hne. unfold computeNormals. cbv zeta.
  destruct (curves_point_normals_defined Hs Hc
              (kdtree_epsilon (normal_est (pcl_cfg cfg))) _
              (normalEstimation (viewpoint_xyz (normal_est (pcl_cfg cfg)))
                                (search_radius (normal_est (pcl_cfg cfg)))
                                (voxelGrid (ne_downsampling_radius (normal_est (pcl_cfg cfg)))
                                           (points source_cloud)))
              curves_points Hne (He _ _ _)) as (all & ->).
  exists all. reflexivity.
Qed.

Lemma computeNormals_succeeds_witness :
  exists curves_normals,
    @computeNormals IEEE LinearScan (TestPCL (fun c => c) up) scene_cfg (plane 3 3)
                    [[pt 0 0 0; pt 1 0 0]; [pt 2 2 0]]
    = Some (mkResult true "", curves_normals).
Proof.
  apply (@computeNormals_succeeds IEEE LinearScan (TestPCL (fun c => c) up)).
  - exact (@LinearScan_sound IEEE).
  - exact (@LinearScan_complete IEEE).
  - intros v r l. apply length_map.
  - vm_compute. discriminate.
Defined.

(** X25: with such a search, [computePoses] succeeds and appends one pose
    sequence per curve whenever the cloud of normals is not empty and no curve
    has exactly one vertex. *)
Theorem computePoses_succeeds {A : Arith} {K : KdTree}
        (cfg : RegionDetectionConfig) (source_normal_cloud : list PointNormal)
        (curves_points : list Curve) (curves_poses : list (list Pose)) :
  kd_sound K -> kd_complete K ->
  source_normal_cloud <> [] ->
  Forall (fun c => length c <> 1) curves_points ->
  exists added,
    computePoses cfg source_normal_cloud curves_points curves_poses
    = Some (mkResult true "", curves_poses ++ added)
    /\ length added = length curves_points.
Proof.
  intros Hs Hc Hne HF.
  exact (computePoses_defined Hs Hc cfg source_normal_cloud curves_points Hne HF curves_poses).
Qed.

Lemma computePoses_succeeds_witness :
  exists added,
    @computePoses IEEE LinearScan scene_cfg x_curve_normals [x_curve; []] []
    = Some (mkResult true "", [] ++ added)
    /\ length added = 2.
Proof.
  apply (@computePoses_succeeds IEEE LinearScan scene_cfg x_curve_normals [x_curve; []] []).
  - exact (@LinearScan_sound IEEE).
  - exact (@LinearScan_complete IEEE).
  - discriminate.
  - repeat constructor; discriminate.
Defined.

(** X26: in binary32/binary64 arithmetic, the pose of a vertex that has
    the finite coordinates of the neighbour it is paired with has a tangent of
    zeros: the first column of its rotation block consists of zeros, and when
    the unit normal is finite every entry of the block is a zero.  The block
    is not a rotation within 1e-6. *)
Theorem pose_frame_repeated_vertex (dir : spec_float) (p : PointXYZ_ spec_float)
        (n : Normal_ spec_float) :
  dir = D 1 \/ dir = D (-1) -> finite_point p = true ->
  zero_vec (@col IEEE (@pose_frame IEEE dir p p n) 0) = true
  /\ (finite_vec (@unit_normal IEEE n) = true ->
      zero_entries (@pose_frame IEEE dir p p n) = true)
  /\ rotation_within_tolerance (@pose_frame IEEE dir p p n) = false.
Proof.
  intros Hdir Hp. destruct (pose_frame_degenerate dir p n Hdir Hp) as [Hz Hall].
  split; [exact Hz|]. split; [exact Hall | exact (zero_column_outside_tolerance _ Hz)].
Qed.

Lemma pose_frame_repeated_vertex_witness :
  zero_vec (@col IEEE (@pose_frame IEEE (D 1) (pt 1 0 0) (pt 1 0 0) up) 0) = true
  /\ (finite_vec (@unit_normal IEEE up) = true ->
      zero_entries (@pose_frame IEEE (D 1) (pt 1 0 0) (pt 1 0 0) up) = true)
  /\ rotation_within_tolerance (@pose_frame IEEE (D 1) (pt 1 0 0) (pt 1 0 0) up) = false.
Proof.
  apply (pose_frame_repeated_vertex (D 1) (pt 1 0 0) up); [left; reflexivity | reflexivity].
Defined.
